(** * AiManager: the file-backed document store of [src/core/file-operations.js]

    A shallow embedding of the [FileOperations] class (locking, atomic
    writes, JSON recovery and backup rotation) together with the
    properties of its behaviour.

    Layout of the development:
    - [Str], [Paths]: the string and path helpers the code calls;
    - [Json]: JSON values, [JSON.parse] and [JSON.stringify (_, null, 2)];
    - [Fs]: the file tree and the [fs-extra] primitives;
    - [Js]: the effect signature of the class (file system, clock, uuid,
      the [locks] map, timers) and programs over it, with an atomic
      interpreter [run] and a one-primitive-at-a-time interpreter [step];
    - [FileOperations]: the methods of the class, one definition each;
    - [TaskCommands]: the task-list writer of the command line, a caller
      of the class;
    - the theorems. *)

From Stdlib Require Import Ascii String DecimalString DecimalFacts DecimalNat DecimalZ DecimalN.
From stdpp Require Import gmap strings list fin_maps sorting.

Local Open Scope string_scope.
Local Open Scope Z_scope.

(** ** Strings *)

Module Str.

(** The double-quote character. *)
Definition dq : ascii := ascii_of_nat 34.

Definition is_digit (c : ascii) : bool :=
  let n := nat_of_ascii c in (48 <=? n)%nat && (n <=? 57)%nat.

Definition is_upper (c : ascii) : bool :=
  let n := nat_of_ascii c in (65 <=? n)%nat && (n <=? 90)%nat.

Definition is_lower (c : ascii) : bool :=
  let n := nat_of_ascii c in (97 <=? n)%nat && (n <=? 122)%nat.

(** The regular-expression class [\w]. *)
Definition is_word (c : ascii) : bool :=
  is_digit c || is_upper c || is_lower c || Ascii.eqb c "_".

(** The regular-expression class [\s], restricted to its ASCII members
    (tab, line feed, vertical tab, form feed, carriage return, space).
    Strings are byte strings here; the non-ASCII white space of
    ECMAScript (U+00A0, U+FEFF, ...) is not recognised. *)
Definition is_space (c : ascii) : bool :=
  let n := nat_of_ascii c in ((9 <=? n)%nat && (n <=? 13)%nat) || (n =? 32)%nat.

Fixpoint skip_space (s : string) : string :=
  match s with
  | String c r => if is_space c then skip_space r else s
  | EmptyString => EmptyString
  end.

Fixpoint all_space (s : string) : bool :=
  match s with
  | String c r => is_space c && all_space r
  | EmptyString => true
  end.

(** [s.startsWith(p)] *)
Definition startsWith (s p : string) : bool := String.prefix p s.

(** [s.endsWith(p)] *)
Definition endsWith (s p : string) : bool :=
  let n := String.length s in
  let m := String.length p in
  (m <=? n)%nat && String.eqb (String.substring (n - m) m s) p.

Fixpoint drop (n : nat) (s : string) : string :=
  match n, s with
  | O, _ => s
  | S n', String _ r => drop n' r
  | S _, EmptyString => EmptyString
  end.

(** Position of the first occurrence of [p] in [s]. *)
Fixpoint find (p s : string) : option nat :=
  if String.prefix p s then Some O
  else match s with
       | String _ r => S <$> find p r
       | EmptyString => None
       end.

(** [s.split(sep)] for a non-empty separator. The scan moves one
    character at a time and carries how many characters of a separator
    just matched remain to be skipped, so that matches do not overlap. *)
Fixpoint split_go (sep : string) (skip : nat) (cur : string) (s : string)
  : list string :=
  match s with
  | EmptyString => [cur]
  | String c r =>
      match skip with
      | S k => split_go sep k cur r
      | O =>
          if String.prefix sep s
          then cur :: split_go sep (String.length sep - 1) EmptyString r
          else split_go sep O (cur +:+ String c EmptyString) r
      end
  end.

Definition split (sep s : string) : list string := split_go sep O EmptyString s.

(** [s.replace(p, r)] with a string pattern: only the first occurrence. *)
Fixpoint replace_first (p r s : string) : string :=
  if String.prefix p s then r +:+ drop (String.length p) s
  else match s with
       | String c t => String c (replace_first p r t)
       | EmptyString => EmptyString
       end.

Fixpoint count_char (c : ascii) (s : string) : nat :=
  match s with
  | String d r => (if Ascii.eqb c d then 1 else 0) + count_char c r
  | EmptyString => O
  end.

Fixpoint repeat_char (c : ascii) (n : nat) : string :=
  match n with
  | O => EmptyString
  | S k => String c (repeat_char c k)
  end.

Fixpoint map_char (f : ascii → ascii) (s : string) : string :=
  match s with
  | String c r => String (f c) (map_char f r)
  | EmptyString => EmptyString
  end.

(** The longest prefix of decimal digits, and what follows it. *)
Fixpoint span_digits (s : string) : string * string :=
  match s with
  | String c r =>
      if is_digit c then let '(d, t) := span_digits r in (String c d, t)
      else (EmptyString, s)
  | EmptyString => (EmptyString, EmptyString)
  end.

(** Decimal rendering of integers, as template literals and
    [JSON.stringify] print them. *)
Definition of_N (n : N) : string := NilEmpty.string_of_uint (N.to_uint n).
Definition of_nat (n : nat) : string := of_N (N.of_nat n).
Definition of_Z (z : Z) : string :=
  match z with
  | Z0 => "0"
  | Zpos p => of_N (Npos p)
  | Zneg p => "-" +:+ of_N (Npos p)
  end.

(** Value of a string of decimal digits ([None] when it is empty or has
    another character). *)
Definition digits_value (s : string) : option N :=
  match s with
  | EmptyString => None
  | _ => N.of_uint <$> NilEmpty.uint_of_string s
  end.

End Str.

(** ** JavaScript built-ins used on file names *)

Module Builtin.

Definition hex_digit (c : ascii) : option N :=
  let n := N_of_ascii c in
  if Str.is_digit c then Some (n - 48)%N
  else if ((97 <=? n) && (n <=? 102))%N then Some (n - 87)%N
  else if ((65 <=? n) && (n <=? 70))%N then Some (n - 55)%N
  else None.

(** Value of the longest prefix of hexadecimal digits; [None] if empty. *)
Fixpoint hex_prefix (acc : option N) (s : string) : option N :=
  match s with
  | String c r =>
      match hex_digit c with
      | Some d => hex_prefix (Some (default 0%N acc * 16 + d)%N) r
      | None => acc
      end
  | EmptyString => acc
  end.

(** [parseInt(s)] without a radix argument: leading white space, an
    optional sign, an optional [0x] prefix, then the longest run of
    digits. [None] stands for [NaN]. The value is exact (no rounding to
    a double). *)
Definition parseInt_unsigned (s : string) : option N :=
  match s with
  | String "0" (String "x" r) | String "0" (String "X" r) => hex_prefix None r
  | _ => Str.digits_value (fst (Str.span_digits s))
  end.

Definition parseInt (s : string) : option Z :=
  match Str.skip_space s with
  | String "-" r => (λ n, - Z.of_N n) <$> parseInt_unsigned r
  | String "+" r => Z.of_N <$> parseInt_unsigned r
  | r => Z.of_N <$> parseInt_unsigned r
  end.

(** [parseInt(x)] where [x] may be [undefined] (the string "undefined"
    has no leading digit). *)
Definition parseInt_opt (x : option string) : option Z := x ≫= parseInt.

(** [Array.prototype.sort(cmp)]: a stable sort; [cmp a b] is the sign
    information of the comparator, with [NaN] read as [0] as the
    language prescribes. Elements that compare [<= 0] keep their order. *)
Section sort.
Context {A : Type} (cmp : A → A → Z).

Fixpoint sort_insert (x : A) (l : list A) : list A :=
  match l with
  | [] => [x]
  | y :: l' => if decide (cmp x y ≤ 0) then x :: l else y :: sort_insert x l'
  end.

Definition sort (l : list A) : list A := foldr sort_insert [] l.
End sort.

(** [l.slice(n)] *)
Definition slice_from {A} (n : nat) (l : list A) : list A := drop n l.

Definition pad (width : nat) (n : Z) : string :=
  let d := Str.of_Z n in
  Str.repeat_char "0" (width - String.length d) +:+ d.

(** [new Date(t).toISOString()] for [t] milliseconds since the epoch
    (proleptic Gregorian calendar, UTC). *)
Definition toISOString (t : Z) : string :=
  let days := t `div` 86400000 in
  let ms := t `mod` 86400000 in
  let z := days + 719468 in
  let era := z `div` 146097 in
  let doe := z - era * 146097 in
  let yoe := (doe - doe `div` 1460 + doe `div` 36524 - doe `div` 146096) `div` 365 in
  let doy := doe - (365 * yoe + yoe `div` 4 - yoe `div` 100) in
  let mp := (5 * doy + 2) `div` 153 in
  let d := doy - (153 * mp + 2) `div` 5 + 1 in
  let m := if decide (mp < 10) then mp + 3 else mp - 9 in
  let y := yoe + era * 400 + (if decide (m ≤ 2) then 1 else 0) in
  (if decide (0 ≤ y ≤ 9999) then pad 4 y
   else (if decide (y < 0) then "-" else "+") +:+ pad 6 (Z.abs y))
  +:+ "-" +:+ pad 2 m +:+ "-" +:+ pad 2 d
  +:+ "T" +:+ pad 2 (ms `div` 3600000)
  +:+ ":" +:+ pad 2 ((ms `div` 60000) `mod` 60)
  +:+ ":" +:+ pad 2 ((ms `div` 1000) `mod` 60)
  +:+ "." +:+ pad 3 (ms `mod` 1000) +:+ "Z".

End Builtin.

(** ** Paths

    [path.dirname], [path.basename] and [path.join] of Node, for POSIX
    paths in normal form (no [.] or [..] component, no doubled or
    trailing slash), which is what [path.join] itself produces. *)

Module Paths.

(** The part before the last slash, if there is a slash, and the part
    after it. *)
Fixpoint split_last (s : string) : option string * string :=
  match s with
  | EmptyString => (None, EmptyString)
  | String c r =>
      let '(d, b) := split_last r in
      match d with
      | Some d' => (Some (String c d'), b)
      | None =>
          if Ascii.eqb c "/" then (Some EmptyString, b) else (None, String c b)
      end
  end.

Definition basename (p : string) : string := snd (split_last p).

Definition dirname (p : string) : string :=
  match fst (split_last p) with
  | None => "."
  | Some EmptyString => "/"
  | Some d => d
  end.

Definition join (a b : string) : string :=
  if String.eqb a EmptyString || String.eqb a "." then b
  else if String.eqb a "/" then "/" +:+ b
  else a +:+ "/" +:+ b.

(** [p] is inside the directory tree rooted at [d] (or is [d]). *)
Definition under (d p : string) : bool :=
  String.eqb d p || String.prefix (d +:+ "/") p.

End Paths.

(** ** JSON

    Values are the ones [JSON.parse] can produce. Deviations from the
    engine, none of which the theorems below depend on: numbers are exact
    decimals [mant * 10^expo] rather than doubles (and are printed
    without exponent notation); strings are byte
    strings, so a [\uXXXX] escape is stored as the UTF-8 bytes of that
    code unit; an object is a list of bindings with distinct keys in
    first-insertion order (the engine moves integer-like keys first). *)

Module Json.

Record num := Num { mant : Z; expo : Z }.

#[warnings="-register-all"]
Inductive json :=
| JNull
| JBool (b : bool)
| JNum (n : num)
| JStr (s : string)
| JArr (l : list json)
| JObj (l : list (string * json)).

Global Instance num_eq_dec : EqDecision num.
Proof. solve_decision. Defined.

Definition JInt (z : Z) : json := JNum (Num z 0).

(** *** Numbers *)

(** Canonical form: an integer has exponent [0], another value has a
    negative exponent and a mantissa that is not a multiple of ten. *)
Fixpoint strip_zeros (fuel : nat) (m e : Z) : num :=
  match fuel with
  | O => Num m e
  | S f =>
      if decide (0 ≤ e) then Num m e
      else if decide (m `mod` 10 = 0) then strip_zeros f (m `div` 10) (e + 1)
      else Num m e
  end.

Definition normalize (m e : Z) : num :=
  if decide (m = 0) then Num 0 0
  else if decide (0 ≤ e) then Num (m * 10 ^ e) 0
  else strip_zeros (Z.to_nat (- e)) m e.

(** [a > n] for an integer [a]. *)
Definition Z_gt_num (a : Z) (n : num) : bool :=
  if decide (0 ≤ expo n) then bool_decide (a > mant n * 10 ^ expo n)
  else bool_decide (a * 10 ^ (- expo n) > mant n).

Definition num_is_zero (n : num) : bool := bool_decide (mant n = 0).

(** The digits of an optional exponent part; [None] if it is malformed. *)
Definition parse_exponent (s : string) : option (Z * string) :=
  match s with
  | String "e" r | String "E" r =>
      let '(neg, r1) :=
        match r with
        | String "-" t => (true, t)
        | String "+" t => (false, t)
        | _ => (false, r)
        end in
      let '(d, r2) := Str.span_digits r1 in
      n ← Str.digits_value d;
      Some (if neg : bool then - Z.of_N n else Z.of_N n, r2)
  | _ => Some (0, s)
  end.

Definition parse_fraction (s : string) : option (string * string) :=
  match s with
  | String "." r =>
      let '(d, r1) := Str.span_digits r in
      match d with EmptyString => None | _ => Some (d, r1) end
  | _ => Some (EmptyString, s)
  end.

(** The number grammar of JSON: an optional minus sign; an integer part
    that is either a single zero or starts with a non-zero digit; an
    optional fraction (a dot and at least one digit); an optional
    exponent. The integer part of a leading-zero literal is the zero
    alone, so that what follows is left over and rejected by the caller. *)
Definition parse_number (s : string) : option (num * string) :=
  let '(neg, s1) :=
    match s with String "-" t => (true, t) | _ => (false, s) end in
  '(i, s2) ← match s1 with
             | String "0" t => Some ("0", t)
             | _ => let '(d, t) := Str.span_digits s1 in
                    match d with EmptyString => None | _ => Some (d, t) end
             end;
  '(f, s3) ← parse_fraction s2;
  '(e, s4) ← parse_exponent s3;
  m ← Str.digits_value (i +:+ f);
  let m' := if neg : bool then - Z.of_N m else Z.of_N m in
  Some (normalize m' (e - Z.of_nat (String.length f)), s4).

Definition zeros (n : nat) : string := Str.repeat_char "0" n.

(** Decimal rendering of a number; integers print as integers, other
    values as a plain decimal fraction. *)
Definition show_num (n : num) : string :=
  if decide (0 ≤ expo n) then Str.of_Z (mant n * 10 ^ expo n)
  else
    let d := Str.of_N (Z.abs_N (mant n)) in
    let k := Z.to_nat (- expo n) in
    let len := String.length d in
    (if decide (mant n < 0) then "-" else EmptyString) +:+
    (if decide (k < len)%nat
     then String.substring 0 (len - k) d +:+ "." +:+ Str.drop (len - k) d
     else "0." +:+ zeros (k - len) +:+ d).

(** *** Strings *)

Definition hex4 (a b c d : ascii) : option N :=
  x ← Builtin.hex_digit a; y ← Builtin.hex_digit b;
  z ← Builtin.hex_digit c; w ← Builtin.hex_digit d;
  Some (((x * 16 + y) * 16 + z) * 16 + w)%N.

Definition utf8 (n : N) : string :=
  if decide (n < 128)%N then String (ascii_of_N n) EmptyString
  else if decide (n < 2048)%N then
    String (ascii_of_N (192 + n `div` 64)%N)
      (String (ascii_of_N (128 + n `mod` 64)%N) EmptyString)
  else
    String (ascii_of_N (224 + n `div` 4096)%N)
      (String (ascii_of_N (128 + (n `div` 64) `mod` 64)%N)
         (String (ascii_of_N (128 + n `mod` 64)%N) EmptyString)).

Definition simple_escape (c : ascii) : option ascii :=
  if Ascii.eqb c Str.dq then Some Str.dq
  else if Ascii.eqb c "\" then Some "\"%char
  else if Ascii.eqb c "/" then Some "/"%char
  else if Ascii.eqb c "b" then Some (ascii_of_nat 8)
  else if Ascii.eqb c "f" then Some (ascii_of_nat 12)
  else if Ascii.eqb c "n" then Some (ascii_of_nat 10)
  else if Ascii.eqb c "r" then Some (ascii_of_nat 13)
  else if Ascii.eqb c "t" then Some (ascii_of_nat 9)
  else None.

(** The characters of a string literal after its opening quote, up to
    and including the closing quote. *)
Fixpoint parse_string_body (s : string) : option (string * string) :=
  match s with
  | EmptyString => None
  | String c r =>
      if Ascii.eqb c Str.dq then Some (EmptyString, r)
      else if Ascii.eqb c "\" then
        match r with
        | String "u" (String h1 (String h2 (String h3 (String h4 r')))) =>
            n ← hex4 h1 h2 h3 h4;
            '(t, rest) ← parse_string_body r';
            Some (utf8 n +:+ t, rest)
        | String e r' =>
            x ← simple_escape e;
            '(t, rest) ← parse_string_body r';
            Some (String x t, rest)
        | EmptyString => None
        end
      else if (nat_of_ascii c <? 32)%nat then None
      else '(t, rest) ← parse_string_body r; Some (String c t, rest)
  end.

Definition hex_char (n : N) : ascii :=
  if decide (n < 10)%N then ascii_of_N (48 + n) else ascii_of_N (87 + n).

Definition escape_char (c : ascii) : string :=
  let n := N_of_ascii c in
  if Ascii.eqb c Str.dq then String "\" (String Str.dq EmptyString)
  else if Ascii.eqb c "\" then "\\"
  else if (n =? 8)%N then "\b"
  else if (n =? 12)%N then "\f"
  else if (n =? 10)%N then "\n"
  else if (n =? 13)%N then "\r"
  else if (n =? 9)%N then "\t"
  else if (n <? 32)%N then
    "\u00" +:+ String (hex_char (n `div` 16)) (String (hex_char (n `mod` 16)) EmptyString)
  else String c EmptyString.

Fixpoint escape (s : string) : string :=
  match s with
  | String c r => escape_char c +:+ escape r
  | EmptyString => EmptyString
  end.

Definition quote (s : string) : string :=
  String Str.dq (escape s +:+ String Str.dq EmptyString).

(** *** Values *)

(** JSON white space: space, tab, line feed, carriage return. *)
Definition is_ws (c : ascii) : bool :=
  let n := nat_of_ascii c in
  (n =? 32)%nat || (n =? 9)%nat || (n =? 10)%nat || (n =? 13)%nat.

Fixpoint skip_ws (s : string) : string :=
  match s with
  | String c r => if is_ws c then skip_ws r else s
  | EmptyString => EmptyString
  end.

(** Binding [k] to [v] in an object: a key that is already present keeps
    its position and takes the new value. *)
Fixpoint obj_set (k : string) (v : json) (l : list (string * json))
  : list (string * json) :=
  match l with
  | [] => [(k, v)]
  | (k', v') :: l' =>
      if String.eqb k k' then (k, v) :: l' else (k', v') :: obj_set k v l'
  end.

Fixpoint obj_get (k : string) (l : list (string * json)) : option json :=
  match l with
  | [] => None
  | (k', v) :: l' => if String.eqb k k' then Some v else obj_get k l'
  end.

Definition expect (lit : string) (v : json) (s : string) : option (json * string) :=
  if String.prefix lit s then Some (v, Str.drop (String.length lit) s) else None.

Fixpoint parse_value (fuel : nat) (s : string) : option (json * string) :=
  match fuel with
  | O => None
  | S f =>
      match skip_ws s with
      | String "{" r =>
          match skip_ws r with
          | String "}" r' => Some (JObj [], r')
          | r1 => parse_members f r1 []
          end
      | String "[" r =>
          match skip_ws r with
          | String "]" r' => Some (JArr [], r')
          | r1 => parse_elements f r1 []
          end
      | String "t" _ as s' => expect "true" (JBool true) s'
      | String "f" _ as s' => expect "false" (JBool false) s'
      | String "n" _ as s' => expect "null" JNull s'
      | String c r as s' =>
          if Ascii.eqb c Str.dq
          then '(t, r') ← parse_string_body r; Some (JStr t, r')
          else '(n, r') ← parse_number s'; Some (JNum n, r')
      | EmptyString => None
      end
  end
with parse_elements (fuel : nat) (s : string) (acc : list json)
  : option (json * string) :=
  match fuel with
  | O => None
  | S f =>
      '(v, r) ← parse_value f s;
      match skip_ws r with
      | String "," r' => parse_elements f r' (acc ++ [v])
      | String "]" r' => Some (JArr (acc ++ [v]), r')
      | _ => None
      end
  end
with parse_members (fuel : nat) (s : string) (acc : list (string * json))
  : option (json * string) :=
  match fuel with
  | O => None
  | S f =>
      match skip_ws s with
      | String c r =>
          if Ascii.eqb c Str.dq then
            '(k, r1) ← parse_string_body r;
            match skip_ws r1 with
            | String ":" r2 =>
                '(v, r3) ← parse_value f r2;
                match skip_ws r3 with
                | String "," r4 => parse_members f r4 (obj_set k v acc)
                | String "}" r4 => Some (JObj (obj_set k v acc), r4)
                | _ => None
                end
            | _ => None
            end
          else None
      | EmptyString => None
      end
  end.

(** [JSON.parse(s)]; [None] stands for the [SyntaxError] it throws. *)
Definition parse (s : string) : option json :=
  '(v, r) ← parse_value (2 * String.length s + 2) s;
  match skip_ws r with EmptyString => Some v | _ => None end.

Definition spaces (n : nat) : string := Str.repeat_char " " n.

Definition nl : string := String (ascii_of_nat 10) EmptyString.

Fixpoint join_lines (l : list string) : string :=
  match l with
  | [] => EmptyString
  | [x] => x
  | x :: l' => x +:+ "," +:+ nl +:+ join_lines l'
  end.

(** [JSON.stringify(v, null, 2)] at nesting depth [ind / 2]. *)
Fixpoint stringify_at (ind : nat) (v : json) : string :=
  match v with
  | JNull => "null"
  | JBool true => "true"
  | JBool false => "false"
  | JNum n => show_num n
  | JStr s => quote s
  | JArr [] => "[]"
  | JArr l =>
      "[" +:+ nl +:+
      join_lines (map (λ x, spaces (ind + 2) +:+ stringify_at (ind + 2) x) l)
      +:+ nl +:+ spaces ind +:+ "]"
  | JObj [] => "{}"
  | JObj l =>
      "{" +:+ nl +:+
      join_lines (map (λ kv, spaces (ind + 2) +:+ quote (fst kv) +:+ ": "
                             +:+ stringify_at (ind + 2) (snd kv)) l)
      +:+ nl +:+ spaces ind +:+ "}"
  end.

Definition stringify (v : json) : string := stringify_at 0 v.

(** *** The operations of the language the code applies to values *)

(** Truthiness, as in [if (v)]. *)
Definition truthy (v : json) : bool :=
  match v with
  | JNull => false
  | JBool b => b
  | JNum n => negb (num_is_zero n)
  | JStr s => negb (String.eqb s EmptyString)
  | JArr _ | JObj _ => true
  end.

(** Property read [v.k] for a key that no primitive wrapper or array
    defines ([timestamp], [workerId], [worker_id]): [None] is the
    [TypeError] raised on [null], [Some None] is [undefined]. *)
Definition get (v : json) (k : string) : option (option json) :=
  match v with
  | JNull => None
  | JObj l => Some (obj_get k l)
  | _ => Some None
  end.

(** Numeric conversion of an operand of [-]. [None] stands for [NaN].
    A string converts when, trimmed, it is empty or a JSON number
    literal with an optional sign; arrays and objects, which the engine
    first turns into strings, are taken to give [NaN]. *)
Definition to_number (x : option json) : option num :=
  match x with
  | None => None
  | Some JNull => Some (Num 0 0)
  | Some (JBool b) => Some (Num (if b then 1 else 0) 0)
  | Some (JNum n) => Some n
  | Some (JStr s) =>
      match Str.skip_space s with
      | EmptyString => Some (Num 0 0)
      | String "+" r | r =>
          '(n, rest) ← parse_number r;
          if Str.all_space rest then Some n else None
      end
  | Some (JArr _) | Some (JObj _) => None
  end.

(** The own enumerable properties of a value, in the order in which
    object spread [{ ...v }] copies them: the bindings of an object,
    the indices of an array or of a string; nothing for the other
    values. *)
Definition spread (v : json) : list (string * json) :=
  match v with
  | JObj l => l
  | JArr l => imap (λ i x, (Str.of_nat i, x)) l
  | JStr s =>
      imap (λ i c, (Str.of_nat i, JStr (String c EmptyString)))
           (list_ascii_of_string s)
  | _ => []
  end.

(** Copying bindings into an object under construction, one after the
    other. *)
Definition assign (target src : list (string * json)) : list (string * json) :=
  foldl (λ acc kv, obj_set (fst kv) (snd kv) acc) target src.

End Json.

(** ** The file system

    A tree is a finite map from paths to nodes. The functions are the
    [fs-extra] calls of the code on a POSIX file system. Two of them are
    narrower than the library: copying or moving a directory is reported
    as [EISDIR] (the library would copy or move the whole tree; the store
    passes document files). [move] with [overwrite] is not one step: the
    library looks at both paths, removes the destination, and then
    renames the source to it, so the rename can be rejected after the
    destination is gone. A tree does not record which directories hold
    an entry: [writeFile] and [copy] do not look for the directory of
    the path they write. *)

Module Fs.

Inductive node := File (content : string) | Dir.

Inductive errno := ENOENT | EISDIR | ENOTDIR | EEXIST | EINVAL | EIO.

Global Instance node_eq_dec : EqDecision node.
Proof. solve_decision. Defined.
Global Instance errno_eq_dec : EqDecision errno.
Proof. solve_decision. Defined.

Abbreviation tree := (gmap string node).

Definition pathExists (σ : tree) (p : string) : bool :=
  bool_decide (is_Some (σ !! p)).

Definition readFile (σ : tree) (p : string) : errno + string :=
  match σ !! p with
  | Some (File c) => inr c
  | Some Dir => inl EISDIR
  | None => inl ENOENT
  end.

Definition writeFile (σ : tree) (p data : string) : errno + tree :=
  match σ !! p with
  | Some Dir => inl EISDIR
  | _ => inr (<[p := File data]> σ)
  end.

(** [fs.remove]: the node and everything below it; no error when the
    path is absent. *)
Definition remove (σ : tree) (p : string) : tree :=
  filter (λ kv, Paths.under p kv.1 = false) σ.

Definition ensureDir (σ : tree) (p : string) : errno + tree :=
  match σ !! p with
  | Some (File _) => inl EEXIST
  | Some Dir => inr σ
  | None => inr (<[p := Dir]> σ)
  end.

Definition copy (σ : tree) (src dst : string) : errno + tree :=
  match σ !! src with
  | None => inl ENOENT
  | Some Dir => inl EISDIR
  | Some (File c) =>
      match σ !! dst with
      | Some Dir => inl EISDIR
      | _ => inr (<[dst := File c]> σ)
      end
  end.

(** [fs.move(src, dst, { overwrite: true })], in its two steps. The
    library first looks at both paths: it rejects when the source is
    missing, when the two paths are the same, and when a file would
    replace a directory; it then removes the destination
    ([move_clear]). After that it renames the source to the
    destination ([rename]). *)
Definition move_clear (σ : tree) (src dst : string) : errno + tree :=
  if String.eqb src dst then inl EINVAL
  else match σ !! src with
       | None => inl ENOENT
       | Some Dir => inl EISDIR
       | Some (File _) =>
           match σ !! dst with
           | Some Dir => inl EISDIR
           | _ => inr (remove σ dst)
           end
       end.

Definition rename (σ : tree) (src dst : string) : errno + tree :=
  match σ !! src with
  | None => inl ENOENT
  | Some Dir => inl EISDIR
  | Some (File c) =>
      match σ !! dst with
      | Some Dir => inl EISDIR
      | _ => inr (<[dst := File c]> (delete src σ))
      end
  end.

(** The names of the entries of a directory. The order is the one in
    which the map enumerates its keys; the code sorts what it keeps. *)
Definition readdir (σ : tree) (d : string) : errno + list string :=
  match σ !! d with
  | None => inl ENOENT
  | Some (File _) => inl ENOTDIR
  | Some Dir =>
      inr (Paths.basename <$>
             filter (λ k, Paths.dirname k = d ∧ k ≠ d) (map_to_list σ).*1)
  end.

End Fs.

(** ** Programs of the class

    A method is a program over the primitives it calls: the [fs-extra]
    functions, [Date.now], [uuidv4], the [locks] map of the instance,
    [setTimeout] and the environment of the process. [run] executes a
    program to completion at once (a call that no other process
    interleaves with); [step] executes one primitive, which is the grain
    at which processes interleave (every primitive is behind an [await]).

    The state has two parts. [World] is what the processes share: the
    file tree, the clock, the supply of identifiers and, for the theorems
    about I/O errors, a schedule of injected faults: each primitive that
    can reject takes the next entry, and fails with [EIO] and without
    effect when it is [true] ([pathExists] never rejects; [move] takes
    one entry for each of its two steps). [Proc] is one
    process: its [locks] map, its pending timers, its environment.
    Console output is not modelled. *)

Module Js.

Import Json.

Inductive error :=
| IOError (e : Fs.errno)
| SyntaxError
| TypeError
| Locked (workerId : option json)
| NoLock
| AtomicWriteFailed (cause : error).

(** The value of [this.locks.get(filePath)]. *)
Record lock_info := LockInfo { li_lockId : string; li_lockFile : string }.

(** A pending [setTimeout] callback; the only callback of the class is
    [releaseLock(filePath, lockId)]. *)
Record timer := Timer {
  t_set_at : Z; t_delay : Z; t_path : string; t_lockId : string }.

Record World := mkWorld {
  fs : Fs.tree;
  clock : Z;
  uuid_next : nat;
  faults : list bool }.

Record Proc := mkProc {
  locks : gmap string lock_info;
  timers : list timer;
  env_worker_id : option string;
  cwd : string;
  pid : Z }.

Definition state : Type := Proc * World.

Definition set_fs (σ : Fs.tree) (w : World) : World :=
  mkWorld σ (clock w) (uuid_next w) (faults w).
Definition set_clock (t : Z) (w : World) : World :=
  mkWorld (fs w) t (uuid_next w) (faults w).
Definition set_uuid_next (n : nat) (w : World) : World :=
  mkWorld (fs w) (clock w) n (faults w).
Definition set_faults (l : list bool) (w : World) : World :=
  mkWorld (fs w) (clock w) (uuid_next w) l.
Definition set_locks (m : gmap string lock_info) (p : Proc) : Proc :=
  mkProc m (timers p) (env_worker_id p) (cwd p) (pid p).
Definition set_timers (l : list timer) (p : Proc) : Proc :=
  mkProc (locks p) l (env_worker_id p) (cwd p) (pid p).

(** The identifiers [uuidv4] hands out: pairwise distinct. *)
Definition uuid_of (n : nat) : string := "uuid-" +:+ Str.of_nat n.

(** The delay [setTimeout] uses: one millisecond unless the argument is
    between 1 and 2^31 - 1. *)
Definition clamp_delay (d : Z) : Z :=
  if decide (1 ≤ d ≤ 2147483647) then d else 1.

Inductive op : Type → Type :=
| PathExists (p : string) : op bool
| ReadFile (p : string) : op string
| WriteFile (p data : string) : op unit
| Remove (p : string) : op unit
| Copy (src dst : string) : op unit
| Move (src dst : string) : op unit
| EnsureDir (p : string) : op unit
| Readdir (p : string) : op (list string)
| DateNow : op Z
| Uuidv4 : op string
| LocksGet (p : string) : op (option lock_info)
| LocksSet (p : string) (li : lock_info) : op unit
| LocksDelete (p : string) : op unit
| SetTimeout (path lockId : string) (delay : Z) : op unit
| EnvWorkerId : op (option string)
| Cwd : op string
| Pid : op Z.

(** A primitive that can reject: it takes the next entry of the fault
    schedule, then acts on the tree. *)
Definition io {X} (w : World) (f : Fs.tree → Fs.errno + (X * Fs.tree))
  : (error + X) * World :=
  match faults w with
  | true :: l => (inl (IOError Fs.EIO), set_faults l w)
  | l =>
      let w' := set_faults (tail l) w in
      match f (fs w) with
      | inl e => (inl (IOError e), w')
      | inr (x, σ) => (inr x, set_fs σ w')
      end
  end.

Definition writes (r : Fs.errno + Fs.tree) : Fs.errno + (unit * Fs.tree) :=
  match r with inl e => inl e | inr σ => inr (tt, σ) end.

Definition reads {X} (σ : Fs.tree) (r : Fs.errno + X) : Fs.errno + (X * Fs.tree) :=
  match r with inl e => inl e | inr x => inr (x, σ) end.

Definition exec {X} (o : op X) (st : state) : (error + X) * state :=
  let '(p, w) := st in
  match o in op X return (error + X) * state with
  | PathExists f => (inr (Fs.pathExists (fs w) f), (p, w))
  | ReadFile f =>
      let '(r, w') := io w (λ σ, reads σ (Fs.readFile σ f)) in (r, (p, w'))
  | WriteFile f d =>
      let '(r, w') := io w (λ σ, writes (Fs.writeFile σ f d)) in (r, (p, w'))
  | Remove f =>
      let '(r, w') := io w (λ σ, inr (tt, Fs.remove σ f)) in (r, (p, w'))
  | Copy a b =>
      let '(r, w') := io w (λ σ, writes (Fs.copy σ a b)) in (r, (p, w'))
  | Move a b =>
      let '(r, w1) := io w (λ σ, writes (Fs.move_clear σ a b)) in
      match r with
      | inl e => (inl e, (p, w1))
      | inr _ =>
          let '(r', w2) := io w1 (λ σ, writes (Fs.rename σ a b)) in
          (r', (p, w2))
      end
  | EnsureDir f =>
      let '(r, w') := io w (λ σ, writes (Fs.ensureDir σ f)) in (r, (p, w'))
  | Readdir f =>
      let '(r, w') := io w (λ σ, reads σ (Fs.readdir σ f)) in (r, (p, w'))
  | DateNow => (inr (clock w), (p, w))
  | Uuidv4 =>
      (inr (uuid_of (uuid_next w)), (p, set_uuid_next (S (uuid_next w)) w))
  | LocksGet f => (inr (locks p !! f), (p, w))
  | LocksSet f li => (inr tt, (set_locks (<[f := li]> (locks p)) p, w))
  | LocksDelete f => (inr tt, (set_locks (delete f (locks p)) p, w))
  | SetTimeout f id d =>
      (inr tt,
       (set_timers (timers p ++ [Timer (clock w) (clamp_delay d) f id]) p, w))
  | EnvWorkerId => (inr (env_worker_id p), (p, w))
  | Cwd => (inr (cwd p), (p, w))
  | Pid => (inr (pid p), (p, w))
  end.

Inductive prog (A : Type) : Type :=
| Ret (a : A)
| Throw (e : error)
| Vis {X : Type} (o : op X) (k : error + X → prog A).

Arguments Ret {A} a.
Arguments Throw {A} e.
Arguments Vis {A X} o k.

(** Continue with the outcome of [m], thrown or returned. *)
Fixpoint on_outcome {A B} (m : prog A) (k : error + A → prog B) : prog B :=
  match m with
  | Ret a => k (inr a)
  | Throw e => k (inl e)
  | Vis o h => Vis o (λ r, on_outcome (h r) k)
  end.

Definition of_outcome {A} (r : error + A) : prog A :=
  match r with inl e => Throw e | inr a => Ret a end.

Definition bind {A B} (m : prog A) (k : A → prog B) : prog B :=
  on_outcome m (λ r, match r with inl e => Throw e | inr a => k a end).

(** [try { m } catch (e) { h e }] *)
Definition try_catch {A} (m : prog A) (h : error → prog A) : prog A :=
  on_outcome m (λ r, match r with inl e => h e | inr a => Ret a end).

(** [try { m } finally { f }] *)
Definition try_finally {A} (m : prog A) (f : prog unit) : prog A :=
  on_outcome m (λ r, bind f (λ _, of_outcome r)).

(** [await o] *)
Definition call {X} (o : op X) : prog X := Vis o of_outcome.

(** [for (const x of l) { body x }] *)
Fixpoint for_each {A} (l : list A) (body : A → prog unit) : prog unit :=
  match l with
  | [] => Ret tt
  | x :: l' => bind (body x) (λ _, for_each l' body)
  end.

Fixpoint run {A} (m : prog A) (st : state) : (error + A) * state :=
  match m with
  | Ret a => (inr a, st)
  | Throw e => (inl e, st)
  | Vis o k => let '(r, st') := exec o st in run (k r) st'
  end.

Definition step {A} (m : prog A) (st : state) : prog A * state :=
  match m with
  | Vis o k => let '(r, st') := exec o st in (k r, st')
  | _ => (m, st)
  end.

(** What a program that has finished has produced. *)
Definition finished {A} (m : prog A) : option (error + A) :=
  match m with
  | Ret a => Some (inr a)
  | Throw e => Some (inl e)
  | Vis _ _ => None
  end.

(** The file-system calls a program makes, in order. *)
Inductive fs_call :=
| CPathExists (p : string)
| CReadFile (p : string)
| CWriteFile (p data : string)
| CRemove (p : string)
| CCopy (src dst : string)
| CMove (src dst : string)
| CEnsureDir (p : string)
| CReaddir (p : string).

Definition fs_call_of {X} (o : op X) : list fs_call :=
  match o with
  | PathExists p => [CPathExists p]
  | ReadFile p => [CReadFile p]
  | WriteFile p d => [CWriteFile p d]
  | Remove p => [CRemove p]
  | Copy a b => [CCopy a b]
  | Move a b => [CMove a b]
  | EnsureDir p => [CEnsureDir p]
  | Readdir p => [CReaddir p]
  | _ => []
  end.

(** The file-system calls a program makes, in order, each with whether
    it fulfilled ([true]) or rejected ([false]). *)
Fixpoint fs_log {A} (m : prog A) (st : state) : list (fs_call * bool) :=
  match m with
  | Vis o k =>
      let '(r, st') := exec o st in
      ((λ c, (c, match r with inl _ => false | inr _ => true end))
         <$> fs_call_of o)
      ++ fs_log (k r) st'
  | _ => []
  end.

Definition fs_calls {A} (m : prog A) (st : state) : list fs_call :=
  (fs_log m st).*1.

Global Instance prog_ret : MRet prog := @Ret.
Global Instance prog_bind : MBind prog := λ A B k m, bind m k.

End Js.

(** ** The class [FileOperations] *)

Module FileOperations.

Import Json Js.

(** The argument [data] of [atomicWrite]: a value [JSON.stringify]
    renders (a string among them), [undefined], or a value on which
    [JSON.stringify] throws (a [BigInt], a cyclic object). *)
Inductive jsval :=
| VJson (v : json)
| VUndefined
| VUnserializable.

Definition maxLockTime : Z := 30000.

(** [JSON.parse(s)] *)
Definition JSON_parse (s : string) : prog json :=
  match Json.parse s with
  | Some v => Ret v
  | None => Throw SyntaxError
  end.

(** [v.k] *)
Definition prop (v : json) (k : string) : prog (option json) :=
  match Json.get v k with
  | Some x => Ret x
  | None => Throw TypeError
  end.

(** [now - ts > timeout] *)
Definition age_exceeds (now : Z) (ts : option json) (timeout : Z) : bool :=
  match Json.to_number ts with
  | Some n => Json.Z_gt_num (now - timeout) n
  | None => false
  end.

(** [getCurrentWorkerId()]; [None] is [undefined], which
    [config.worker_id] can be. *)
Definition getCurrentWorkerId : prog (option json) :=
  env ← call EnvWorkerId;
  match env with
  | Some (String c s) => Ret (Some (JStr (String c s)))
  | _ =>
      from_config ←
        try_catch
          (dir ← call Cwd;
           let configPath :=
             Paths.join (Paths.join (Paths.join dir ".aimanager") "config")
                        "worker.json" in
           present ← call (PathExists configPath);
           if present : bool then
             content ← call (ReadFile configPath);
             config ← JSON_parse content;
             worker_id ← prop config "worker_id";
             Ret (Some worker_id)
           else Ret None)
          (λ _, Ret None);
      match from_config with
      | Some worker_id => Ret worker_id
      | None => Ret (Some (JStr "unknown"))
      end
  end.

(** [readLockFile(lockFile)] *)
Definition readLockFile (lockFile : string) : prog json :=
  try_catch
    (content ← call (ReadFile lockFile);
     JSON_parse content)
    (λ _, Ret (JObj [("timestamp", JInt 0); ("workerId", JStr "unknown")])).

(** The object literal [{ lockId, workerId, timestamp, pid }]; an
    [undefined] member is left out by [JSON.stringify]. *)
Definition lock_record (lockId : string) (workerId : option json) (now pid : Z)
  : json :=
  JObj ([("lockId", JStr lockId)]
        ++ match workerId with Some w => [("workerId", w)] | None => [] end
        ++ [("timestamp", JInt now); ("pid", JInt pid)]).

(** [releaseLock(filePath, lockId)] *)
Definition releaseLock (filePath lockId : string) : prog unit :=
  let lockFile := filePath +:+ ".lock" in
  lockInfo ← call (LocksGet filePath);
  match lockInfo with
  | Some info =>
      if String.eqb (li_lockId info) lockId
      then try_catch
             (call (Remove lockFile);;
              call (LocksDelete filePath))
             (λ _, Ret tt)
      else Ret tt
  | None => Ret tt
  end.

(** [acquireLock(filePath, timeout)], in two parts: the test of an
    existing lock file (the [if] at its head) and the grant (the rest). *)
Definition check_lock (lockFile : string) (timeout : Z) : prog unit :=
  locked ← call (PathExists lockFile);
  if locked : bool then
    lockData ← readLockFile lockFile;
    now ← call DateNow;
    timestamp ← prop lockData "timestamp";
    if age_exceeds now timestamp timeout
    then call (Remove lockFile)
    else (workerId ← prop lockData "workerId";
          Throw (Locked workerId))
  else Ret tt.

Definition grant_lock (filePath lockFile lockId : string) (timeout : Z)
  : prog string :=
  workerId ← getCurrentWorkerId;
  now ← call DateNow;
  pid ← call Pid;
  let lockData := lock_record lockId workerId now pid in
  call (WriteFile lockFile (Json.stringify lockData));;
  call (LocksSet filePath (LockInfo lockId lockFile));;
  call (SetTimeout filePath lockId timeout);;
  Ret lockId.

Definition acquireLock (filePath : string) (timeout : Z) : prog string :=
  let lockFile := filePath +:+ ".lock" in
  lockId ← call Uuidv4;
  check_lock lockFile timeout;;
  grant_lock filePath lockFile lockId timeout.

Definition backupDir_of (filePath : string) : string :=
  Paths.join (Paths.dirname filePath) ".backups".

Definition backup_prefix (filePath : string) : string :=
  Paths.basename filePath +:+ ".backup.".

(** The comparator [(a, b) => timestampB - timestampA]. *)
Definition newest_first (a b : string) : Z :=
  let timestampA := Builtin.parseInt_opt (Str.split ".backup." a !! 1%nat) in
  let timestampB := Builtin.parseInt_opt (Str.split ".backup." b !! 1%nat) in
  match timestampA, timestampB with
  | Some x, Some y => y - x
  | _, _ => 0
  end.

(** [files.filter(startsWith ...).sort(newest first)] *)
Definition backupFiles_of (filePath : string) (files : list string) : list string :=
  Builtin.sort newest_first
    (List.filter (λ file, Str.startsWith file (backup_prefix filePath)) files).

(** [cleanOldBackups(filePath)] *)
Definition cleanOldBackups (filePath : string) : prog unit :=
  let backupDir := backupDir_of filePath in
  present ← call (PathExists backupDir);
  if negb present then Ret tt
  else
    try_catch
      (files ← call (Readdir backupDir);
       let backupFiles := backupFiles_of filePath files in
       let filesToDelete := Builtin.slice_from 10 backupFiles in
       for_each filesToDelete
         (λ file, call (Remove (Paths.join backupDir file))))
      (λ _, Ret tt).

(** [createBackup(filePath)] *)
Definition createBackup (filePath : string) : prog unit :=
  present ← call (PathExists filePath);
  if negb present then Ret tt
  else
    timestamp ← call DateNow;
    let backupDir := backupDir_of filePath in
    let backupFile :=
      Paths.join backupDir (backup_prefix filePath +:+ Str.of_Z timestamp) in
    try_catch
      (call (EnsureDir backupDir);;
       call (Copy filePath backupFile);;
       cleanOldBackups filePath)
      (λ _, Ret tt).

Definition tempFile_of (filePath : string) (now : Z) (uuid : string) : string :=
  filePath +:+ ".tmp." +:+ Str.of_Z now +:+ "." +:+ uuid.

(** [atomicWrite(filePath, data, lockId)]: the body of its [try] block,
    its [catch] block, and the method. [dataString] is [None] when
    [JSON.stringify] returned [undefined]; [writeFile] then throws a
    [TypeError]. *)
Definition commit (filePath tempFile : string) (dataString : option string)
  : prog unit :=
  createBackup filePath;;
  match dataString with
  | Some s => call (WriteFile tempFile s)
  | None => Throw TypeError
  end;;
  (if Str.endsWith filePath ".json"
   then testContent ← call (ReadFile tempFile);
        JSON_parse testContent;;
        Ret tt
   else Ret tt);;
  call (Move tempFile filePath).

Definition cleanup (tempFile : string) (error : error) : prog unit :=
  try_catch (call (Remove tempFile)) (λ _, Ret tt);;
  Throw (AtomicWriteFailed error).

Definition atomicWrite (filePath : string) (data : jsval) (lockId : string)
  : prog unit :=
  lockInfo ← call (LocksGet filePath);
  match lockInfo with
  | Some info => if String.eqb (li_lockId info) lockId then Ret tt else Throw NoLock
  | None => Throw NoLock
  end;;
  now ← call DateNow;
  uuid ← call Uuidv4;
  let tempFile := tempFile_of filePath now uuid in
  dataString ←
    match data with
    | VJson (JStr s) => Ret (Some s)
    | VJson v => Ret (Some (Json.stringify v))
    | VUndefined => Ret None
    | VUnserializable => Throw TypeError
    end;
  try_finally
    (try_catch (commit filePath tempFile dataString) (cleanup tempFile))
    (releaseLock filePath lockId).

(** [attemptJSONRecovery(content)], one definition per replacement. *)

(** First replacement: a comma followed by optional white space and a
    closing brace or bracket is dropped (pattern: comma, then the group
    [\s*[}\]]], global; replacement: the group). *)
Definition closes (s : string) : bool :=
  match Str.skip_space s with
  | String "}" _ | String "]" _ => true
  | _ => false
  end.

Fixpoint strip_trailing_commas (s : string) : string :=
  match s with
  | String c r =>
      if Ascii.eqb c "," && closes r then strip_trailing_commas r
      else String c (strip_trailing_commas r)
  | EmptyString => EmptyString
  end.

(** Second replacement: a run of word characters directly followed by a
    colon is put between double quotes (pattern [(\w+):], global).
    [word] is the run of word characters read so far. *)
Fixpoint quote_keys (word : string) (s : string) : string :=
  match s with
  | String c r =>
      if Str.is_word c then quote_keys (word +:+ String c EmptyString) r
      else if Ascii.eqb c ":" && negb (String.eqb word EmptyString)
      then String Str.dq word +:+ String Str.dq ":" +:+ quote_keys EmptyString r
      else word +:+ String c (quote_keys EmptyString r)
  | EmptyString => word
  end.

(** Third replacement: every single quote becomes a double quote. *)
Definition double_quotes (s : string) : string :=
  Str.map_char (λ c, if Ascii.eqb c "'" then Str.dq else c) s.

(** Fourth replacement: a run of commas becomes one comma. *)
Fixpoint collapse_commas (s : string) : string :=
  match s with
  | String c r =>
      if Ascii.eqb c ","
      then match r with
           | String "," _ => collapse_commas r
           | _ => String c (collapse_commas r)
           end
      else String c (collapse_commas r)
  | EmptyString => EmptyString
  end.

(** Fifth replacement, not global: the first line feed after which only
    white space follows is removed together with that white space. *)
Fixpoint strip_final_newline (s : string) : string :=
  match s with
  | String c r =>
      if Ascii.eqb c (ascii_of_nat 10) && Str.all_space r then EmptyString
      else String c (strip_final_newline r)
  | EmptyString => EmptyString
  end.

Definition balance (fixed : string) : string :=
  let openBraces := Str.count_char "{" fixed in
  let closeBraces := Str.count_char "}" fixed in
  let openBrackets := Str.count_char "[" fixed in
  let closeBrackets := Str.count_char "]" fixed in
  fixed +:+ Str.repeat_char "}" (openBraces - closeBraces)
        +:+ Str.repeat_char "]" (openBrackets - closeBrackets).

Definition repair (content : string) : string :=
  balance
    (strip_final_newline
       (collapse_commas
          (double_quotes
             (quote_keys EmptyString
                (strip_trailing_commas content))))).

(** The result is [null] when the repaired text does not parse. *)
Definition attemptJSONRecovery (content : string) : json :=
  match Json.parse (repair content) with
  | Some v => v
  | None => JNull
  end.

(** [restoreFromBackup(filePath)]; the result is [null] when nothing was
    restored. *)
Definition restoreFromBackup (filePath : string) : prog json :=
  let backupDir := backupDir_of filePath in
  present ← call (PathExists backupDir);
  if negb present then Ret JNull
  else
    try_catch
      (files ← call (Readdir backupDir);
       let backupFiles := backupFiles_of filePath files in
       match backupFiles with
       | [] => Ret JNull
       | newest :: _ =>
           let latestBackup := Paths.join backupDir newest in
           content ← call (ReadFile latestBackup);
           lockId ← acquireLock filePath maxLockTime;
           call (WriteFile filePath content);;
           releaseLock filePath lockId;;
           JSON_parse content
       end)
      (λ _, Ret JNull).

(** [getDefaultStructure(filePath)] *)
Definition getDefaultStructure (filePath : string) : prog json :=
  let fileName := Paths.basename filePath in
  if Str.startsWith fileName "worker-" then
    now ← call DateNow;
    Ret (JObj
      [("worker_id",
        JStr (Str.replace_first ".json" EmptyString
                (Str.replace_first "worker-" EmptyString fileName)));
       ("last_update", JStr (Builtin.toISOString now));
       ("status", JStr "ready");
       ("current_focus", JStr EmptyString);
       ("today", JObj [("completed", JArr []); ("in_progress", JArr []);
                       ("planned", JArr [])]);
       ("blockers", JArr []);
       ("metrics", JObj []);
       ("priorities", JObj [("high", JArr []); ("medium", JArr []);
                            ("low", JArr [])]);
       ("comments", JStr EmptyString);
       ("next_24h", JArr [])])
  else if String.eqb fileName "tasks.json" then
    now ← call DateNow;
    Ret (JObj [("tasks", JArr []);
               ("last_updated", JStr (Builtin.toISOString now))])
  else Ret (JObj []).

(** [safeJSONRead(filePath)] *)
Definition safeJSONRead (filePath : string) : prog json :=
  try_catch
    (content ← call (ReadFile filePath);
     JSON_parse content)
    (λ _,
       returned ←
         try_catch
           (content ← call (ReadFile filePath);
            let recovered := attemptJSONRecovery content in
            if truthy recovered then
              lockId ← acquireLock filePath maxLockTime;
              atomicWrite filePath (VJson recovered) lockId;;
              Ret (Some recovered)
            else Ret None)
           (λ _, Ret None);
       match returned with
       | Some recovered => Ret recovered
       | None =>
           backupData ← restoreFromBackup filePath;
           if truthy backupData then Ret backupData
           else getDefaultStructure filePath
       end).

(** [path.join(process.cwd(), '.aimanager', 'data',
    `worker-${workerId}.json`)] *)
Definition workerFile_of (dir workerId : string) : string :=
  Paths.join (Paths.join (Paths.join dir ".aimanager") "data")
             ("worker-" +:+ workerId +:+ ".json").

(** The object literal
    [{ ...currentData, ...updates, worker_id: workerId, last_update }]. *)
Definition merged_status (currentData updates : json) (workerId : string)
    (now : Z) : json :=
  JObj (obj_set "last_update" (JStr (Builtin.toISOString now))
          (obj_set "worker_id" (JStr workerId)
             (assign (assign [] (spread currentData)) (spread updates)))).

(** [updateWorkerStatus(workerId, updates)] *)
Definition updateWorkerStatus (workerId : string) (updates : json) : prog json :=
  dir ← call Cwd;
  let workerFile := workerFile_of dir workerId in
  call (EnsureDir (Paths.dirname workerFile));;
  lockId ← acquireLock workerFile maxLockTime;
  try_catch
    (present ← call (PathExists workerFile);
     currentData ← (if present : bool then safeJSONRead workerFile
                    else getDefaultStructure workerFile);
     now ← call DateNow;
     let updatedData := merged_status currentData updates workerId now in
     atomicWrite workerFile (VJson updatedData) lockId;;
     Ret updatedData)
    (λ error,
       releaseLock workerFile lockId;;
       Throw error).

(** [readWorkerStatus(workerId)] *)
Definition readWorkerStatus (workerId : string) : prog json :=
  dir ← call Cwd;
  let workerFile := workerFile_of dir workerId in
  present ← call (PathExists workerFile);
  if negb present then getDefaultStructure workerFile
  else safeJSONRead workerFile.

(** *** The event loop of a process

    A timer is due once the clock has reached the time it was set at
    plus its delay; a due callback runs when the process is between two
    calls. *)

Definition due (now : Z) (t : timer) : bool :=
  bool_decide (t_set_at t + t_delay t ≤ now).

Definition run_callbacks (l : list timer) (st : state) : state :=
  foldl (λ st t, snd (run (releaseLock (t_path t) (t_lockId t)) st)) st l.

Definition fire_timers (st : state) : state :=
  let '(p, w) := st in
  let now := clock w in
  run_callbacks (List.filter (due now) (timers p))
    (set_timers (List.filter (λ t, negb (due now t)) (timers p)) p, w).

(** Time passes. *)
Definition advance (dt : Z) (w : World) : World := set_clock (clock w + dt) w.

End FileOperations.

(** ** The task commands

    [writeTasksFile] of the task commands (the caller of the store for
    the task list); [tasksFile] is the field [this.tasksFile]. *)

Module TaskCommands.
Import Json Js FileOperations.

(** The object literal [{ ...data, last_updated }]. *)
Definition stamped (data : json) (now : Z) : json :=
  JObj (obj_set "last_updated" (JStr (Builtin.toISOString now))
          (assign [] (spread data))).

(** [writeTasksFile(data)] *)
Definition writeTasksFile (tasksFile : string) (data : json) : prog unit :=
  lockId ← acquireLock tasksFile maxLockTime;
  try_catch
    (now ← call DateNow;
     let updatedData := stamped data now in
     atomicWrite tasksFile (VJson updatedData) lockId)
    (λ error,
       releaseLock tasksFile lockId;;
       Throw error).

End TaskCommands.


(** * Vocabulary of the statements *)

Section vocabulary.
Import Json Js FileOperations.

(** The identity [getCurrentWorkerId] reports for a process. *)
Definition workerId_of (p : Proc) (w : World) : option json :=
  match fst (run getCurrentWorkerId (p, w)) with
  | inr me => me
  | inl _ => None
  end.

(** An integer the numbers of the engine hold exactly
    ([Number.isSafeInteger]). The code subtracts and compares numbers;
    on such integers, when the difference is one too, both are exact. *)
Definition safe_integer (z : Z) : Prop := - 2 ^ 53 < z < 2 ^ 53.

(** The record [readLockFile] falls back to. *)
Definition unknown_lock : json :=
  JObj [("timestamp", JInt 0); ("workerId", JStr "unknown")].

(** The ways a lock file that exists can fail to be read: the read
    is rejected, the path is a directory, or the text is not JSON. *)
Definition unreadable (σ : Fs.tree) (lockFile : string) (fl : list bool) : Prop :=
  (fl = [true] ∧ is_Some (σ !! lockFile))
  ∨ (fl = [] ∧ σ !! lockFile = Some Fs.Dir)
  ∨ (fl = [] ∧ ∃ c, σ !! lockFile = Some (Fs.File c) ∧ parse c = None).

(** A program none of whose primitives is in the class [bad]. *)
Inductive avoids (bad : ∀ X, op X → bool) {A} : prog A → Prop :=
| avoids_ret (a : A) : avoids bad (Ret a)
| avoids_throw (e : error) : avoids bad (Throw e)
| avoids_vis {X} (o : op X) (k : error + X → prog A) :
    bad X o = false → (∀ r, avoids bad (k r)) → avoids bad (Vis o k).

(** The primitive is [setTimeout]. *)
Definition sets_timer (X : Type) (o : op X) : bool :=
  match o with
  | SetTimeout _ _ _ => true
  | _ => false
  end.

(** The primitive changes the state of the process (its [locks] map or
    its timers). *)
Definition changes_proc (X : Type) (o : op X) : bool :=
  match o with
  | SetTimeout _ _ _ | LocksSet _ _ | LocksDelete _ => true
  | _ => false
  end.

(** The primitive is [uuidv4]. *)
Definition draws_uuid (X : Type) (o : op X) : bool :=
  match o with
  | Uuidv4 => true
  | _ => false
  end.

(** The primitive can change an entry of the tree other than [path]
    and what lies below it. *)
Definition writes_beside (path : string) (X : Type) (o : op X) : bool :=
  match o with
  | WriteFile f _ | Remove f => negb (String.eqb f path)
  | Copy _ _ | Move _ _ | EnsureDir _ => true
  | _ => false
  end.

(** The entries of the tree a primitive can change. *)
Definition op_writes {X} (o : op X) (σ : Fs.tree) (k : string) : Prop :=
  match o with
  | WriteFile f _ => k = f
  | Remove f => Paths.under f k = true
  | Copy _ dst => k = dst
  | Move src dst => k = src ∨ Paths.under dst k = true
  | EnsureDir f => k = f ∧ σ !! f = None
  | _ => False
  end.

(** The text a temp file name adds to the document path. *)
Definition temp_suffix (t : Z) (n : nat) : string :=
  ".tmp." +:+ Str.of_Z t +:+ "." +:+ uuid_of n.

(** The process has the lock of the path under this identifier. *)
Definition holds_lock (p : Proc) (filePath lockId : string) : bool :=
  match locks p !! filePath with
  | Some info => String.eqb (li_lockId info) lockId
  | None => false
  end.

(** The text [atomicWrite] writes for [data]: [None] when
    [JSON.stringify] throws, [Some None] when it returns [undefined]. *)
Definition dataString_of (data : jsval) : option (option string) :=
  match data with
  | VJson (JStr s) => Some (Some s)
  | VJson v => Some (Some (Json.stringify v))
  | VUndefined => Some None
  | VUnserializable => None
  end.

(** The [try] statement of [atomicWrite]. *)
Definition guarded_write (filePath tempFile : string)
    (dataString : option string) (lockId : string) : prog unit :=
  try_finally
    (try_catch (commit filePath tempFile dataString) (cleanup tempFile))
    (releaseLock filePath lockId).

(** The program always returns: it never raises, whatever the state. *)
Definition never_raises {A} (m : prog A) : Prop :=
  ∀ st, ∃ a st', run m st = (inr a, st').

(** A path none of whose characters is a slash. *)
Fixpoint no_slash (s : string) : bool :=
  match s with
  | String c r => negb (Ascii.eqb c "/") && no_slash r
  | EmptyString => true
  end.

End vocabulary.

(** ** A running example: two workers and the task list *)

Module Example.
Import Json Js FileOperations.

Definition doc : string := "data/tasks.json".

Definition alex : Proc := mkProc ∅ [] (Some "alex") "/home/alex" 4001.
Definition zephyr : Proc := mkProc ∅ [] (Some "zephyr") "/home/zephyr" 4002.

(** The lock sidecar alex's process wrote at time 0. *)
Definition alex_lock : string :=
  stringify (lock_record (uuid_of 0) (Some (JStr "alex")) 0 4001).

Definition locked_tree : Fs.tree :=
  {[ "data" := Fs.Dir;
     doc := Fs.File "[]";
     doc +:+ ".lock" := Fs.File alex_lock ]}.
End Example.

Module Torn.
Import Json Js FileOperations Example.

(** A lock sidecar cut short by a crash of its writer. *)
Definition torn_tree : Fs.tree :=
  {[ "data" := Fs.Dir;
     doc := Fs.File "[]";
     doc +:+ ".lock" := Fs.File "{ lockId: " ]}.

End Torn.

Module Reclaim.
Import Json Js FileOperations Example.

(** alex takes the lock at time 0 with the default timeout; at time
    2000 zephyr, in another process, asks for it with a timeout of one
    second, finds alex's lock stale and is granted a new one. *)

Definition free_tree : Fs.tree :=
  {[ "data" := Fs.Dir; doc := Fs.File "[]" ]}.

Definition first := run (acquireLock doc maxLockTime) (alex, mkWorld free_tree 0 0 []).
Definition alex1 : Proc := fst (snd first).

Definition second := run (acquireLock doc 1000) (zephyr, advance 2000 (snd (snd first))).
Definition zephyr1 : Proc := fst (snd second).
Definition reclaimed : World := snd (snd second).

(** The [lockId] member of the lock file of [doc]. *)
Definition stored_lockId (w : World) : option json :=
  match fs w !! (doc +:+ ".lock") with
  | Some (Fs.File c) => v ← parse c; mjoin (get v "lockId")
  | _ => None
  end.

(** alex's process then releases with the identifier it was given. *)
Definition late_release := run (releaseLock doc (uuid_of 0)) (alex1, reclaimed).
End Reclaim.

Module HeldLock.
Import Json Js FileOperations Example.

(** alex holds the lock of [doc] (granted at time 0) and writes at
    time 5. *)
Definition holder : Proc := Reclaim.alex1.
Definition world : World := advance 5 (snd (snd Reclaim.first)).

(** A value [JSON.stringify] throws on. *)
Definition write_cyclic :=
  run (atomicWrite doc VUnserializable (uuid_of 0)) (holder, world).

(** A string that is not JSON: the validation of the temp file fails. *)
Definition write_invalid :=
  run (atomicWrite doc (VJson (JStr "{ tasks: ")) (uuid_of 0)) (holder, world).

Definition held (st : state) : Prop :=
  is_Some (fs (snd st) !! (doc +:+ ".lock"))
  ∧ li_lockId <$> locks (fst st) !! doc = Some (uuid_of 0).

Definition released (st : state) : Prop :=
  fs (snd st) !! (doc +:+ ".lock") = None ∧ locks (fst st) !! doc = None.
End HeldLock.


Module TornWrite.
Import Json Js FileOperations Example.

(** alex, holding the lock of [doc], writes text that is not JSON in a
    world where the sixth primitive that can reject does: the five
    before it are the three of the backup, the write of the temp file
    and its read; the sixth is the removal of the temp file. *)
Definition schedule : list bool := [false; false; false; false; false; true].

Definition temp : string := tempFile_of doc 5 (uuid_of 1).

Definition write :=
  run (atomicWrite doc (VJson (JStr "{ tasks: ")) (uuid_of 0))
      (HeldLock.holder, set_faults schedule HeldLock.world).
End TornWrite.

Module GoodWrite.
Import Json Js FileOperations Example.

(** alex, holding the lock of [doc], writes a new task list. *)
Definition tasks : json :=
  JObj [("tasks", JArr [JObj [("id", JInt 1); ("title", JStr "ship")]])].

Definition temp : string := tempFile_of doc 5 (uuid_of 1).

Definition write :=
  run (atomicWrite doc (VJson tasks) (uuid_of 0)) (HeldLock.holder, HeldLock.world).
End GoodWrite.

Module LostWrite.
Import Json Js FileOperations Example.

(** alex, holding the lock of [doc], writes a new task list in a world
    where the seventh primitive that can reject does: the six before it
    are the three of the backup, the write of the temp file, its read,
    and the first step of the move, which removes the document; the
    seventh is the rename of the temp file. *)
Definition schedule : list bool :=
  [false; false; false; false; false; false; true].

Definition write :=
  run (atomicWrite doc (VJson GoodWrite.tasks) (uuid_of 0))
      (HeldLock.holder, set_faults schedule HeldLock.world).
End LostWrite.

Module Corrupt.
Import Json Js FileOperations Example.

(** The task list with a trailing comma, which the repair removes, next
    to the lock alex took at time 0. *)
Definition tree : Fs.tree :=
  {[ "data" := Fs.Dir;
     doc := Fs.File "[1, 2,]";
     doc +:+ ".lock" := Fs.File alex_lock ]}.

(** The same document with no lock, and two backups of it. *)
Definition backed_up : Fs.tree :=
  {[ "data" := Fs.Dir;
     doc := Fs.File "[1, 2,]";
     "data/.backups" := Fs.Dir;
     "data/.backups/tasks.json.backup.3" := Fs.File "[3]";
     "data/.backups/tasks.json.backup.7" := Fs.File "[7]" ]}.

(** A third backup, later than both and before them in the order of
    the names. *)
Definition three_backups : Fs.tree :=
  <["data/.backups/tasks.json.backup.11" := Fs.File "[11]"]> backed_up.
End Corrupt.

Module Undo.
Import Json Js FileOperations Example.

(** The task list [[5]] next to backups made at times 3, 7 and 11. *)
Definition tree : Fs.tree := <[doc := Fs.File "[5]"]> Corrupt.three_backups.
End Undo.

Module TrailingComma.
Import Json Js FileOperations Example.

(** The bytes [{"a":1,}]: an object with a comma before its closing
    brace. *)
Definition bytes : string :=
  "{" +:+ String Str.dq "a" +:+ String Str.dq ":1,}".



(** The document with these bytes and no lock file, and the same
    document next to the lock alex took at time 0. *)
Definition free_tree : Fs.tree :=
  {[ "data" := Fs.Dir; doc := Fs.File bytes ]}.

Definition locked_tree : Fs.tree :=
  <[doc +:+ ".lock" := Fs.File alex_lock]> free_tree.

End TrailingComma.

Module Irreparable.
Import Json Js FileOperations Example.

(** A task list cut short, which the repair does not mend, next to
    backups made at times 3, 7 and 11. *)
Definition tree : Fs.tree :=
  <[doc := Fs.File "{ tasks: "]> Corrupt.three_backups.


End Irreparable.

(** ** Vocabulary of the JSON round trip *)

Section json_vocabulary.
Import Json.

Fixpoint all_digits (s : string) : bool :=
  match s with
  | String c r => Str.is_digit c && all_digits r
  | EmptyString => true
  end.

(** What may follow a number literal without being read as part of it. *)
Definition delimited (rest : string) : bool :=
  match rest with
  | String c _ =>
      negb (Str.is_digit c) && negb (Ascii.eqb c ".")
      && negb (Ascii.eqb c "e") && negb (Ascii.eqb c "E")
  | EmptyString => true
  end.

(** The numbers [normalize] produces. *)
Definition canonical (n : num) : bool :=
  bool_decide (expo n = 0 ∨ (expo n < 0 ∧ mant n `mod` 10 ≠ 0)).

(** The values [JSON.parse] produces: numbers are canonical and the keys
    of an object are pairwise distinct. *)
Fixpoint well_formed (v : json) : bool :=
  match v with
  | JNum n => canonical n
  | JArr l => forallb well_formed l
  | JObj l =>
      forallb (λ kv, well_formed (snd kv)) l && bool_decide (NoDup (map fst l))
  | _ => true
  end.

(** Recursion depth [parse_value] needs for the text of a value. *)
Fixpoint size (v : json) : nat :=
  match v with
  | JArr l => S (list_sum (map (λ x, S (size x)) l))
  | JObj l => S (list_sum (map (λ kv, S (size (snd kv))) l))
  | _ => 1
  end.

End json_vocabulary.

(** ** Vocabulary of the backup rotation *)

(** The timestamp the comparator of the rotation reads in a backup
    name: the integer at the head of what follows the first
    [.backup.]. *)
Definition timestamp_of (name : string) : option Z :=
  Builtin.parseInt_opt (Str.split ".backup." name !! 1%nat).

Module Rotation.
Import Json Js FileOperations Example.

(** The task list with eleven backups, made at times 1 to 11. *)
Definition backup (ts : Z) : string :=
  "data/.backups/tasks.json.backup." +:+ Str.of_Z ts.

Definition tree : Fs.tree :=
  foldr (λ ts σ, <[backup ts := Fs.File "[]"]> σ)
        {[ "data" := Fs.Dir; doc := Fs.File "[]"; "data/.backups" := Fs.Dir ]}
        [1; 2; 3; 4; 5; 6; 7; 8; 9; 10; 11].
End Rotation.

Module Status.
Import Json Js FileOperations Example.

(** alex reports being busy; the status file of alex, cut short by a
    crash. *)
Definition file : string := workerFile_of "/home/alex" "alex".

Definition busy : json := JObj [("status", JStr "busy")].

Definition torn : Fs.tree := {[ file := Fs.File "{ status: " ]}.
End Status.

(** ** Two calls of [acquireLock] in step

    Every primitive of [acquireLock] is behind an [await], so another
    process can run between its test of the lock file ([check_lock]) and
    its grant ([grant_lock]). [racing_acquires] is the schedule in which
    two processes both test before either grants: the results of the
    two calls, the two processes and the world afterwards. *)
Section racing.
Import Json Js FileOperations.

Definition tested (lockFile : string) (timeout : Z) : prog string :=
  lockId ← call Uuidv4;
  check_lock lockFile timeout;;
  Ret lockId.

Definition racing_acquires (filePath : string) (timeout : Z)
    (p q : Proc) (w : World)
  : (error + string) * (error + string) * (Proc * Proc * World) :=
  let lockFile := filePath +:+ ".lock" in
  let '(a, (p1, w1)) := run (tested lockFile timeout) (p, w) in
  let '(b, (q1, w2)) := run (tested lockFile timeout) (q, w1) in
  match a, b with
  | inr idp, inr idq =>
      let '(a', (p2, w3)) := run (grant_lock filePath lockFile idp timeout) (p1, w2) in
      let '(b', (q2, w4)) := run (grant_lock filePath lockFile idq timeout) (q1, w3) in
      (a', b', (p2, q2, w4))
  | _, _ => (a, b, (p1, q1, w2))
  end.

End racing.

(** ** The entries that belong to a document

    The document and what lies below it, its lock file, its temp files
    and the backup directory next to it. *)
Section region.
Import Json Js FileOperations.

Definition region (filePath k : string) : bool :=
  Paths.under filePath k
  || Paths.under (filePath +:+ ".lock") k
  || String.prefix (filePath +:+ ".tmp.") k
  || Paths.under (backupDir_of filePath) k.

(** The primitive can change an entry outside the region of the
    document. *)
Definition writes_outside (filePath : string) (X : Type) (o : op X) : bool :=
  match o with
  | WriteFile g _ | Remove g | EnsureDir g => negb (region filePath g)
  | Copy _ dst => negb (region filePath dst)
  | Move src dst => negb (region filePath src && region filePath dst)
  | _ => false
  end.

End region.

Module Race.
Import Json Js FileOperations Example.

(** alex and zephyr ask for the lock of [doc] at time 0 and both test
    the lock file before either writes it. *)
Definition raced :=
  racing_acquires doc maxLockTime alex zephyr (mkWorld Reclaim.free_tree 0 0 []).
End Race.
(** * Properties *)

(** ** Running programs *)

Section run_lemmas.
Import Js.
Context {A B : Type}.

Lemma run_on_outcome (m : prog A) (k : error + A → prog B) st :
  run (on_outcome m k) st = let '(r, st') := run m st in run (k r) st'.
Proof.
  revert st. induction m as [a|e|X o h IH]; intros st; simpl; try done.
  destruct (exec o st) as [r st']. apply IH.
Qed.

Lemma run_bind_fn (m : prog A) (k : A → prog B) st :
  run (bind m k) st =
  match run m st with
  | (inl e, st') => (inl e, st')
  | (inr a, st') => run (k a) st'
  end.
Proof.
  unfold bind. rewrite run_on_outcome.
  by destruct (run m st) as [[e|a] st'].
Qed.

Lemma run_bind (m : prog A) (k : A → prog B) st :
  run (m ≫= k) st =
  match run m st with
  | (inl e, st') => (inl e, st')
  | (inr a, st') => run (k a) st'
  end.
Proof. apply run_bind_fn. Qed.
End run_lemmas.

Section run_lemmas_catch.
Import Js.
Context {A : Type}.

Lemma run_try_catch (m : prog A) (h : error → prog A) st :
  run (try_catch m h) st =
  match run m st with
  | (inl e, st') => run (h e) st'
  | (inr a, st') => (inr a, st')
  end.
Proof.
  unfold try_catch. rewrite run_on_outcome.
  by destruct (run m st) as [[e|a] st'].
Qed.

Lemma run_try_finally (m : prog A) (f : prog unit) st :
  run (try_finally m f) st =
  let '(r, st') := run m st in
  match run f st' with
  | (inl e, st'') => (inl e, st'')
  | (inr _, st'') => (r, st'')
  end.
Proof.
  unfold try_finally. rewrite run_on_outcome.
  destruct (run m st) as [r st']. rewrite run_bind_fn.
  destruct (run f st') as [[e|[]] st'']; [done|]. by destruct r.
Qed.

Lemma run_call {X} (o : op X) st : run (call o) st = exec o st.
Proof.
  unfold call. simpl. destruct (exec o st) as [[e|x] st']; done.
Qed.
End run_lemmas_catch.

Section run_values.
Import Js.
Context {A : Type}.

Lemma run_ret (a : A) st : run (Ret a) st = (inr a, st).
Proof. done. Qed.

Lemma run_throw (e : error) st : run (Throw e : prog A) st = (inl e, st).
Proof. done. Qed.
End run_values.

Arguments Js.run : simpl never.
Arguments Js.on_outcome : simpl never.
Arguments Js.try_catch : simpl never.
Arguments Js.try_finally : simpl never.
Arguments Js.call : simpl never.
Arguments Js.set_fs _ _ /.
Arguments Js.set_clock _ _ /.
Arguments Js.set_uuid_next _ _ /.
Arguments Js.set_faults _ _ /.
Arguments Js.set_locks _ _ /.
Arguments Js.set_timers _ _ /.
Arguments Json.stringify : simpl never.
Arguments Json.parse : simpl never.
Arguments Json.get : simpl never.
Arguments FileOperations.lock_record : simpl never.
Arguments FileOperations.check_lock : simpl never.
Arguments FileOperations.grant_lock : simpl never.
Arguments FileOperations.getCurrentWorkerId : simpl never.
Arguments FileOperations.readLockFile : simpl never.
Arguments FileOperations.releaseLock : simpl never.
Arguments FileOperations.acquireLock : simpl never.
Arguments FileOperations.createBackup : simpl never.
Arguments FileOperations.cleanOldBackups : simpl never.
Arguments FileOperations.atomicWrite : simpl never.
Arguments FileOperations.commit : simpl never.
Arguments FileOperations.cleanup : simpl never.
Arguments FileOperations.restoreFromBackup : simpl never.
Arguments FileOperations.safeJSONRead : simpl never.
Arguments FileOperations.getDefaultStructure : simpl never.
Arguments FileOperations.attemptJSONRecovery : simpl never.
Arguments FileOperations.JSON_parse : simpl never.
Arguments FileOperations.prop : simpl never.
Arguments Fs.remove : simpl never.
Arguments Fs.readdir : simpl never.
Arguments FileOperations.age_exceeds : simpl never.
Arguments FileOperations.tempFile_of : simpl never.
Arguments FileOperations.backupDir_of : simpl never.
Arguments FileOperations.backup_prefix : simpl never.
Arguments FileOperations.backupFiles_of : simpl never.
Arguments Paths.join : simpl never.
Arguments Paths.dirname : simpl never.
Arguments Paths.basename : simpl never.
Arguments Paths.under : simpl never.
Arguments Str.of_Z : simpl never.
Arguments Str.of_nat : simpl never.
Arguments Str.endsWith : simpl never.
Arguments Str.startsWith : simpl never.
Arguments Js.uuid_of : simpl never.

Create Rewrite HintDb run.
#[global] Hint Rewrite @run_bind @run_bind_fn @run_call @run_try_catch
  @run_try_finally @run_ret @run_throw : run.

Ltac run_step := repeat (progress (autorewrite with run; cbn)).

(** The same, leaving in place the calls of the primitives that can
    reject. *)
Section run_pure_calls.
Import Js.

Lemma run_PathExists f st :
  run (call (PathExists f)) st = (inr (Fs.pathExists (fs (snd st)) f), st).
Proof. by destruct st. Qed.

Lemma run_DateNow st : run (call DateNow) st = (inr (clock (snd st)), st).
Proof. by destruct st. Qed.

Lemma run_Uuidv4 p w :
  run (call Uuidv4) (p, w)
  = (inr (uuid_of (uuid_next w)), (p, set_uuid_next (S (uuid_next w)) w)).
Proof. done. Qed.

Lemma run_LocksGet f st :
  run (call (LocksGet f)) st = (inr (locks (fst st) !! f), st).
Proof. by destruct st. Qed.

Lemma run_LocksSet f li p w :
  run (call (LocksSet f li)) (p, w)
  = (inr tt, (set_locks (<[f := li]> (locks p)) p, w)).
Proof. done. Qed.

Lemma run_LocksDelete f p w :
  run (call (LocksDelete f)) (p, w)
  = (inr tt, (set_locks (delete f (locks p)) p, w)).
Proof. done. Qed.

Lemma run_EnvWorkerId st :
  run (call EnvWorkerId) st = (inr (env_worker_id (fst st)), st).
Proof. by destruct st. Qed.

Lemma run_Cwd st : run (call Cwd) st = (inr (cwd (fst st)), st).
Proof. by destruct st. Qed.

Lemma run_Pid st : run (call Pid) st = (inr (pid (fst st)), st).
Proof. by destruct st. Qed.

End run_pure_calls.

Create Rewrite HintDb run_seq.
#[global] Hint Rewrite @run_bind @run_bind_fn @run_try_catch
  @run_try_finally @run_ret @run_throw
  run_PathExists run_DateNow run_Uuidv4 run_LocksGet run_LocksSet
  run_LocksDelete run_EnvWorkerId run_Cwd run_Pid : run_seq.

Ltac run_seq := repeat (progress (autorewrite with run_seq; cbn)).

(** ** The fault schedule *)

Section io_lemmas.
Import Js.

(** Without injected faults a primitive acts on the tree alone. *)
Lemma io_no_fault {X} σ t n (f : Fs.tree → Fs.errno + (X * Fs.tree)) :
  io (mkWorld σ t n []) f =
  match f σ with
  | inl e => (inl (IOError e), mkWorld σ t n [])
  | inr (x, σ') => (inr x, mkWorld σ' t n [])
  end.
Proof. unfold io; simpl. by destruct (f σ) as [e|[x σ']]. Qed.

(** An injected fault: [EIO], and the tree is as before. *)
Lemma io_fault {X} σ t n l (f : Fs.tree → Fs.errno + (X * Fs.tree)) :
  io (mkWorld σ t n (true :: l)) f = (inl (IOError Fs.EIO), mkWorld σ t n l).
Proof. done. Qed.
End io_lemmas.

(** ** Strings and identifiers *)

Section string_lemmas.

Lemma app_cons (c : ascii) (a b : string) :
  String c a +:+ b = String c (a +:+ b).
Proof. done. Qed.

Lemma app_empty_l (b : string) : EmptyString +:+ b = b.
Proof. done. Qed.

Lemma length_app (a b : string) :
  String.length (a +:+ b) = (String.length a + String.length b)%nat.
Proof.
  induction a as [|c a IH]; [done|]. rewrite app_cons. simpl. by rewrite IH.
Qed.

Lemma app_assoc_s (a b c : string) : (a +:+ b) +:+ c = a +:+ (b +:+ c).
Proof.
  induction a as [|x a IH]; [done|]. rewrite !app_cons. by rewrite IH.
Qed.

Lemma app_empty_r (a : string) : a +:+ EmptyString = a.
Proof.
  induction a as [|x a IH]; [done|]. rewrite app_cons. by rewrite IH.
Qed.

Lemma prefix_cons (c d : ascii) (p s : string) :
  String.prefix (String c p) (String d s)
  = if Ascii.ascii_dec c d then String.prefix p s else false.
Proof. done. Qed.

Lemma prefix_iff (p s : string) :
  String.prefix p s = true ↔ ∃ r, s = p +:+ r.
Proof.
  revert s. induction p as [|c p IH]; intros s.
  - destruct s; split; eauto.
  - destruct s as [|d s]; [split; [done|by intros [r ?]]|].
    rewrite prefix_cons. destruct (Ascii.ascii_dec c d) as [->|Hne].
    + rewrite IH. split; intros [r Hr]; exists r; rewrite ?app_cons in *;
        congruence.
    + split; [done|]. intros [r Hr]. rewrite app_cons in Hr. congruence.
Qed.

Lemma prefix_app (p r : string) : String.prefix p (p +:+ r) = true.
Proof. apply prefix_iff. eauto. Qed.

Lemma prefix_length (p s : string) :
  String.prefix p s = true → (String.length p ≤ String.length s)%nat.
Proof. intros [r ->]%prefix_iff. rewrite length_app. lia. Qed.

(** Decimal rendering is injective. *)
Lemma of_N_inj (a b : N) : Str.of_N a = Str.of_N b → a = b.
Proof.
  unfold Str.of_N. intros H.
  apply (f_equal NilEmpty.uint_of_string) in H.
  rewrite !NilEmpty.usu in H.
  apply DecimalN.Unsigned.to_uint_inj. congruence.
Qed.

Lemma of_nat_inj (a b : nat) : Str.of_nat a = Str.of_nat b → a = b.
Proof. unfold Str.of_nat. intros H%of_N_inj. lia. Qed.

Lemma uuid_of_inj (a b : nat) : Js.uuid_of a = Js.uuid_of b → a = b.
Proof.
  unfold Js.uuid_of. intros H. apply of_nat_inj.
  by apply (inj (String.append "uuid-")) in H.
Qed.

End string_lemmas.

(** ** Locks *)

Section lock_lemmas.
Import Json Js FileOperations.


Lemma getCurrentWorkerId_no_fault p σ t n :
  let w := mkWorld σ t n [] in
  run getCurrentWorkerId (p, w) = (inr (workerId_of p w), (p, w)).
Proof.
  intros w. unfold workerId_of.
  assert (∃ me, run getCurrentWorkerId (p, w) = (inr me, (p, w)))
    as [me ->]; [|done].
  unfold getCurrentWorkerId, w. run_step.
  destruct (env_worker_id p) as [[|c s]|]; run_step; eauto.
  all: destruct (Fs.pathExists _ _); run_step; eauto.
  all: unfold Fs.readFile.
  all: destruct (σ !! _) as [[content|]|]; run_step; eauto.
  all: unfold JSON_parse; destruct (parse content) as [config|];
    run_step; eauto.
  all: unfold prop; destruct (get config "worker_id") as [[x|]|];
    run_step; eauto.
Qed.

Lemma age_exceeds_int (t ts timeout : Z) :
  age_exceeds t (Some (JInt ts)) timeout = bool_decide (t - ts > timeout).
Proof.
  unfold age_exceeds, JInt, Z_gt_num. simpl.
  rewrite Z.mul_1_r. apply bool_decide_ext. lia.
Qed.

(** [readLockFile] never raises. *)
Lemma readLockFile_total lockFile st :
  ∃ v st', run (readLockFile lockFile) st = (inr v, st').
Proof.
  unfold readLockFile. run_step.
  destruct (exec (ReadFile lockFile) st) as [[e|content] st']; run_step;
    [eauto|].
  unfold JSON_parse. destruct (parse content); run_step; eauto.
Qed.

Lemma readLockFile_parsed lockFile p σ t n content v :
  σ !! lockFile = Some (Fs.File content) →
  parse content = Some v →
  run (readLockFile lockFile) (p, mkWorld σ t n [])
  = (inr v, (p, mkWorld σ t n [])).
Proof.
  intros Hf Hp. unfold readLockFile. run_step.
  unfold Fs.readFile. rewrite Hf. run_step.
  unfold JSON_parse. rewrite Hp. by run_step.
Qed.


Lemma readLockFile_unreadable lockFile p σ t n fl :
  unreadable σ lockFile fl →
  run (readLockFile lockFile) (p, mkWorld σ t n fl)
  = (inr unknown_lock, (p, mkWorld σ t n [])).
Proof.
  intros [[-> _]|[[-> Hd]|[-> (c & Hc & Hp)]]]; unfold readLockFile; run_step.
  - done.
  - unfold Fs.readFile. rewrite Hd. by run_step.
  - unfold Fs.readFile. rewrite Hc. run_step.
    unfold JSON_parse. rewrite Hp. by run_step.
Qed.

(** The grant, when no primitive is rejected. *)
Lemma grant_lock_no_fault filePath lockFile lockId timeout p σ t n :
  σ !! lockFile ≠ Some Fs.Dir →
  run (grant_lock filePath lockFile lockId timeout) (p, mkWorld σ t n [])
  = (inr lockId,
     (mkProc (<[filePath := LockInfo lockId lockFile]> (locks p))
             (timers p ++ [Timer t (clamp_delay timeout) filePath lockId])
             (env_worker_id p) (cwd p) (pid p),
      mkWorld (<[lockFile :=
                   Fs.File (stringify
                     (lock_record lockId (workerId_of p (mkWorld σ t n []))
                                  t (pid p)))]> σ)
              t n [])).
Proof.
  intros Hd. unfold grant_lock. run_step.
  rewrite getCurrentWorkerId_no_fault. run_step.
  unfold Fs.writeFile.
  destruct (σ !! lockFile) as [[c|]|] eqn:E; try done; by run_step.
Qed.

Lemma remove_lookup_self σ f : Fs.remove σ f !! f = None.
Proof.
  unfold Fs.remove. apply map_lookup_filter_None. right. intros x _. simpl.
  unfold Paths.under. by rewrite String.eqb_refl.
Qed.

(** [releaseLock] never raises. *)
Lemma releaseLock_total filePath lockId st :
  fst (run (releaseLock filePath lockId) st) = inr tt.
Proof.
  destruct st as [p w]. unfold releaseLock. run_step.
  destruct (locks p !! filePath) as [info|]; run_step; [|done].
  destruct (String.eqb _ _); run_step; [|done].
  destruct (io w _) as [[e|[]] w']; by run_step.
Qed.

Lemma releaseLock_mismatch filePath lockId p w :
  li_lockId <$> locks p !! filePath ≠ Some lockId →
  run (releaseLock filePath lockId) (p, w) = (inr tt, (p, w)).
Proof.
  intros Hne. unfold releaseLock. run_step.
  destruct (locks p !! filePath) as [info|]; run_step; [|done].
  destruct (String.eqb_spec (li_lockId info) lockId) as [Heq|]; run_step;
    [|done].
  simpl in Hne. congruence.
Qed.

Lemma releaseLock_match filePath lockId p σ t n :
  li_lockId <$> locks p !! filePath = Some lockId →
  run (releaseLock filePath lockId) (p, mkWorld σ t n [])
  = (inr tt,
     (mkProc (delete filePath (locks p)) (timers p)
             (env_worker_id p) (cwd p) (pid p),
      mkWorld (Fs.remove σ (filePath +:+ ".lock")) t n [])).
Proof.
  intros Heq. unfold releaseLock. run_step.
  destruct (locks p !! filePath) as [info|]; simplify_eq/=.
  rewrite String.eqb_refl. by run_step.
Qed.

End lock_lemmas.

(** ** Acquiring a lock that is held, stale or unreadable *)

Section acquire.
Import Json Js FileOperations.

Lemma check_lock_absent lockFile timeout p w :
  fs w !! lockFile = None →
  run (check_lock lockFile timeout) (p, w) = (inr tt, (p, w)).
Proof.
  intros Hf. unfold check_lock. run_step.
  unfold Fs.pathExists. rewrite bool_decide_false; [by run_step|].
  rewrite Hf. by intros [? ?].
Qed.

Lemma check_lock_read lockFile timeout p σ t n fl lockData :
  is_Some (σ !! lockFile) →
  run (readLockFile lockFile) (p, mkWorld σ t n fl)
  = (inr lockData, (p, mkWorld σ t n [])) →
  run (check_lock lockFile timeout) (p, mkWorld σ t n fl)
  = match get lockData "timestamp" with
    | None => (inl TypeError, (p, mkWorld σ t n []))
    | Some ts =>
        if age_exceeds t ts timeout
        then (inr tt, (p, mkWorld (Fs.remove σ lockFile) t n []))
        else match get lockData "workerId" with
             | Some owner => (inl (Locked owner), (p, mkWorld σ t n []))
             | None => (inl TypeError, (p, mkWorld σ t n []))
             end
    end.
Proof.
  intros Hex Hread. unfold check_lock. run_step.
  unfold Fs.pathExists. rewrite bool_decide_true by done.
  run_step. rewrite Hread. run_step.
  unfold prop. destruct (get lockData "timestamp") as [ts|]; run_step;
    [|done].
  destruct (age_exceeds t ts timeout); run_step; [done|].
  destruct (get lockData "workerId"); by run_step.
Qed.

(** C1. A lock file whose age is below the timeout and whose owner is
    not the caller makes [acquireLock] fail with the "locked" error and
    leaves the lock file and the caller's lock table as they were; a
    lock file whose age exceeds the timeout is removed and the call
    succeeds: it returns the identifier just drawn, which no earlier
    draw has produced, and the lock file and the lock table now hold
    it, whoever owned the lock before. (No primitive is rejected during
    the call. The time of the call, the timestamp of the lock file,
    their difference and the timeout are integers below 2^53 in
    magnitude, for which the age [Date.now() - timestamp] and its
    comparison with the timeout are computed exactly by the engine, as
    they are here.) *)
Theorem acquire_contended_or_stale
    (filePath : string) (timeout : Z) (p : Proc) (σ : Fs.tree) (t : Z)
    (n : nat) (content : string) (lockData : json) (ts : Z)
    (owner : option json) :
  let w := mkWorld σ t n [] in
  let lockFile := filePath +:+ ".lock" in
  σ !! lockFile = Some (Fs.File content) →
  parse content = Some lockData →
  get lockData "timestamp" = Some (Some (JInt ts)) →
  get lockData "workerId" = Some owner →
  safe_integer t → safe_integer ts → safe_integer (t - ts) →
  safe_integer timeout →
  (t - ts < timeout → owner ≠ workerId_of p w →
     run (acquireLock filePath timeout) (p, w)
     = (inl (Locked owner), (p, mkWorld σ t (S n) [])))
  ∧ (t - ts > timeout →
       ∃ p' σ',
         run (acquireLock filePath timeout) (p, w)
         = (inr (uuid_of n), (p', mkWorld σ' t (S n) []))
         ∧ (∀ k, (k < n)%nat → uuid_of k ≠ uuid_of n)
         ∧ locks p' !! filePath = Some (LockInfo (uuid_of n) lockFile)
         ∧ ∃ me, σ' = <[lockFile := Fs.File
                          (stringify (lock_record (uuid_of n) me t (pid p)))]>
                        (Fs.remove σ lockFile)).
Proof.
  intros w lockFile Hf Hp Hts Hw _ _ _ _. subst w lockFile. split.
  - intros Hage _. unfold acquireLock. run_step.
    erewrite check_lock_read;
      [|by rewrite Hf|by eapply readLockFile_parsed].
    rewrite Hts, age_exceeds_int, bool_decide_false by lia.
    by rewrite Hw.
  - intros Hage. unfold acquireLock. run_step.
    erewrite check_lock_read;
      [|by rewrite Hf|by eapply readLockFile_parsed].
    rewrite Hts, age_exceeds_int, bool_decide_true by lia.
    rewrite grant_lock_no_fault
      by (by rewrite remove_lookup_self).
    eexists _, _. split; [done|]. split; [|split].
    + intros k Hk Heq%uuid_of_inj. lia.
    + simpl. by rewrite lookup_insert_eq.
    + eauto.
Qed.

End acquire.


Section acquire_witness.
Import Json Js FileOperations Example.

Lemma acquire_contended_or_stale_witness :
  run (acquireLock doc 30000) (zephyr, mkWorld locked_tree 1000 1 [])
  = (inl (Locked (Some (JStr "alex"))),
     (zephyr, mkWorld locked_tree 1000 2 []))
  ∧ ∃ p' σ',
      run (acquireLock doc 30000) (zephyr, mkWorld locked_tree 31000 1 [])
      = (inr (uuid_of 1), (p', mkWorld σ' 31000 2 []))
      ∧ (∀ k, (k < 1)%nat → uuid_of k ≠ uuid_of 1)
      ∧ locks p' !! doc = Some (LockInfo (uuid_of 1) (doc +:+ ".lock"))
      ∧ ∃ me, σ' = <[doc +:+ ".lock" := Fs.File
                       (stringify (lock_record (uuid_of 1) me 31000 4002))]>
                     (Fs.remove locked_tree (doc +:+ ".lock")).
Proof.
  split.
  - refine (proj1 (acquire_contended_or_stale doc 30000 zephyr locked_tree
                     1000 1 alex_lock (lock_record (uuid_of 0)
                                         (Some (JStr "alex")) 0 4001)
                     0 (Some (JStr "alex"))
                     eq_refl eq_refl eq_refl eq_refl _ _ _ _) _ _).
    + unfold safe_integer; lia.
    + unfold safe_integer; lia.
    + unfold safe_integer; lia.
    + unfold safe_integer; lia.
    + lia.
    + vm_compute. discriminate.
  - refine (proj2 (acquire_contended_or_stale doc 30000 zephyr locked_tree
                     31000 1 alex_lock (lock_record (uuid_of 0)
                                          (Some (JStr "alex")) 0 4001)
                     0 (Some (JStr "alex"))
                     eq_refl eq_refl eq_refl eq_refl _ _ _ _) _).
    + unfold safe_integer; lia.
    + unfold safe_integer; lia.
    + unfold safe_integer; lia.
    + unfold safe_integer; lia.
    + lia.
Defined.
End acquire_witness.

Section unreadable_lock.
Import Json Js FileOperations.

(** C10. Reading a lock file never raises. When the file exists but
    cannot be read (the read is rejected, or the path is a directory) or
    its text is not JSON, the read yields the record with timestamp 0
    and owner "unknown"; an [acquireLock] on that path with a timeout
    smaller than the current time then removes the lock file and grants
    a new lock to the caller, whoever it is. *)
Theorem unreadable_lock_is_stale
    (filePath : string) (timeout : Z) (p : Proc) (σ : Fs.tree) (t : Z)
    (n : nat) (fl : list bool) :
  let lockFile := filePath +:+ ".lock" in
  (∀ st, ∃ v st', run (readLockFile lockFile) st = (inr v, st'))
  ∧ (unreadable σ lockFile fl →
       run (readLockFile lockFile) (p, mkWorld σ t n fl)
       = (inr (JObj [("timestamp", JInt 0); ("workerId", JStr "unknown")]),
          (p, mkWorld σ t n []))
       ∧ (timeout < t →
            ∃ p' me,
              run (acquireLock filePath timeout) (p, mkWorld σ t n fl)
              = (inr (uuid_of n),
                 (p', mkWorld
                        (<[lockFile := Fs.File
                             (stringify
                                (lock_record (uuid_of n) me t (pid p)))]>
                           (Fs.remove σ lockFile))
                        t (S n) []))
              ∧ locks p' !! filePath
                = Some (LockInfo (uuid_of n) lockFile))).
Proof.
  intros lockFile. split; [intros st; apply readLockFile_total|].
  intros Hun. pose proof (readLockFile_unreadable _ p σ t n _ Hun) as Hread.
  split; [done|]. intros Hlt.
  assert (is_Some (σ !! lockFile)) as Hex.
  { destruct Hun as [[_ ?]|[[_ ->]|[_ (c & -> & _)]]]; eauto. }
  unfold acquireLock. run_step.
  erewrite check_lock_read;
    [|done|exact (readLockFile_unreadable _ p σ t (S n) _ Hun)].
  change (get unknown_lock "timestamp") with (Some (Some (JInt 0))).
  cbv iota. rewrite age_exceeds_int, bool_decide_true by lia.
  rewrite grant_lock_no_fault by (by rewrite remove_lookup_self).
  eexists _, _. split; [done|]. simpl. by rewrite lookup_insert_eq.
Qed.

End unreadable_lock.

Section unreadable_lock_witness.
Import Json Js FileOperations Example Torn.


Lemma unreadable_lock_is_stale_witness :
  run (readLockFile (doc +:+ ".lock")) (zephyr, mkWorld torn_tree 1000 1 [])
  = (inr (JObj [("timestamp", JInt 0); ("workerId", JStr "unknown")]),
     (zephyr, mkWorld torn_tree 1000 1 []))
  ∧ ∃ p' me,
      run (acquireLock doc 999) (zephyr, mkWorld torn_tree 1000 1 [])
      = (inr (uuid_of 1),
         (p', mkWorld
                (<[doc +:+ ".lock" := Fs.File
                     (stringify (lock_record (uuid_of 1) me 1000 4002))]>
                   (Fs.remove torn_tree (doc +:+ ".lock")))
                1000 2 []))
      ∧ locks p' !! doc = Some (LockInfo (uuid_of 1) (doc +:+ ".lock")).
Proof.
  assert (unreadable torn_tree (doc +:+ ".lock") []) as Hun.
  { right. right. split; [done|]. by eexists. }
  destruct (proj2 (unreadable_lock_is_stale doc 999 zephyr torn_tree 1000 1 [])
              Hun) as [Hread Hacq].
  split; [exact Hread|]. apply Hacq. lia.
Defined.
End unreadable_lock_witness.

(** ** Releasing *)


Section release.
Import Json Js FileOperations Example.

(** C2, as stated, fails: the release of a superseded identifier
    removes the lock file of the newer owner. The lock file holds
    zephyr's identifier, alex's late release passes its own, and the
    lock file is gone afterwards. *)
Lemma release_superseded_removes_newer_lock :
  fst Reclaim.first = inr (uuid_of 0)
  ∧ fst Reclaim.second = inr (uuid_of 1)
  ∧ Reclaim.stored_lockId Reclaim.reclaimed = Some (JStr (uuid_of 1))
  ∧ uuid_of 0 ≠ uuid_of 1
  ∧ fst Reclaim.late_release = inr tt
  ∧ fs (snd (snd Reclaim.late_release)) !! (doc +:+ ".lock") = None.
Proof. vm_compute. repeat split; done. Qed.

(** C2, amended. [releaseLock] never raises. It compares the given
    identifier with the one the calling process keeps in its own
    [locks] map for the path (the lock file is not read): when the map
    has no entry for the path or another identifier, nothing changes;
    when it has this identifier (and the removal is not rejected) the
    lock file is removed and the entry is dropped. *)
Theorem release_compares_with_own_table
    (filePath lockId : string) (p : Proc) (σ : Fs.tree) (t : Z) (n : nat)
    (fl : list bool) :
  let st := (p, mkWorld σ t n fl) in
  fst (run (releaseLock filePath lockId) st) = inr tt
  ∧ (li_lockId <$> locks p !! filePath ≠ Some lockId →
       run (releaseLock filePath lockId) st = (inr tt, st))
  ∧ (li_lockId <$> locks p !! filePath = Some lockId → fl = [] →
       run (releaseLock filePath lockId) st
       = (inr tt,
          (mkProc (delete filePath (locks p)) (timers p)
                  (env_worker_id p) (cwd p) (pid p),
           mkWorld (Fs.remove σ (filePath +:+ ".lock")) t n []))).
Proof.
  intros st. split; [apply releaseLock_total|]. split.
  - apply releaseLock_mismatch.
  - intros Heq ->. by apply releaseLock_match.
Qed.

Lemma release_compares_with_own_table_witness :
  run (releaseLock doc (uuid_of 0)) (Reclaim.alex1, Reclaim.reclaimed)
  = (inr tt,
     (mkProc (delete doc (locks Reclaim.alex1)) (timers Reclaim.alex1)
             (Some "alex") "/home/alex" 4001,
      mkWorld (Fs.remove (fs Reclaim.reclaimed) (doc +:+ ".lock")) 2000 2 []))
  ∧ run (releaseLock doc (uuid_of 0)) (Reclaim.zephyr1, Reclaim.reclaimed)
    = (inr tt, (Reclaim.zephyr1, Reclaim.reclaimed)).
Proof.
  split.
  - apply (proj2 (proj2 (release_compares_with_own_table doc (uuid_of 0)
                           Reclaim.alex1 (fs Reclaim.reclaimed) 2000 2 [])));
      reflexivity.
  - apply (proj1 (proj2 (release_compares_with_own_table doc (uuid_of 0)
                           Reclaim.zephyr1 (fs Reclaim.reclaimed) 2000 2 []))).
    vm_compute. discriminate.
Defined.

End release.

(** ** The lock after a write *)


Section write_lock.
Import Json Js FileOperations Example.

Lemma atomicWrite_unserializable filePath lockId p w info :
  locks p !! filePath = Some info →
  li_lockId info = lockId →
  run (atomicWrite filePath VUnserializable lockId) (p, w)
  = (inl TypeError, (p, set_uuid_next (S (uuid_next w)) w)).
Proof.
  intros Hl <-. unfold atomicWrite. run_step. rewrite Hl. run_step.
  rewrite String.eqb_refl. by run_step.
Qed.

(** C5 does not hold of the code. When [data] cannot be serialised,
    [atomicWrite] throws before it enters the [try] whose [finally]
    releases the lock: the call returns with the lock file in place and
    the lock still in the table of the process. The exit on a failed
    validation, inside the [try], does release. *)
Theorem write_serialization_failure_leaves_lock_held :
  HeldLock.held (HeldLock.holder, HeldLock.world)
  ∧ fst HeldLock.write_cyclic = inl TypeError
  ∧ HeldLock.held (snd HeldLock.write_cyclic)
  ∧ fst HeldLock.write_invalid = inl (AtomicWriteFailed SyntaxError)
  ∧ HeldLock.released (snd HeldLock.write_invalid).
Proof.
  unfold HeldLock.held, HeldLock.released.
  vm_compute. repeat split; try done; by eexists.
Qed.

End write_lock.

(** ** Timers *)

Section timers.
Import Json Js FileOperations.

Lemma io_clock {X} w (f : Fs.tree → Fs.errno + (X * Fs.tree)) :
  clock (snd (io w f)) = clock w.
Proof.
  unfold io. destruct (faults w) as [|[] l]; simpl; try done.
  all: by destruct (f (fs w)) as [e|[x σ]].
Qed.

Lemma exec_clock {X} (o : op X) st : clock (snd (snd (exec o st))) = clock (snd st).
Proof.
  destruct st as [p w]. destruct o; simpl; try done.
  all: repeat match goal with |- context [io ?w0 ?f] =>
         let H := fresh in
         pose proof (io_clock w0 f) as H; destruct (io w0 f) as [[?|?] ?];
         simpl in *
       end; congruence.
Qed.

(** No call moves the clock. *)
Lemma run_clock {A} (m : prog A) st : clock (snd (snd (run m st))) = clock (snd st).
Proof.
  revert st. induction m as [a|e|X o k IH]; intros st; try done.
  unfold run; fold (@run A). pose proof (exec_clock o st) as Hc.
  destruct (exec o st) as [r st']. rewrite IH. exact Hc.
Qed.

Lemma exec_timers {X} (o : op X) st :
  sets_timer X o = false → timers (fst (snd (exec o st))) = timers (fst st).
Proof.
  destruct st as [p w]. destruct o; simpl; try done.
  all: intros _; repeat match goal with |- context [io ?w0 ?f] =>
         destruct (io w0 f) as [[?|?] ?]; simpl end; done.
Qed.

Lemma exec_proc {X} (o : op X) st :
  changes_proc X o = false → fst (snd (exec o st)) = fst st.
Proof.
  destruct st as [p w]. destruct o; simpl; try done.
  all: intros _; repeat match goal with |- context [io ?w0 ?f] =>
         destruct (io w0 f) as [[?|?] ?]; simpl end; done.
Qed.

Lemma io_uuid_next {X} w (f : Fs.tree → Fs.errno + (X * Fs.tree)) :
  uuid_next (snd (io w f)) = uuid_next w.
Proof.
  unfold io. destruct (faults w) as [|[] l]; simpl; try done.
  all: by destruct (f (fs w)) as [e|[x σ]].
Qed.

Lemma exec_uuid_next {X} (o : op X) st :
  draws_uuid X o = false → uuid_next (snd (snd (exec o st))) = uuid_next (snd st).
Proof.
  destruct st as [p w]. destruct o; simpl; try done.
  all: intros _; repeat match goal with |- context [io ?w0 ?f] =>
         let H := fresh in
         pose proof (io_uuid_next w0 f) as H; destruct (io w0 f) as [[?|?] ?];
         simpl in *
       end; congruence.
Qed.

Section avoids.
Context (bad : ∀ X, op X → bool).

Lemma avoids_run {A} {S : Type} (proj : state → S) (m : prog A) st :
  (∀ X (o : op X) st, bad X o = false → proj (snd (exec o st)) = proj st) →
  avoids bad m → proj (snd (run m st)) = proj st.
Proof.
  intros Hexec Hm. revert st.
  induction Hm as [a|e|X o k Ho _ IH]; intros st; try done.
  unfold run; fold (@run A). pose proof (Hexec X o st Ho) as Ht.
  destruct (exec o st) as [r st']. rewrite IH. exact Ht.
Qed.

Lemma avoids_on_outcome {A B} (m : prog A) (k : error + A → prog B) :
  avoids bad m → (∀ r, avoids bad (k r)) → avoids bad (on_outcome m k).
Proof.
  intros Hm Hk. induction Hm as [a|e|X o h Ho _ IH]; unfold on_outcome;
    fold (@on_outcome A B); try done.
  by constructor.
Qed.

Lemma avoids_bind {A B} (m : prog A) (k : A → prog B) :
  avoids bad m → (∀ a, avoids bad (k a)) → avoids bad (m ≫= k).
Proof.
  intros Hm Hk. apply avoids_on_outcome; [done|].
  intros [e|a]; [constructor|done].
Qed.

Lemma avoids_try_catch {A} (m : prog A) (h : error → prog A) :
  avoids bad m → (∀ e, avoids bad (h e)) → avoids bad (try_catch m h).
Proof.
  intros Hm Hh. apply avoids_on_outcome; [done|].
  intros [e|a]; [done|constructor].
Qed.

Lemma avoids_try_finally {A} (m : prog A) (f : prog unit) :
  avoids bad m → avoids bad f → avoids bad (try_finally m f).
Proof.
  intros Hm Hf. apply avoids_on_outcome; [done|].
  intros r. apply (avoids_bind f); [done|].
  intros _. destruct r; constructor.
Qed.

Lemma avoids_call {X} (o : op X) : bad X o = false → avoids bad (call o).
Proof. intros Ho. constructor; [done|]. intros [e|x]; constructor. Qed.

Lemma avoids_for_each {A} (l : list A) (body : A → prog unit) :
  (∀ x, avoids bad (body x)) → avoids bad (for_each l body).
Proof.
  intros Hb. induction l as [|x l IH]; [constructor|].
  by apply (avoids_bind (body x)).
Qed.

Lemma avoids_JSON_parse s : avoids bad (JSON_parse s).
Proof. unfold JSON_parse. destruct (Json.parse s); constructor. Qed.

Lemma avoids_prop v k : avoids bad (prop v k).
Proof. unfold prop. destruct (get v k); constructor. Qed.

End avoids.

Ltac avoids :=
  repeat first
    [ apply avoids_JSON_parse
    | apply avoids_prop
    | apply avoids_bind; [|intros ?]
    | apply avoids_try_catch; [|intros ?]
    | apply avoids_try_finally
    | apply avoids_for_each; intros ?
    | apply avoids_call; reflexivity
    | apply avoids_ret
    | apply avoids_throw
    | match goal with
      | |- avoids _ (match ?x with _ => _ end) => destruct x
      | |- avoids _ (if ?x then _ else _) => destruct x
      end ].

Lemma timer_free_run {A} (m : prog A) st :
  avoids sets_timer m → timers (fst (snd (run m st))) = timers (fst st).
Proof. apply (avoids_run sets_timer (λ st, timers (fst st))), @exec_timers. Qed.

Lemma proc_free_run {A} (m : prog A) st :
  avoids changes_proc m → fst (snd (run m st)) = fst st.
Proof. apply (avoids_run changes_proc fst), @exec_proc. Qed.

Lemma uuid_free_run {A} (m : prog A) st :
  avoids draws_uuid m → uuid_next (snd (snd (run m st))) = uuid_next (snd st).
Proof.
  apply (avoids_run draws_uuid (λ st, uuid_next (snd st))), @exec_uuid_next.
Qed.

Lemma timer_free_releaseLock f id : avoids sets_timer (releaseLock f id).
Proof. unfold releaseLock. avoids. Qed.

Lemma timer_free_check_lock f timeout : avoids sets_timer (check_lock f timeout).
Proof. unfold check_lock. avoids. Qed.

Lemma timer_free_getCurrentWorkerId : avoids sets_timer getCurrentWorkerId.
Proof. unfold getCurrentWorkerId. avoids. Qed.

Lemma timer_free_atomicWrite f data id : avoids sets_timer (atomicWrite f data id).
Proof. unfold atomicWrite. avoids. Qed.

Lemma proc_free_createBackup f : avoids changes_proc (createBackup f).
Proof. unfold createBackup. avoids. Qed.

Lemma uuid_free_createBackup f : avoids draws_uuid (createBackup f).
Proof. unfold createBackup. avoids. Qed.

(** C9, as stated, fails: a granted [acquireLock] leaves a pending timer
    in the acquiring process, and when that timer fires it removes the
    lock file. *)
Lemma acquire_schedules_deferred_release :
  timers Example.alex = []
  ∧ fst Reclaim.first = inr (uuid_of 0)
  ∧ timers Reclaim.alex1 = [Timer 0 30000 Example.doc (uuid_of 0)]
  ∧ is_Some (fs (snd (snd Reclaim.first)) !! (Example.doc +:+ ".lock"))
  ∧ fs (snd (fire_timers (Reclaim.alex1, advance 30000 (snd (snd Reclaim.first)))))
      !! (Example.doc +:+ ".lock") = None.
Proof. vm_compute. repeat split; try done. by eexists. Qed.

(** C9, amended. Every granted [acquireLock] registers one timer in the
    acquiring process, for the path and the identifier granted, with the
    timeout as delay (one millisecond when the timeout is outside
    1 .. 2^31 - 1); [releaseLock] and [atomicWrite] register none. The
    timer releases the lock: when the process runs its timers before
    the delay has passed nothing happens, and once it has passed the
    lock file is removed and the path leaves the lock table. Besides
    the timer, whether a lock file that is found is stale is decided at
    the next [acquireLock] by comparing the age of its timestamp with
    the timeout of that call: the call is granted exactly when the age
    exceeds the timeout. (For the last two parts no primitive is
    rejected; the numbers compared are integers below 2^53 in
    magnitude.) *)
Theorem acquire_registers_release_timer
    (filePath : string) (timeout : Z) (data : jsval) (lockId0 : string)
    (p : Proc) (w : World) :
  let lockFile := filePath +:+ ".lock" in
  (∀ lockId p' w',
     run (acquireLock filePath timeout) (p, w) = (inr lockId, (p', w')) →
     timers p'
     = (timers p ++ [Timer (clock w) (clamp_delay timeout) filePath lockId])%list)
  ∧ timers (fst (snd (run (releaseLock filePath lockId0) (p, w)))) = timers p
  ∧ timers (fst (snd (run (atomicWrite filePath data lockId0) (p, w)))) = timers p
  ∧ (∀ dt,
       faults w = [] → fs w !! lockFile = None →
       fs w !! Paths.dirname filePath = Some Fs.Dir → timers p = [] →
       let granted := snd (run (acquireLock filePath timeout) (p, w)) in
       let later := (fst granted, advance dt (snd granted)) in
       is_Some (fs (snd granted) !! lockFile)
       ∧ (dt < clamp_delay timeout → fire_timers later = later)
       ∧ (clamp_delay timeout ≤ dt →
            fs (snd (fire_timers later)) !! lockFile = None
            ∧ locks (fst (fire_timers later)) !! filePath = None))
  ∧ (∀ content lockData ts owner,
       faults w = [] →
       fs w !! lockFile = Some (Fs.File content) →
       parse content = Some lockData →
       get lockData "timestamp" = Some (Some (JInt ts)) →
       get lockData "workerId" = Some owner →
       safe_integer (clock w) → safe_integer ts →
       safe_integer (clock w - ts) → safe_integer timeout →
       fst (run (acquireLock filePath timeout) (p, w))
       = if bool_decide (clock w - ts > timeout)
         then inr (uuid_of (uuid_next w))
         else inl (Locked owner)).
Proof.
  intros lockFile. subst lockFile. split; [|split; [|split; [|split]]].
  - intros lockId p' w'. unfold acquireLock. run_step.
    pose proof (timer_free_run _ (p, set_uuid_next (S (uuid_next w)) w)
                  (timer_free_check_lock (filePath +:+ ".lock") timeout)) as Ht1.
    pose proof (run_clock (check_lock (filePath +:+ ".lock") timeout)
                  (p, set_uuid_next (S (uuid_next w)) w)) as Hc1.
    cbn in Ht1, Hc1.
    destruct (run (check_lock _ _) _) as [[e|[]] [p1 w1]]; [done|].
    cbn in Ht1, Hc1. unfold grant_lock. run_step.
    pose proof (timer_free_run _ (p1, w1) timer_free_getCurrentWorkerId) as Ht2.
    pose proof (run_clock getCurrentWorkerId (p1, w1)) as Hc2.
    destruct (run getCurrentWorkerId _) as [[e|me] [p2 w2]]; [done|].
    cbn in Ht2, Hc2. run_step.
    match goal with |- context [io w2 ?f] =>
      pose proof (io_clock w2 f) as Hc3; destruct (io w2 f) as [[e|[]] w3] end;
      run_step; [done|].
    intros [= <- <- <-]. cbn in *. congruence.
  - apply (timer_free_run _ (p, w)), timer_free_releaseLock.
  - apply (timer_free_run _ (p, w)), timer_free_atomicWrite.
  - destruct w as [σ t n fl]. cbn [faults fs]. intros dt -> Hl _ Ht.
    unfold acquireLock. run_step.
    rewrite check_lock_absent by done. cbn.
    rewrite grant_lock_no_fault by (cbn; by rewrite Hl). cbn [fst snd].
    rewrite Ht. split; [cbn; by rewrite lookup_insert_eq|].
    unfold fire_timers, advance, set_clock, set_timers. cbn.
    unfold due. cbn. split; intros Hdt.
    + rewrite bool_decide_false by lia. cbn. done.
    + rewrite bool_decide_true by lia. cbn. unfold run_callbacks. cbn.
      rewrite releaseLock_match by (cbn; by rewrite lookup_insert_eq).
      cbn. split; [apply remove_lookup_self|apply lookup_delete_eq].
  - destruct w as [σ t n fl]. cbn [faults fs clock uuid_next].
    intros content lockData ts owner -> Hf Hp Hts Hw _ _ _ _.
    unfold acquireLock. run_step.
    erewrite check_lock_read;
      [|by rewrite Hf|by eapply readLockFile_parsed].
    rewrite Hts, age_exceeds_int.
    destruct (bool_decide (t - ts > timeout)); [|by rewrite Hw].
    by rewrite grant_lock_no_fault by (by rewrite remove_lookup_self).
Qed.

Lemma acquire_registers_release_timer_witness :
  timers Reclaim.alex1
  = (timers Example.alex
     ++ [Timer 0 (clamp_delay 30000) Example.doc (uuid_of 0)])%list
  ∧ fs (snd (fire_timers (Reclaim.alex1,
                          advance 30000 (snd (snd Reclaim.first)))))
      !! (Example.doc +:+ ".lock") = None
  ∧ fst (run (acquireLock Example.doc 1000)
             (Example.zephyr, mkWorld Example.locked_tree 2000 1 []))
    = inr (uuid_of 1).
Proof.
  split; [|split].
  - apply (proj1 (acquire_registers_release_timer Example.doc 30000
                    (VJson JNull) EmptyString Example.alex
                    (mkWorld Reclaim.free_tree 0 0 []))
             (uuid_of 0) Reclaim.alex1 (snd (snd Reclaim.first))).
    reflexivity.
  - refine (proj1 (proj2 (proj2
              (proj1 (proj2 (proj2 (proj2
                 (acquire_registers_release_timer Example.doc 30000
                    (VJson JNull) EmptyString Example.alex
                    (mkWorld Reclaim.free_tree 0 0 [])))))
                 30000 _ _ _ _)) _)).
    + reflexivity.
    + vm_compute; reflexivity.
    + vm_compute; reflexivity.
    + reflexivity.
    + vm_compute. discriminate.
  - refine (proj2 (proj2 (proj2 (proj2
              (acquire_registers_release_timer Example.doc 1000
                 (VJson JNull) EmptyString Example.zephyr
                 (mkWorld Example.locked_tree 2000 1 [])))))
              Example.alex_lock
              (lock_record (uuid_of 0) (Some (JStr "alex")) 0 4001)
              0 (Some (JStr "alex")) _ _ _ _ _ _ _ _ _).
    + reflexivity.
    + vm_compute; reflexivity.
    + vm_compute; reflexivity.
    + vm_compute; reflexivity.
    + vm_compute; reflexivity.
    + unfold safe_integer; cbn; lia.
    + unfold safe_integer; lia.
    + unfold safe_integer; cbn; lia.
    + unfold safe_integer; lia.
Defined.

End timers.

(** ** Paths *)

Section path_lemmas.
Import Json Js FileOperations.

Lemma eqb_false_length (a b : string) :
  String.length a ≠ String.length b → String.eqb a b = false.
Proof. intros H. apply String.eqb_neq. congruence. Qed.

Lemma prefix_false_length (p s : string) :
  (String.length s < String.length p)%nat → String.prefix p s = false.
Proof.
  intros H. destruct (String.prefix p s) eqn:E; [|done].
  apply prefix_length in E. lia.
Qed.

Lemma prefix_app_same (f a b : string) :
  String.prefix (f +:+ a) (f +:+ b) = String.prefix a b.
Proof.
  induction f as [|c f IH]; [done|]. rewrite !app_cons, prefix_cons.
  by destruct (Ascii.ascii_dec c c).
Qed.

Lemma no_slash_app (a b : string) :
  no_slash (a +:+ b) = no_slash a && no_slash b.
Proof.
  induction a as [|c a IH]; [done|]. rewrite app_cons. simpl. rewrite IH.
  by rewrite andb_assoc.
Qed.

Lemma split_last_no_slash (s : string) :
  no_slash s = true → Paths.split_last s = (None, s).
Proof.
  induction s as [|c s IH]; [done|]. simpl. intros [Hc Hs]%andb_prop.
  rewrite IH by done. apply negb_true_iff in Hc. by rewrite Hc.
Qed.

(** Appending slash-free text changes the last component only. *)
Lemma split_last_app (f s : string) :
  no_slash s = true →
  Paths.split_last (f +:+ s)
  = (fst (Paths.split_last f), snd (Paths.split_last f) +:+ s).
Proof.
  intros Hs. induction f as [|c f IH].
  - by rewrite app_empty_l, split_last_no_slash.
  - rewrite app_cons. simpl. rewrite IH.
    destruct (Paths.split_last f) as [[d|] b]; simpl; [done|].
    by destruct (Ascii.eqb c "/").
Qed.

(** A path below [d] has a directory part at least as long as [d]. *)
Lemma split_last_below (d k : string) :
  String.prefix (d +:+ "/") k = true →
  ∃ d', fst (Paths.split_last k) = Some d'
        ∧ (String.length d ≤ String.length d')%nat.
Proof.
  revert k. induction d as [|c d IH]; intros k.
  - rewrite app_empty_l. intros [r ->]%prefix_iff. rewrite app_cons. simpl.
    destruct (Paths.split_last _) as [[d'|] b]; simpl; eexists; split;
      try done; simpl; lia.
  - rewrite app_cons. destruct k as [|c' k]; [done|]. rewrite prefix_cons.
    destruct (Ascii.ascii_dec c c') as [<-|]; [|done].
    intros (d' & Hd' & Hlen)%IH. simpl.
    destruct (Paths.split_last k) as [[d0|] b]; simplify_eq/=.
    eexists; split; [done|]. simpl. lia.
Qed.

Lemma join_length (a b : string) :
  (String.length b ≤ String.length (Paths.join a b))%nat.
Proof.
  unfold Paths.join.
  repeat match goal with |- context [if ?c then _ else _] => destruct c end;
    rewrite ?length_app; simpl; lia.
Qed.

(** The backup directory is never the directory part of a path next to
    the document: it is longer. *)
Lemma backupDir_longer (f : string) (d' : string) :
  fst (Paths.split_last f) = Some d' →
  (String.length d' < String.length (backupDir_of f))%nat.
Proof.
  intros Hd. unfold backupDir_of, Paths.dirname. rewrite Hd.
  destruct d' as [|c d']; [vm_compute; lia|].
  unfold Paths.join.
  repeat match goal with |- context [if ?c then _ else _] =>
           destruct c eqn:? end;
    rewrite ?length_app; simpl; try lia.
  all: repeat match goal with
         | H : _ || _ = true |- _ => apply orb_prop in H as [H|H]
         | H : String.eqb _ _ = true |- _ => apply String.eqb_eq in H
         end; simplify_eq/=; lia.
Qed.

(** Nothing the store names next to a document (the document, its lock
    file, a temp file) lies below the backup directory. *)
Lemma not_below_backupDir (f s : string) :
  no_slash s = true →
  String.prefix (backupDir_of f +:+ "/") (f +:+ s) = false.
Proof.
  intros Hs. destruct (String.prefix _ _) eqn:E; [|done].
  apply split_last_below in E as (d' & Hd' & Hlen).
  rewrite split_last_app in Hd' by done. simpl in Hd'.
  apply backupDir_longer in Hd'. lia.
Qed.

Lemma join_long (a b : string) :
  (2 ≤ String.length a)%nat → Paths.join a b = a +:+ "/" +:+ b.
Proof.
  intros Hlen. unfold Paths.join.
  destruct (String.eqb_spec a EmptyString) as [->|]; [simpl in Hlen; lia|].
  destruct (String.eqb_spec a ".") as [->|]; [simpl in Hlen; lia|].
  destruct (String.eqb_spec a "/") as [->|]; [simpl in Hlen; lia|].
  done.
Qed.

Lemma backupDir_shape (f : string) :
  ∃ d, backupDir_of f = d +:+ ".backups".
Proof.
  unfold backupDir_of, Paths.join.
  set (D := Paths.dirname f).
  destruct (String.eqb_spec D EmptyString) as [->|];
    [exists EmptyString; done|].
  destruct (String.eqb_spec D ".") as [->|]; [exists EmptyString; done|].
  destruct (String.eqb_spec D "/") as [->|]; [exists "/"; done|].
  simpl. exists (D +:+ "/"). by rewrite app_assoc_s.
Qed.

Lemma backupDir_length (f : string) :
  (8 ≤ String.length (backupDir_of f))%nat.
Proof.
  destruct (backupDir_shape f) as [d ->]. rewrite length_app. simpl. lia.
Qed.

Lemma backupDir_join (f b : string) :
  Paths.join (backupDir_of f) b = backupDir_of f +:+ "/" +:+ b.
Proof. apply join_long. pose proof (backupDir_length f). lia. Qed.

End path_lemmas.

(** ** What backups leave alone *)

Section backup_frame.
Import Json Js FileOperations.

Lemma remove_lookup_other σ q k :
  Paths.under q k = false → Fs.remove σ q !! k = σ !! k.
Proof.
  intros Hu. unfold Fs.remove. destruct (σ !! k) as [x|] eqn:E.
  - by apply map_lookup_filter_Some.
  - apply map_lookup_filter_None. by left.
Qed.

Lemma remove_lookup_under σ q k :
  Paths.under q k = true → Fs.remove σ q !! k = None.
Proof.
  intros Hu. unfold Fs.remove. apply map_lookup_filter_None. right.
  intros x _. simpl. by rewrite Hu.
Qed.

Lemma under_below (d file k : string) :
  String.prefix (d +:+ "/") k = false →
  Paths.under (d +:+ "/" +:+ file) k = false.
Proof.
  intros Hp. unfold Paths.under. apply orb_false_intro.
  - apply String.eqb_neq. intros <-.
    by rewrite <- app_assoc_s, prefix_app in Hp.
  - destruct (String.prefix ((d +:+ "/" +:+ file) +:+ "/") k) eqn:E; [|done].
    apply prefix_iff in E as [r ->].
    rewrite !app_assoc_s in Hp.
    by rewrite <- (app_assoc_s d "/"), prefix_app in Hp.
Qed.

Lemma under_refl (f : string) : Paths.under f f = true.
Proof. unfold Paths.under. by rewrite String.eqb_refl. Qed.

(** One primitive: the process, the clock and the identifier supply are
    as before unless the primitive is about them; a run without injected
    faults stays so; the tree changes only where the primitive writes. *)
Lemma call_frame {X} (o : op X) p σ t n fl :
  changes_proc X o = false → draws_uuid X o = false →
  ∃ r σ' fl',
    run (call o) (p, mkWorld σ t n fl) = (r, (p, mkWorld σ' t n fl'))
    ∧ (fl = [] → fl' = [])
    ∧ (∀ k, ¬ op_writes o σ k → σ' !! k = σ !! k).
Proof.
  intros Hp Hu. rewrite run_call.
  destruct o; try done; cbn.
  1: by eexists _, _, _.
  8-11: by eexists _, _, _.
  all: unfold io; cbn; destruct fl as [|[] fl]; cbn;
    try (by eexists _, _, _).
  all: try match goal with |- context [Fs.readFile ?s ?f] =>
         destruct (Fs.readFile s f); cbn; by eexists _, _, _ end.
  all: try match goal with |- context [Fs.readdir ?s ?f] =>
         destruct (Fs.readdir s f); cbn; by eexists _, _, _ end.
  all: try match goal with |- context [Fs.writeFile ?s ?f ?d] =>
         unfold Fs.writeFile; destruct (s !! f) as [[?|]|]; cbn;
         eexists _, _, _; (split; [done|]); (split; [done|]);
         intros k Hk; rewrite ?lookup_insert_ne by (intros <-; by apply Hk);
         done end.
  all: try match goal with |- context [Fs.remove ?s ?f] =>
         eexists _, _, _; (split; [done|]); (split; [done|]);
         intros k Hk; apply remove_lookup_other;
         by destruct (Paths.under f k) end.
  all: try match goal with |- context [Fs.copy ?s ?a ?b] =>
         unfold Fs.copy; destruct (s !! a) as [[?|]|]; cbn;
         try (by eexists _, _, _);
         destruct (s !! b) as [[?|]|]; cbn;
         eexists _, _, _; (split; [done|]); (split; [done|]);
         intros k Hk; rewrite ?lookup_insert_ne by (intros <-; by apply Hk);
         done end.
  all: try match goal with |- context [Fs.ensureDir ?s ?f] =>
         unfold Fs.ensureDir; destruct (s !! f) as [[?|]|] eqn:E; cbn;
         eexists _, _, _; (split; [done|]); (split; [done|]);
         intros k Hk; rewrite ?lookup_insert_ne by (intros <-; by apply Hk);
         done end.
  all: match goal with |- context [Fs.move_clear ?s ?a ?b] =>
         unfold Fs.move_clear; destruct (String.eqb a b); cbn;
         try (by eexists _, _, _);
         destruct (s !! a) as [[?|]|]; cbn;
         try (by eexists _, _, _);
         destruct (s !! b) as [[?|]|]; cbn;
         try (by eexists _, _, _) end.
  all: match goal with |- context [Fs.rename ?s ?a ?b] =>
         assert (∀ k, ¬ (k = a ∨ Paths.under b k = true) →
                      s !! k = σ !! k) as Hclear
           by (intros k Hk; apply remove_lookup_other;
               destruct (Paths.under b k) eqn:E; [destruct Hk; by right|done]);
         try (destruct fl as [|[] fl]; cbn);
         try (by eexists _, _, _);
         unfold Fs.rename; destruct (s !! a) as [[?|]|]; cbn;
         try (by eexists _, _, _);
         destruct (s !! b) as [[?|]|]; cbn;
         try (by eexists _, _, _);
         eexists _, _, _; (split; [done|]); (split; [done|]);
         intros k Hk;
         rewrite lookup_insert_ne
           by (intros <-; apply Hk; right; apply under_refl);
         rewrite lookup_delete_ne by (intros <-; apply Hk; by left);
         by apply Hclear end.
Qed.

(** The loop of [cleanOldBackups]. *)
Lemma remove_loop_frame (f : string) (l : list string) p σ t n fl :
  ∃ r σ' fl',
    run (for_each l (λ file, call (Remove (Paths.join (backupDir_of f) file))))
        (p, mkWorld σ t n fl)
    = (r, (p, mkWorld σ' t n fl'))
    ∧ (∀ k, String.prefix (backupDir_of f +:+ "/") k = false → σ' !! k = σ !! k)
    ∧ (fl = [] →
       fl' = [] ∧ r = inr tt
       ∧ σ' = foldl (λ σ file, Fs.remove σ (backupDir_of f +:+ "/" +:+ file)) σ l).
Proof.
  revert σ fl. induction l as [|file l IH]; intros σ fl.
  - eexists _, _, _. split; [done|]. by split.
  - unfold for_each; fold (@for_each string). run_step.
    rewrite backupDir_join. destruct fl as [|[] fl]; cbn.
    + destruct (IH (Fs.remove σ (backupDir_of f +:+ "/" +:+ file)) [])
        as (r & σ' & fl' & -> & Hk & Hnf).
      destruct (Hnf eq_refl) as (-> & -> & ->).
      eexists _, _, _. split; [done|]. split; [|done].
      intros k Hp. rewrite Hk by done. by apply remove_lookup_other, under_below.
    + eexists _, _, _. split; [done|]. by split.
    + destruct (IH (Fs.remove σ (backupDir_of f +:+ "/" +:+ file)) fl)
        as (r & σ' & fl' & -> & Hk & Hnf).
      eexists _, _, _. split; [by destruct r|]. split; [|done].
      intros k Hp. rewrite Hk by done. by apply remove_lookup_other, under_below.
Qed.

Lemma cleanOldBackups_frame (f : string) p σ t n fl :
  ∃ σ' fl',
    run (cleanOldBackups f) (p, mkWorld σ t n fl)
    = (inr tt, (p, mkWorld σ' t n fl'))
    ∧ (∀ k, String.prefix (backupDir_of f +:+ "/") k = false → σ' !! k = σ !! k)
    ∧ (fl = [] → fl' = []).
Proof.
  unfold cleanOldBackups. run_step.
  destruct (Fs.pathExists σ (backupDir_of f)); run_step;
    [|by eexists _, _].
  assert (∀ fl0, (fl = [] → fl0 = []) → ∀ files,
    ∃ σ' fl',
      run (try_catch
             (mret files ≫= λ files,
                for_each (Builtin.slice_from 10 (backupFiles_of f files))
                  (λ file, call (Remove (Paths.join (backupDir_of f) file))))
             (λ _, Ret tt))
          (p, mkWorld σ t n fl0)
      = (inr tt, (p, mkWorld σ' t n fl'))
      ∧ (∀ k, String.prefix (backupDir_of f +:+ "/") k = false →
              σ' !! k = σ !! k)
      ∧ (fl = [] → fl' = [])) as Hloop.
  { intros fl0 Hfl0 files. run_step.
    destruct (remove_loop_frame f
                (Builtin.slice_from 10 (backupFiles_of f files)) p σ t n fl0)
      as (r & σ' & fl' & Hrun & Hk & Hnf).
    unfold mret, prog_ret. run_step. rewrite Hrun.
    exists σ', fl'. split; [by destruct r as [?|[]]|]. split; [done|].
    intros Hfl. by destruct (Hnf (Hfl0 Hfl)). }
  revert Hloop. unfold mret, prog_ret. intros Hloop.
  destruct fl as [|[] fl].
  - cbn. destruct (Fs.readdir σ (backupDir_of f)) as [e|files]; cbn.
    + run_step. by eexists _, _.
    + specialize (Hloop [] (λ _, eq_refl) files). revert Hloop. by run_step.
  - cbn. run_step. by eexists _, _.
  - cbn. destruct (Fs.readdir σ (backupDir_of f)) as [e|files]; cbn.
    + run_step. by eexists _, _.
    + specialize (Hloop fl (λ H, ltac:(done)) files). revert Hloop.
      by run_step.
Qed.

Ltac frame_call :=
  match goal with
  | |- context [run (call ?o) (?p, mkWorld ?s ?t ?n ?l)] =>
      let r := fresh "r" in
      let σ' := fresh "σ" in
      let fl' := fresh "fl" in
      let Hrun := fresh "Hrun" in
      let Hfl := fresh "Hfl" in
      let Hk := fresh "Hk" in
      destruct (call_frame o p s t n l eq_refl eq_refl)
        as (r & σ' & fl' & Hrun & Hfl & Hk);
      rewrite Hrun; clear Hrun; destruct r as [?|?]; run_seq
  end.

(** [createBackup] never raises, leaves the process alone, and changes
    the tree only below the backup directory (which it may create). *)
Lemma createBackup_frame (f : string) p σ t n fl :
  ∃ σ' fl',
    run (createBackup f) (p, mkWorld σ t n fl)
    = (inr tt, (p, mkWorld σ' t n fl'))
    ∧ (∀ k, String.prefix (backupDir_of f +:+ "/") k = false →
            k ≠ backupDir_of f ∨ is_Some (σ !! k) →
            σ' !! k = σ !! k)
    ∧ (fl = [] → fl' = [])
    ∧ (σ !! f = None → σ' = σ).
Proof.
  unfold createBackup. run_seq.
  unfold Fs.pathExists. destruct (σ !! f) as [x|] eqn:Ef.
  2: { rewrite bool_decide_false by (by intros [? ?]). run_seq.
       by eexists _, _. }
  rewrite bool_decide_true by done. run_seq.
  rewrite backupDir_join.
  set (bd := backupDir_of f).
  set (bf := bd +:+ "/" +:+ backup_prefix f +:+ Str.of_Z t).
  assert (∀ k, String.prefix (bd +:+ "/") k = false → k ≠ bf) as Hbf.
  { intros k Hp ->. unfold bf in Hp.
    by rewrite <- app_assoc_s, prefix_app in Hp. }
  frame_call.
  { eexists _, _. split; [done|]. split; [|split; [done|congruence]].
    intros k _ Hb. apply Hk. cbn. intros [-> Hn]. destruct Hb as [?|[? ?]];
      congruence. }
  frame_call.
  { eexists _, _. split; [done|]. split; [|split; [by auto|congruence]].
    intros k Hp Hb. rewrite Hk0 by (cbn; by apply Hbf). apply Hk. cbn.
    intros [-> Hn]. destruct Hb as [?|[? ?]]; congruence. }
  destruct (cleanOldBackups_frame f p σ1 t n fl1) as (σ' & fl' & -> & Hk' & Hfl').
  eexists _, _. split; [done|]. split; [|split; [by auto|congruence]].
  intros k Hp Hb. rewrite Hk' by done. rewrite Hk0 by (cbn; by apply Hbf).
  apply Hk. cbn. intros [-> Hn]. destruct Hb as [?|[? ?]]; congruence.
Qed.

(** ** The log of file-system calls *)

Lemma fs_log_on_outcome {A B} (m : prog A) (k : error + A → prog B) st :
  fs_log (on_outcome m k) st
  = (fs_log m st ++ let '(r, st') := run m st in fs_log (k r) st')%list.
Proof.
  revert st. induction m as [a|e|X o h IH]; intros st; try done.
  unfold on_outcome; fold (@on_outcome A B). unfold run; fold (@run A).
  cbn [fs_log]. destruct (exec o st) as [r st']. rewrite IH.
  by rewrite app_assoc.
Qed.

Lemma fs_log_bind {A B} (m : prog A) (k : A → prog B) st :
  fs_log (m ≫= k) st
  = (fs_log m st ++ match run m st with
                    | (inr a, st') => fs_log (k a) st'
                    | _ => []
                    end)%list.
Proof.
  unfold mbind, prog_bind, bind. rewrite fs_log_on_outcome.
  by destruct (run m st) as [[e|a] st'].
Qed.

Lemma fs_log_try_catch {A} (m : prog A) (h : error → prog A) st :
  fs_log (try_catch m h) st
  = (fs_log m st ++ match run m st with
                    | (inl e, st') => fs_log (h e) st'
                    | _ => []
                    end)%list.
Proof.
  unfold try_catch. rewrite fs_log_on_outcome.
  by destruct (run m st) as [[e|a] st'].
Qed.

Lemma fs_log_try_finally {A} (m : prog A) (f : prog unit) st :
  fs_log (try_finally m f) st
  = (fs_log m st ++ fs_log f (snd (run m st)))%list.
Proof.
  unfold try_finally. rewrite fs_log_on_outcome.
  destruct (run m st) as [r st']. f_equal. simpl.
  change (bind f ?k) with (f ≫= k). rewrite fs_log_bind.
  destruct (run f st') as [[e|[]] st'']; [by rewrite app_nil_r|].
  destruct r; by rewrite app_nil_r.
Qed.

End backup_frame.

(** ** A write that fails *)

Section failed_write.
Import Json Js FileOperations.

Lemma no_slash_of_uint (u : Decimal.uint) :
  no_slash (NilEmpty.string_of_uint u) = true.
Proof. induction u; simpl; done. Qed.

Lemma no_slash_of_Z (z : Z) : no_slash (Str.of_Z z) = true.
Proof. destruct z; simpl; try done; apply no_slash_of_uint. Qed.

Lemma no_slash_uuid_of (n : nat) : no_slash (uuid_of n) = true.
Proof. unfold uuid_of. rewrite no_slash_app. apply no_slash_of_uint. Qed.

Lemma tempFile_of_suffix f t n :
  tempFile_of f t (uuid_of n) = f +:+ temp_suffix t n.
Proof. done. Qed.

Lemma no_slash_temp_suffix t n : no_slash (temp_suffix t n) = true.
Proof.
  unfold temp_suffix. rewrite !no_slash_app, no_slash_of_Z, no_slash_uuid_of.
  done.
Qed.

Lemma temp_suffix_length t n : (11 ≤ String.length (temp_suffix t n))%nat.
Proof.
  unfold temp_suffix, uuid_of. rewrite !length_app. simpl. lia.
Qed.

Lemma under_longer (q k : string) :
  (String.length k < String.length q)%nat → Paths.under q k = false.
Proof.
  intros H. unfold Paths.under. apply orb_false_intro.
  - apply eqb_false_length. lia.
  - apply prefix_false_length. rewrite length_app. simpl. lia.
Qed.

Lemma under_sibling (f a b : string) :
  String.eqb a b = false → String.prefix (a +:+ "/") b = false →
  Paths.under (f +:+ a) (f +:+ b) = false.
Proof.
  intros Hab Hp. unfold Paths.under. apply orb_false_intro.
  - apply String.eqb_neq. intros H%(inj (String.append f)).
    apply String.eqb_neq in Hab. done.
  - by rewrite app_assoc_s, prefix_app_same.
Qed.

Lemma temp_suffix_head t n :
  ∃ r, temp_suffix t n = String "." (String "t" r).
Proof. by eexists. Qed.

Lemma fs_log_call {X} (o : op X) st :
  fs_log (call o) st
  = (λ c, (c, match fst (exec o st) with inl _ => false | inr _ => true end))
      <$> fs_call_of o.
Proof.
  unfold call. cbn [fs_log]. destruct (exec o st) as [[e|x] st']; cbn;
    by rewrite app_nil_r.
Qed.

(** [fs.remove] either is rejected, and logged so, or removes. *)
Lemma call_Remove q p σ t n fl :
  ∃ fl', (fl = [] → fl' = []) ∧
    ((run (call (Remove q)) (p, mkWorld σ t n fl)
      = (inr tt, (p, mkWorld (Fs.remove σ q) t n fl'))
      ∧ fs_log (call (Remove q)) (p, mkWorld σ t n fl) = [(CRemove q, true)])
     ∨ (run (call (Remove q)) (p, mkWorld σ t n fl)
        = (inl (IOError Fs.EIO), (p, mkWorld σ t n fl'))
        ∧ fs_log (call (Remove q)) (p, mkWorld σ t n fl) = [(CRemove q, false)])).
Proof.
  rewrite run_call, fs_log_call.
  destruct fl as [|[] fl]; cbn; [exists []|exists fl|exists fl];
    (split; [done|]); eauto.
Qed.

(** The [catch] block of [atomicWrite]. *)
Lemma cleanup_spec (temp : string) (e : error) p σ t n fl :
  ∃ σ' fl',
    run (cleanup temp e) (p, mkWorld σ t n fl)
    = (inl (AtomicWriteFailed e), (p, mkWorld σ' t n fl'))
    ∧ (fl = [] → fl' = [])
    ∧ (∀ k, Paths.under temp k = false → σ' !! k = σ !! k)
    ∧ ((CRemove temp, false) ∉ fs_log (cleanup temp e) (p, mkWorld σ t n fl) →
       σ' !! temp = None).
Proof.
  unfold cleanup. rewrite fs_log_bind, fs_log_try_catch.
  run_seq.
  destruct (call_Remove temp p σ t n fl) as (fl' & Hfl & [[-> ->]|[-> ->]]);
    run_seq; eexists _, _; (split; [done|]); (split; [done|]).
  - split; [intros k Hk; by apply remove_lookup_other|].
    intros _. apply remove_lookup_self.
  - split; [done|]. intros Hn. destruct Hn. cbn. set_solver.
Qed.

Lemma move_clear_inr (σ σ1 : Fs.tree) (a b : string) :
  Fs.move_clear σ a b = inr σ1 → σ1 = Fs.remove σ b.
Proof.
  unfold Fs.move_clear. destruct (String.eqb a b); [done|].
  destruct (σ !! a) as [[?|]|]; try done.
  destruct (σ !! b) as [[?|]|]; try done; by intros [= <-].
Qed.

(** A primitive that rejects has changed nothing, unless it is a move
    whose rename was rejected: the destination is then gone. *)
Lemma call_rejected {X} (o : op X) st e st' :
  run (call o) st = (inl e, st') →
  fst st' = fst st
  ∧ (fs (snd st') = fs (snd st)
     ∨ ∃ src dst, fs_call_of o = [CMove src dst]
                  ∧ fs (snd st') = Fs.remove (fs (snd st)) dst).
Proof.
  rewrite run_call. destruct st as [p [σ t n fl]].
  destruct o; cbn; try done.
  5: { unfold io; cbn. destruct fl as [|[] fl]; cbn;
         try (intros [= <- <-]; by auto).
       all: destruct (Fs.move_clear σ src dst) as [?|σ1] eqn:E1; cbn;
         try (intros [= <- <-]; by auto).
       all: apply move_clear_inr in E1 as ->.
       2: destruct fl as [|[] fl]; cbn;
            try (intros [= <- <-]; split; [done|]; right; by eexists _, _).
       all: destruct (Fs.rename _ src dst); cbn; try done;
         intros [= <- <-]; split; [done|]; right; by eexists _, _. }
  all: unfold io; cbn; destruct fl as [|[] fl]; cbn;
    try (intros [= <- <-]; by auto).
  all: match goal with |- context [match ?x with _ => _ end] =>
         destruct x as [?|[? ?]] eqn:E end; cbn;
       try (intros [= <- <-]; by auto).
  all: by destruct (Fs.readFile _ _) + destruct (Fs.readdir _ _)
       + destruct (Fs.writeFile _ _ _) + destruct (Fs.copy _ _ _)
       + destruct (Fs.ensureDir _ _) + idtac.
Qed.

Ltac step_call :=
  match goal with
  | |- context [run (call ?o) (?p, mkWorld ?s ?t ?n ?l)] =>
      let r := fresh "r" in
      let σ' := fresh "σ" in
      let fl' := fresh "fl" in
      let Hrun := fresh "Hrun" in
      let Hfl := fresh "Hfl" in
      let Hk := fresh "Hk" in
      let Hrej := fresh "Hrej" in
      destruct (call_frame o p s t n l eq_refl eq_refl)
        as (r & σ' & fl' & Hrun & Hfl & Hk);
      pose proof (λ e, call_rejected o (p, mkWorld s t n l) e
                         (p, mkWorld σ' t n fl')) as Hrej;
      rewrite Hrun in Hrej |- *; clear Hrun; destruct r as [?|?];
      [specialize (Hrej _ eq_refl) as [_ [Hrej|(? & ? & Hrej & _)]];
       [cbn in Hrej; subst σ'|discriminate Hrej]
      |clear Hrej];
      run_seq
  end.

(** [fs.move]: its log has one entry; when it is rejected the tree is
    as before or has lost the destination. *)
Lemma call_Move (a b : string) p σ t n fl :
  ∃ r σ' fl',
    run (call (Move a b)) (p, mkWorld σ t n fl) = (r, (p, mkWorld σ' t n fl'))
    ∧ (fl = [] → fl' = [])
    ∧ fs_log (call (Move a b)) (p, mkWorld σ t n fl)
      = [(CMove a b, match r with inl _ => false | inr _ => true end)]
    ∧ (∀ k, k ≠ a → Paths.under b k = false → σ' !! k = σ !! k)
    ∧ (∀ e, r = inl e → σ' = σ ∨ σ' = Fs.remove σ b).
Proof.
  destruct (call_frame (Move a b) p σ t n fl eq_refl eq_refl)
    as (r & σ' & fl' & Hrun & Hfl & Hk).
  exists r, σ', fl'. split; [done|]. split; [done|]. split; [|split].
  - rewrite fs_log_call, <- run_call, Hrun. by destruct r.
  - intros k Hka Hkb. apply Hk. cbn. intros [?|?]; congruence.
  - intros e ->. apply call_rejected in Hrun as [_ [H|(src & dst & [= <- <-] & H)]];
      cbn in H; auto.
Qed.

Ltac commit_done :=
  eexists _, _, _; (split; [done|]); (split; [by auto|]);
  split; [intros; left|intros];
  repeat match goal with
    | H : ∀ k, ¬ op_writes _ _ k → _ |- _ =>
        rewrite H by (cbn; tauto)
    end; done.

(** The [try] block of [atomicWrite]: when it fails, the document is as
    it was, unless the move was rejected after it had removed the
    document. *)
Lemma commit_outcome (f s : string) (ds : option string) p σ t n fl :
  no_slash s = true → (1 ≤ String.length s)%nat →
  ∃ r σ' fl',
    run (commit f (f +:+ s) ds) (p, mkWorld σ t n fl)
    = (r, (p, mkWorld σ' t n fl'))
    ∧ (fl = [] → fl' = [])
    ∧ (∀ e, r = inl e → σ' !! f = σ !! f ∨ σ' !! f = None)
    ∧ (∀ e, r = inl e →
         (CMove (f +:+ s) f, false)
           ∉ fs_log (commit f (f +:+ s) ds) (p, mkWorld σ t n fl) →
         σ' !! f = σ !! f).
Proof.
  intros Hs Hlen. unfold commit. rewrite fs_log_bind. run_seq.
  destruct (createBackup_frame f p σ t n fl)
    as (σ1 & fl1 & -> & Hk1 & Hfl1 & Hnone).
  run_seq.
  assert (σ1 !! f = σ !! f) as Hf1.
  { destruct (σ !! f) as [x|] eqn:Ef; [|by rewrite Hnone].
    rewrite <- Ef. apply Hk1; [|right; by rewrite Ef].
    rewrite <- (app_empty_r f) at 2. by apply not_below_backupDir. }
  assert (f ≠ f +:+ s) as Hne.
  { intros H. apply (f_equal String.length) in H. rewrite length_app in H. lia. }
  rewrite fs_log_bind.
  destruct ds as [d|]; run_seq; [|commit_done].
  step_call; [commit_done|].
  assert (∀ σ2 fl2, σ2 !! f = σ !! f → (fl = [] → fl2 = []) →
    ∃ r σ' fl',
      run (call (Move (f +:+ s) f)) (p, mkWorld σ2 t n fl2)
      = (r, (p, mkWorld σ' t n fl'))
      ∧ (fl = [] → fl' = [])
      ∧ (∀ e, r = inl e → σ' !! f = σ !! f ∨ σ' !! f = None)
      ∧ (∀ e, r = inl e →
           (CMove (f +:+ s) f, false)
             ∉ fs_log (call (Move (f +:+ s) f)) (p, mkWorld σ2 t n fl2) →
           σ' !! f = σ !! f)) as Hmove.
  { intros σ2 fl2 Hf2 Hfl2.
    destruct (call_Move (f +:+ s) f p σ2 t n fl2)
      as (r & σ' & fl' & Hrun & Hfl' & Hlog & _ & Hrej).
    exists r, σ', fl'. split; [done|]. split; [by auto|]. split.
    - intros e He. destruct (Hrej e He) as [->| ->]; [by left|right].
      apply remove_lookup_self.
    - intros e He Hn. destruct Hn. rewrite Hlog, He. by left. }
  assert (σ0 !! f = σ !! f) as Hf0 by (rewrite Hk by (cbn; done); done).
  rewrite fs_log_bind.
  destruct (Str.endsWith f ".json"); run_seq.
  2: { destruct (Hmove σ0 fl0 Hf0) as (r & σ' & fl' & -> & Hfl' & Ha & Hb);
         [by auto|].
       exists r, σ', fl'. split; [done|]. split; [done|]. split; [done|].
       intros e He Hn. apply (Hb e He). intros Hin. apply Hn.
       rewrite !elem_of_app. auto. }
  step_call; [commit_done|].
  unfold JSON_parse. destruct (parse _); run_seq; [|commit_done].
  destruct (Hmove σ2 fl2) as (r & σ' & fl' & -> & Hfl' & Ha & Hb);
    [by rewrite Hk0 by (cbn; tauto)|by auto|].
  exists r, σ', fl'. split; [done|]. split; [done|]. split; [done|].
  intros e He Hn. apply (Hb e He). intros Hin. apply Hn.
  rewrite !elem_of_app. auto.
Qed.


(** The [try], [catch] and [finally] of [atomicWrite] together. *)
Lemma guarded_write_outcome (f : string) (ds : option string)
    (lockId : string) p σ t n n0 fl :
  let temp := f +:+ temp_suffix t n0 in
  let m := try_finally (try_catch (commit f temp ds) (cleanup temp))
                       (releaseLock f lockId) in
  ∃ r p' σ' fl',
    run m (p, mkWorld σ t n fl) = (r, (p', mkWorld σ' t n fl'))
    ∧ (∀ e, r = inl e →
         (σ' !! f = σ !! f ∨ σ' !! f = None)
         ∧ ((CMove temp f, false) ∉ fs_log m (p, mkWorld σ t n fl) →
            σ' !! f = σ !! f)
         ∧ ((CRemove temp, false) ∉ fs_log m (p, mkWorld σ t n fl) →
            σ' !! temp = None)).
Proof.
  intros temp m. unfold m.
  rewrite fs_log_try_finally, fs_log_try_catch. run_seq.
  destruct (commit_outcome f (temp_suffix t n0) ds p σ t n fl)
    as (r & σ1 & fl1 & Hrun & _ & Hf1 & Hmv).
  { apply no_slash_temp_suffix. }
  { pose proof (temp_suffix_length t n0). lia. }
  fold temp in Hrun. rewrite Hrun.
  assert (∀ σ2 fl2 (r2 : error + unit),
    ∃ p' σ' fl',
      (let '(r, st') := run (releaseLock f lockId) (p, mkWorld σ2 t n fl2) in
       match r with inl e => (inl e, st') | inr _ => (r2, st') end)
      = (r2, (p', mkWorld σ' t n fl'))
      ∧ σ' !! f = σ2 !! f ∧ σ' !! temp = σ2 !! temp) as Hrel.
  { intros σ2 fl2 r2. pose proof (releaseLock_total f lockId (p, mkWorld σ2 t n fl2)) as Htot.
    unfold releaseLock in *. revert Htot. run_seq.
    destruct (locks p !! f) as [info|]; run_seq; [|by eexists _, _, _].
    destruct (String.eqb _ _); run_seq; [|by eexists _, _, _].
    step_call; intros _; eexists _, _, _; (split; [done|]); [done|].
    assert (Paths.under (f +:+ ".lock") f = false) as Hu1.
    { apply under_longer. rewrite length_app. simpl. lia. }
    assert (Paths.under (f +:+ ".lock") temp = false) as Hu2.
    { unfold temp. by apply under_sibling. }
    rewrite !Hk by (cbn; congruence). done. }
  destruct r as [e|[]]; cbn [snd].
  - destruct (cleanup_spec temp e p σ1 t n fl1)
      as (σ2 & fl2 & Hc & _ & Hk2 & Hlog).
    rewrite Hc. destruct (Hrel σ2 fl2 (inl (AtomicWriteFailed e)))
      as (p' & σ' & fl' & Hr & Hf & Ht).
    rewrite Hr. eexists _, _, _, _. split; [done|].
    assert (σ' !! f = σ1 !! f) as Hf'.
    { rewrite Hf, Hk2; [done|]. apply under_longer. unfold temp.
      rewrite length_app. pose proof (temp_suffix_length t n0). lia. }
    intros e0 _. rewrite Hf'. split; [by apply (Hf1 e)|]. split.
    + intros Hn. apply (Hmv e eq_refl). intros Hin. apply Hn.
      apply elem_of_app. left. apply elem_of_app. by left.
    + intros Hn. rewrite Ht. apply Hlog. intros Hin. apply Hn.
      apply elem_of_app. left. apply elem_of_app. by right.
  - destruct (Hrel σ1 fl1 (inr tt)) as (p' & σ' & fl' & Hr & Hf & Ht).
    rewrite Hr. eexists _, _, _, _. split; [done|]. done.
Qed.

(** [atomicWrite], by cases on the check of the lock and on the
    serialisation: its result and its log. *)
Lemma atomicWrite_cases (f : string) (data : jsval) (lockId : string)
    p σ t n fl :
  let st := (p, mkWorld σ t n fl) in
  let st1 := (p, mkWorld σ t (S n) fl) in
  let temp := tempFile_of f t (uuid_of n) in
  (holds_lock p f lockId = false
   ∧ run (atomicWrite f data lockId) st = (inl NoLock, st))
  ∨ (holds_lock p f lockId = true ∧ dataString_of data = None
     ∧ run (atomicWrite f data lockId) st = (inl TypeError, st1))
  ∨ (∃ ds, holds_lock p f lockId = true ∧ dataString_of data = Some ds
     ∧ run (atomicWrite f data lockId) st
       = run (guarded_write f temp ds lockId) st1
     ∧ fs_log (atomicWrite f data lockId) st
       = fs_log (guarded_write f temp ds lockId) st1).
Proof.
  intros st st1 temp. unfold st, st1, atomicWrite, holds_lock, guarded_write.
  rewrite !fs_log_bind.
  repeat (progress (rewrite ?run_bind, ?run_ret, ?run_throw, ?run_LocksGet,
                      ?run_DateNow, ?run_Uuidv4; cbn)).
  rewrite !fs_log_call. cbn [fs_call_of fmap list_fmap app].
  destruct (locks p !! f) as [info|]; [|by left].
  destruct (String.eqb (li_lockId info) lockId); [|by left].
  right.
  repeat (progress (rewrite ?run_bind, ?fs_log_bind, ?run_ret, ?run_throw,
                      ?run_LocksGet, ?run_DateNow, ?run_Uuidv4,
                      ?fs_log_call; cbn)).
  destruct data as [[]| |]; cbn;
    repeat (progress (rewrite ?run_bind, ?fs_log_bind, ?run_ret, ?run_throw;
                      cbn));
    first [by left | right; by eexists].
Qed.

(** C4, amended. Whatever makes [atomicWrite] fail (no lock or another
    lock, a value that cannot be serialised, a temp file that fails the
    JSON check, a primitive that is rejected at any point), the document
    is then exactly as before the call, provided the call that was
    rejected is not the move of the temp file over the document: the
    move removes the document before it renames the temp file. The temp
    file of the call, whose name was unused, does not exist afterwards,
    unless the removal of the temp file in the [catch] block was itself
    rejected (that error is ignored by the code). *)
Theorem failed_write_leaves_target
    (filePath : string) (data : jsval) (lockId : string)
    (p : Proc) (σ : Fs.tree) (t : Z) (n : nat) (fl : list bool)
    (e : error) (p' : Proc) (w' : World) :
  let st := (p, mkWorld σ t n fl) in
  let temp := tempFile_of filePath t (uuid_of n) in
  run (atomicWrite filePath data lockId) st = (inl e, (p', w')) →
  ((CMove temp filePath, false) ∉ fs_log (atomicWrite filePath data lockId) st →
   fs w' !! filePath = σ !! filePath)
  ∧ (σ !! temp = None →
     (CRemove temp, false) ∉ fs_log (atomicWrite filePath data lockId) st →
     fs w' !! temp = None).
Proof.
  intros st temp. unfold st.
  destruct (atomicWrite_cases filePath data lockId p σ t n fl)
    as [[_ ->]|[(_ & _ & ->)|(ds & _ & _ & -> & ->)]].
  - intros [= <- <- <-]. auto.
  - intros [= <- <- <-]. auto.
  - unfold guarded_write. intros Hrun.
    destruct (guarded_write_outcome filePath ds lockId p σ t (S n) n fl)
      as (r & p1 & σ' & fl' & Hrun' & Hout).
    unfold temp in *. rewrite tempFile_of_suffix in *.
    rewrite Hrun' in Hrun. injection Hrun as -> <- <-.
    destruct (Hout e eq_refl) as (_ & Hm & Ht). auto.
Qed.

End failed_write.

Section failed_write_examples.
Import Json Js FileOperations Example.

(** C4, as stated, fails in its second half: the write fails, the
    document is untouched, and the temp file is still there, because its
    removal was rejected and the code ignores that. *)
Lemma failed_write_can_leave_temp_file :
  fs HeldLock.world !! TornWrite.temp = None
  ∧ fst TornWrite.write = inl (AtomicWriteFailed SyntaxError)
  ∧ fs (snd (snd TornWrite.write)) !! doc = fs HeldLock.world !! doc
  ∧ fs (snd (snd TornWrite.write)) !! TornWrite.temp
    = Some (Fs.File "{ tasks: ").
Proof. vm_compute. repeat split; done. Qed.

(** When the rename inside the move is rejected, the write fails and
    the document, which held the empty list, is gone. *)
Lemma failed_write_can_lose_target :
  fs HeldLock.world !! doc = Some (Fs.File "[]")
  ∧ fst LostWrite.write = inl (AtomicWriteFailed (IOError Fs.EIO))
  ∧ fs (snd (snd LostWrite.write)) !! doc = None
  ∧ (CMove GoodWrite.temp doc, false)
    ∈ fs_log (atomicWrite doc (VJson GoodWrite.tasks) (uuid_of 0))
             (HeldLock.holder, set_faults LostWrite.schedule HeldLock.world).
Proof.
  vm_compute. repeat split; try done.
  repeat first [by left | right].
Qed.

Lemma failed_write_leaves_target_witness :
  fs (snd (snd HeldLock.write_invalid)) !! doc = fs HeldLock.world !! doc
  ∧ fs (snd (snd HeldLock.write_invalid)) !! TornWrite.temp = None.
Proof.
  assert (run (atomicWrite doc (VJson (JStr "{ tasks: ")) (uuid_of 0))
              (HeldLock.holder, mkWorld (fs HeldLock.world) 5 1 [])
          = (inl (AtomicWriteFailed SyntaxError),
             (fst (snd HeldLock.write_invalid),
              snd (snd HeldLock.write_invalid)))) as Hrun
    by (vm_compute; reflexivity).
  destruct (failed_write_leaves_target _ _ _ _ _ _ _ _ _ _ _ Hrun)
    as (Hdoc & Htemp).
  split.
  - apply Hdoc. vm_compute. intros Hin.
    repeat (apply elem_of_cons in Hin as [Hin|Hin]; [discriminate Hin|]).
    by apply elem_of_nil in Hin.
  - apply Htemp; [vm_compute; reflexivity|].
    vm_compute. intros Hin.
    repeat (apply elem_of_cons in Hin as [Hin|Hin]; [discriminate Hin|]).
    by apply elem_of_nil in Hin.
Defined.

End failed_write_examples.

(** ** A write that succeeds *)

Section successful_write.
Import Json Js FileOperations.

Lemma split_last_join (d x : string) :
  no_slash x = true → Paths.split_last (d +:+ "/" +:+ x) = (Some d, x).
Proof.
  intros Hx. induction d as [|c d IH].
  - rewrite app_empty_l, app_cons, app_empty_l. simpl.
    by rewrite split_last_no_slash.
  - rewrite app_cons. simpl. by rewrite IH.
Qed.

Lemma basename_backupDir (f : string) :
  Paths.basename (backupDir_of f) = ".backups".
Proof.
  unfold backupDir_of, Paths.join, Paths.basename.
  destruct (String.eqb_spec (Paths.dirname f) EmptyString); [done|].
  destruct (String.eqb_spec (Paths.dirname f) "."); [done|]. simpl.
  destruct (String.eqb_spec (Paths.dirname f) "/"); [done|].
  by rewrite split_last_join.
Qed.

Lemma sibling_not_backupDir (f s : string) :
  no_slash s = true → (9 ≤ String.length s)%nat → f +:+ s ≠ backupDir_of f.
Proof.
  intros Hs Hlen Heq.
  pose proof (basename_backupDir f) as Hb. rewrite <- Heq in Hb.
  unfold Paths.basename in Hb. rewrite split_last_app in Hb by done.
  simpl in Hb. apply (f_equal String.length) in Hb. rewrite length_app in Hb.
  simpl in Hb. lia.
Qed.

Lemma lock_not_backupDir (f : string) : f +:+ ".lock" ≠ backupDir_of f.
Proof.
  intros Heq.
  pose proof (basename_backupDir f) as Hb. rewrite <- Heq in Hb.
  unfold Paths.basename in Hb. rewrite split_last_app in Hb by done.
  simpl in Hb. pose proof (f_equal String.length Hb) as Hlen.
  rewrite length_app in Hlen. simpl in Hlen.
  destruct (snd (Paths.split_last f)) as [|c1 [|c2 [|c3 [|c4 b]]]];
    simpl in Hlen; try lia.
  rewrite !app_cons, app_empty_l in Hb. congruence.
Qed.

Lemma under_suffix (f s : string) :
  no_slash s = true → (1 ≤ String.length s)%nat →
  Paths.under f (f +:+ s) = false.
Proof.
  intros Hs Hlen. rewrite <- (app_empty_r f) at 1. apply under_sibling.
  - destruct s; [simpl in Hlen; lia|done].
  - rewrite app_empty_l. destruct s as [|c s]; [done|].
    rewrite prefix_cons. simpl in Hs. apply andb_prop in Hs as [Hc _].
    destruct (Ascii.ascii_dec "/" c) as [<-|]; done.
Qed.

(** The move of a file over a path that is not a directory, when
    nothing is rejected. *)
Lemma move_no_fault (a b c : string) p σ t n :
  a ≠ b → Paths.under b a = false →
  σ !! a = Some (Fs.File c) → σ !! b ≠ Some Fs.Dir →
  run (call (Move a b)) (p, mkWorld σ t n [])
  = (inr tt, (p, mkWorld (<[b := Fs.File c]> (delete a (Fs.remove σ b))) t n [])).
Proof.
  intros Hne Hu Ha Hb. rewrite run_call. cbn. unfold io. cbn.
  unfold Fs.move_clear. rewrite (proj2 (String.eqb_neq a b) Hne), Ha.
  assert (match σ !! b with
          | Some Fs.Dir => @inl Fs.errno Fs.tree Fs.EISDIR
          | _ => inr (Fs.remove σ b)
          end = inr (Fs.remove σ b)) as ->.
  { by destruct (σ !! b) as [[]|]. }
  cbn. unfold Fs.rename.
  rewrite remove_lookup_other, Ha by done.
  by rewrite remove_lookup_self.
Qed.

(** What [commit] does once the backup is taken, when nothing is
    rejected: the temp file is written, checked, and moved over the
    document. *)
Lemma commit_no_fault (f s d : string) p σ σ1 t n :
  no_slash s = true → (1 ≤ String.length s)%nat →
  run (createBackup f) (p, mkWorld σ t n []) = (inr tt, (p, mkWorld σ1 t n [])) →
  σ1 !! (f +:+ s) = None →
  σ1 !! f ≠ Some Fs.Dir →
  (Str.endsWith f ".json" = true → is_Some (parse d)) →
  run (commit f (f +:+ s) (Some d)) (p, mkWorld σ t n [])
  = (inr tt,
     (p, mkWorld (<[f := Fs.File d]>
                    (delete (f +:+ s) (Fs.remove (<[f +:+ s := Fs.File d]> σ1) f)))
                 t n [])).
Proof.
  intros Hs Hlen Hb Htemp Hdir Hjson. unfold commit. run_seq. rewrite Hb.
  run_step. unfold Fs.writeFile. rewrite Htemp. run_step.
  assert (f +:+ s ≠ f) as Hne.
  { intros H%(f_equal String.length). rewrite length_app in H. lia. }
  assert (run (call (Move (f +:+ s) f))
              (p, mkWorld (<[f +:+ s := Fs.File d]> σ1) t n [])
          = (inr tt,
             (p, mkWorld (<[f := Fs.File d]>
                            (delete (f +:+ s)
                               (Fs.remove (<[f +:+ s := Fs.File d]> σ1) f)))
                         t n []))) as Hmove.
  { apply move_no_fault; [done|by apply under_suffix|apply lookup_insert_eq|].
    by rewrite lookup_insert_ne. }
  rewrite run_call in Hmove.
  destruct (Str.endsWith f ".json"); run_step.
  - unfold Fs.readFile. rewrite lookup_insert_eq. run_step.
    unfold JSON_parse. destruct (Hjson eq_refl) as [v ->]. run_step.
    cbn in Hmove. by rewrite Hmove.
  - cbn in Hmove. by rewrite Hmove.
Qed.

Lemma holds_lock_table p f lockId :
  holds_lock p f lockId = true → li_lockId <$> locks p !! f = Some lockId.
Proof.
  unfold holds_lock. destruct (locks p !! f) as [info|]; [|done].
  intros H%String.eqb_eq. simpl. by rewrite H.
Qed.

(** What a granted write leaves, in full, when nothing is rejected. *)
Lemma atomicWrite_no_fault (f : string) (data : jsval) (lockId d : string)
    p σ t n :
  let temp := f +:+ temp_suffix t n in
  holds_lock p f lockId = true →
  dataString_of data = Some (Some d) →
  σ !! temp = None →
  σ !! f ≠ Some Fs.Dir →
  (Str.endsWith f ".json" = true → is_Some (parse d)) →
  ∃ σ1,
    run (createBackup f) (p, mkWorld σ t (S n) [])
    = (inr tt, (p, mkWorld σ1 t (S n) []))
    ∧ run (atomicWrite f data lockId) (p, mkWorld σ t n [])
      = (inr tt,
         (mkProc (delete f (locks p)) (timers p) (env_worker_id p) (cwd p) (pid p),
          mkWorld (Fs.remove
                     (<[f := Fs.File d]>
                        (delete temp (Fs.remove (<[temp := Fs.File d]> σ1) f)))
                     (f +:+ ".lock"))
                  t (S n) [])).
Proof.
  intros temp Hlock Hds Htemp Hdir Hjson.
  destruct (createBackup_frame f p σ t (S n) [])
    as (σ1 & fl1 & Hb & Hk & Hfl & Hsame).
  rewrite (Hfl eq_refl) in Hb. exists σ1. split; [done|].
  assert (σ1 !! f = σ !! f) as Hf1.
  { destruct (σ !! f) as [x|] eqn:Ef; [|by rewrite Hsame].
    rewrite <- Ef. apply Hk; [|right; by rewrite Ef].
    rewrite <- (app_empty_r f) at 2. by apply not_below_backupDir. }
  destruct (atomicWrite_cases f data lockId p σ t n [])
    as [[Hno _]|[(_ & Hnone & _)|(ds & _ & Hds' & -> & _)]]; [congruence..|].
  assert (ds = Some d) as -> by congruence.
  rewrite tempFile_of_suffix. unfold temp in *.
  unfold guarded_write. run_seq.
  assert (σ1 !! (f +:+ temp_suffix t n) = None) as Htemp1.
  { rewrite Hk; [done| |left].
    - apply not_below_backupDir, no_slash_temp_suffix.
    - apply sibling_not_backupDir; [apply no_slash_temp_suffix|].
      pose proof (temp_suffix_length t n). lia. }
  rewrite (commit_no_fault f (temp_suffix t n) d p σ σ1 t (S n)); try done.
  - run_seq. apply holds_lock_table in Hlock.
    rewrite (releaseLock_match f lockId p _ t (S n)) by done. done.
  - apply no_slash_temp_suffix.
  - pose proof (temp_suffix_length t n). lia.
  - by rewrite Hf1.
Qed.

End successful_write.

(** ** What a write does *)

Section write_spec.
Import Json Js FileOperations.


(** X2. Without the lock (no entry for the path in the table of the
    process, or an entry under another identifier) [atomicWrite] fails
    with the "no lock" error before it touches anything: the whole state
    is as before, whatever the data and the fault schedule. *)
Theorem write_without_lock_changes_nothing
    (filePath : string) (data : jsval) (lockId : string)
    (p : Proc) (w : World) :
  holds_lock p filePath lockId = false →
  run (atomicWrite filePath data lockId) (p, w) = (inl NoLock, (p, w)).
Proof.
  intros Hno. destruct w as [σ t n fl].
  destruct (atomicWrite_cases filePath data lockId p σ t n fl)
    as [[_ ->]|[(Hyes & _)|(ds & Hyes & _)]]; [done|congruence..].
Qed.

End write_spec.

Section write_spec_witness.
Import Json Js FileOperations Example.


Lemma write_without_lock_changes_nothing_witness :
  run (atomicWrite doc (VJson GoodWrite.tasks) (uuid_of 0))
      (zephyr, HeldLock.world)
  = (inl NoLock, (zephyr, HeldLock.world)).
Proof.
  apply write_without_lock_changes_nothing. vm_compute; reflexivity.
Defined.

End write_spec_witness.

(** ** Reading never raises *)

Section never_raises.
Import Json Js FileOperations.

Lemma never_raises_ret {A} (a : A) : never_raises (Ret a).
Proof. intros st. by eexists _, _. Qed.

Lemma never_raises_bind {A B} (m : prog A) (k : A → prog B) :
  never_raises m → (∀ a, never_raises (k a)) → never_raises (m ≫= k).
Proof.
  intros Hm Hk st. rewrite run_bind.
  destruct (Hm st) as (a & st' & ->). apply Hk.
Qed.

Lemma never_raises_try_catch {A} (m : prog A) (h : error → prog A) :
  (∀ e, never_raises (h e)) → never_raises (try_catch m h).
Proof.
  intros Hh st. rewrite run_try_catch.
  destruct (run m st) as [[e|a] st']; [apply Hh|by eexists _, _].
Qed.

Lemma never_raises_PathExists f : never_raises (call (PathExists f)).
Proof. intros st. rewrite run_PathExists. by eexists _, _. Qed.

Lemma never_raises_DateNow : never_raises (call DateNow).
Proof. intros st. rewrite run_DateNow. by eexists _, _. Qed.

Lemma never_raises_getDefaultStructure f : never_raises (getDefaultStructure f).
Proof.
  unfold getDefaultStructure.
  repeat match goal with |- context [if ?c then _ else _] => destruct c end;
    try apply never_raises_ret;
    (apply never_raises_bind; [apply never_raises_DateNow|]);
    intros ?; apply never_raises_ret.
Qed.

Lemma never_raises_restoreFromBackup f : never_raises (restoreFromBackup f).
Proof.
  unfold restoreFromBackup.
  apply never_raises_bind; [apply never_raises_PathExists|].
  intros present. destruct (negb present); [apply never_raises_ret|].
  apply never_raises_try_catch. intros _. apply never_raises_ret.
Qed.

(** X3. [safeJSONRead] and [restoreFromBackup] always return a value:
    whatever the tree holds and whichever primitives are rejected, every
    error is caught on the way. *)
Theorem safe_read_never_raises (filePath : string) :
  never_raises (safeJSONRead filePath)
  ∧ never_raises (restoreFromBackup filePath).
Proof.
  split; [|apply never_raises_restoreFromBackup].
  unfold safeJSONRead. apply never_raises_try_catch. intros _.
  apply never_raises_bind.
  { apply never_raises_try_catch. intros _. apply never_raises_ret. }
  intros [recovered|]; [apply never_raises_ret|].
  apply never_raises_bind; [apply never_raises_restoreFromBackup|].
  intros backupData. destruct (truthy backupData);
    [apply never_raises_ret|apply never_raises_getDefaultStructure].
Qed.

(** X4. Reading a document whose text is JSON returns the parsed value
    and has no effect at all: no lock is taken, no timer set, no file
    written. *)
Theorem safe_read_of_valid_document
    (filePath content : string) (v : json) (p : Proc) (σ : Fs.tree)
    (t : Z) (n : nat) :
  σ !! filePath = Some (Fs.File content) →
  parse content = Some v →
  run (safeJSONRead filePath) (p, mkWorld σ t n [])
  = (inr v, (p, mkWorld σ t n []))
  ∧ fs_log (safeJSONRead filePath) (p, mkWorld σ t n [])
    = [(CReadFile filePath, true)].
Proof.
  intros Hf Hp. unfold safeJSONRead.
  rewrite fs_log_try_catch, fs_log_bind, fs_log_call. run_step.
  unfold Fs.readFile. rewrite Hf. run_step.
  unfold JSON_parse. rewrite Hp. run_step. done.
Qed.

End never_raises.

Section safe_read_witness.
Import Json Js FileOperations.

Lemma safe_read_of_valid_document_witness :
  fst (run (safeJSONRead Example.doc)
         (Example.alex, mkWorld Reclaim.free_tree 5 1 []))
  = inr (JArr []).
Proof.
  refine (f_equal fst (proj1 (safe_read_of_valid_document Example.doc _ _
            Example.alex Reclaim.free_tree 5 1 _ _))).
  - vm_compute; reflexivity.
  - vm_compute; reflexivity.
Defined.

End safe_read_witness.

(** ** Locks in sequence *)

Section lock_sequences.
Import Json Js FileOperations.

(** [acquireLock] on a path that has no lock file. *)
Lemma acquireLock_free (f : string) (timeout : Z) p σ t n :
  σ !! (f +:+ ".lock") = None →
  run (acquireLock f timeout) (p, mkWorld σ t n [])
  = (inr (uuid_of n),
     (mkProc (<[f := LockInfo (uuid_of n) (f +:+ ".lock")]> (locks p))
             (timers p ++ [Timer t (clamp_delay timeout) f (uuid_of n)])
             (env_worker_id p) (cwd p) (pid p),
      mkWorld (<[f +:+ ".lock" :=
                   Fs.File (stringify
                     (lock_record (uuid_of n) (workerId_of p (mkWorld σ t (S n) []))
                                  t (pid p)))]> σ)
              t (S n) [])).
Proof.
  intros Hl. unfold acquireLock. run_seq.
  rewrite check_lock_absent by done. cbn.
  rewrite grant_lock_no_fault by (by rewrite Hl). done.
Qed.

(** [acquireLock] on a path whose lock file is not older than the
    timeout. *)
Lemma acquireLock_live (f : string) (timeout : Z) p σ t n
    (content : string) (lockData : json) (ts : Z) (owner : option json) :
  σ !! (f +:+ ".lock") = Some (Fs.File content) →
  parse content = Some lockData →
  get lockData "timestamp" = Some (Some (JInt ts)) →
  get lockData "workerId" = Some owner →
  t - ts ≤ timeout →
  run (acquireLock f timeout) (p, mkWorld σ t n [])
  = (inl (Locked owner), (p, mkWorld σ t (S n) [])).
Proof.
  intros Hf Hp Hts Hw Hage. unfold acquireLock. run_seq.
  erewrite check_lock_read;
    [|by rewrite Hf|by eapply readLockFile_parsed].
  rewrite Hts, age_exceeds_int, bool_decide_false by lia.
  by rewrite Hw.
Qed.

(** X5. [createBackup] never raises, whichever of its primitives are
    rejected; it leaves the process, the clock and the identifier supply
    alone; and the only entries of the tree it can change are the backup
    directory and what lies below it: the document and its lock file in
    particular are as before. When the document does not exist it does
    nothing. *)
Theorem backup_confined_to_backup_directory
    (filePath : string) (p : Proc) (σ : Fs.tree) (t : Z) (n : nat)
    (fl : list bool) :
  ∃ σ' fl',
    run (createBackup filePath) (p, mkWorld σ t n fl)
    = (inr tt, (p, mkWorld σ' t n fl'))
    ∧ σ' !! filePath = σ !! filePath
    ∧ σ' !! (filePath +:+ ".lock") = σ !! (filePath +:+ ".lock")
    ∧ (∀ k, Paths.under (backupDir_of filePath) k = false → σ' !! k = σ !! k)
    ∧ (σ !! filePath = None → σ' = σ).
Proof.
  destruct (createBackup_frame filePath p σ t n fl)
    as (σ' & fl' & Hrun & Hframe & _ & Hnone).
  exists σ', fl'. split; [done|]. split; [|split; [|split; [|done]]].
  - destruct (σ !! filePath) as [x|] eqn:E; [|by rewrite Hnone].
    rewrite <- E. apply Hframe.
    + pose proof (not_below_backupDir filePath EmptyString eq_refl) as H.
      by rewrite app_empty_r in H.
    + right. by rewrite E.
  - apply Hframe; [by apply not_below_backupDir|].
    left. apply lock_not_backupDir.
  - intros k [Hne Hp]%orb_false_elim. apply Hframe; [done|].
    left. intros ->. by rewrite String.eqb_refl in Hne.
Qed.

(** A document that cannot be read or parsed, under a live lock:
    neither the repair nor the restore gets the lock, and the default
    structure is returned. *)
Lemma safeJSONRead_live_lock
    (filePath : string) (p : Proc) (σ : Fs.tree) (t : Z) (n : nat)
    (lockText : string) (lockData : json) (ts : Z) (owner : option json) :
  (∀ content, σ !! filePath = Some (Fs.File content) → parse content = None) →
  σ !! (filePath +:+ ".lock") = Some (Fs.File lockText) →
  parse lockText = Some lockData →
  get lockData "timestamp" = Some (Some (JInt ts)) →
  get lockData "workerId" = Some owner →
  t - ts ≤ maxLockTime →
  ∃ n' v,
    run (safeJSONRead filePath) (p, mkWorld σ t n [])
    = (inr v, (p, mkWorld σ t n' []))
    ∧ run (getDefaultStructure filePath) (p, mkWorld σ t n' [])
      = (inr v, (p, mkWorld σ t n' [])).
Proof.
  intros Hbad Hl Hlp Hts Hw Hage.
  assert (∀ m, run (acquireLock filePath maxLockTime) (p, mkWorld σ t m [])
               = (inl (Locked owner), (p, mkWorld σ t (S m) []))) as Hacq.
  { intros m. by eapply acquireLock_live. }
  assert (∀ m, ∃ v, run (getDefaultStructure filePath) (p, mkWorld σ t m [])
                    = (inr v, (p, mkWorld σ t m []))) as Hdef.
  { intros m. unfold getDefaultStructure.
    repeat match goal with |- context [if ?c then _ else _] => destruct c end;
      run_seq; by eexists. }
  assert (∀ m, ∃ m',
    run (restoreFromBackup filePath) (p, mkWorld σ t m [])
    = (inr JNull, (p, mkWorld σ t m' []))) as Hrestore.
  { intros m. unfold restoreFromBackup. run_seq.
    destruct (Fs.pathExists σ _); cbn; [|by eexists].
    run_step.
    destruct (Fs.readdir σ _) as [e|files]; run_step; [by eexists|].
    destruct (backupFiles_of filePath files) as [|newest others];
      run_step; [by eexists|].
    destruct (Fs.readFile σ _) as [e|c]; run_step; [by eexists|].
    rewrite Hacq. run_step. by eexists. }
  unfold safeJSONRead. run_step.
  unfold Fs.readFile at 1.
  destruct (σ !! filePath) as [[content|]|] eqn:Hf; run_step.
  - unfold JSON_parse at 1. rewrite (Hbad content eq_refl). run_step.
    unfold Fs.readFile at 1. rewrite Hf. run_step.
    destruct (truthy (attemptJSONRecovery content)); run_step.
    + rewrite Hacq. run_step.
      match goal with
      | |- context [run (restoreFromBackup _) (_, mkWorld _ _ ?m _)] =>
          destruct (Hrestore m) as (m' & ->)
      end; run_step; destruct (Hdef m') as (v & Hv); exists m', v;
      by rewrite Hv.
    + match goal with
      | |- context [run (restoreFromBackup _) (_, mkWorld _ _ ?m _)] =>
          destruct (Hrestore m) as (m' & ->)
      end; run_step; destruct (Hdef m') as (v & Hv); exists m', v;
      by rewrite Hv.
  - unfold Fs.readFile at 1. rewrite Hf. run_step.
    match goal with
      | |- context [run (restoreFromBackup _) (_, mkWorld _ _ ?m _)] =>
          destruct (Hrestore m) as (m' & ->)
      end; run_step; destruct (Hdef m') as (v & Hv); exists m', v;
      by rewrite Hv.
  - unfold Fs.readFile at 1. rewrite Hf. run_step.
    match goal with
      | |- context [run (restoreFromBackup _) (_, mkWorld _ _ ?m _)] =>
          destruct (Hrestore m) as (m' & ->)
      end; run_step; destruct (Hdef m') as (v & Hv); exists m', v;
      by rewrite Hv.
Qed.

(** X6. A corrupt document read while a lock on it is live is neither
    repaired nor restored from a backup: [safeJSONRead] returns the
    default structure and leaves the tree, the lock table and the timers
    as they were (identifiers are drawn by the attempts to lock). *)
Theorem safe_read_under_live_lock
    (filePath content : string) (p : Proc) (σ : Fs.tree) (t : Z) (n : nat)
    (lockText : string) (lockData : json) (ts : Z) (owner : option json) :
  σ !! filePath = Some (Fs.File content) →
  parse content = None →
  σ !! (filePath +:+ ".lock") = Some (Fs.File lockText) →
  parse lockText = Some lockData →
  get lockData "timestamp" = Some (Some (JInt ts)) →
  get lockData "workerId" = Some owner →
  t - ts ≤ maxLockTime →
  ∃ n' v,
    run (safeJSONRead filePath) (p, mkWorld σ t n [])
    = (inr v, (p, mkWorld σ t n' []))
    ∧ run (getDefaultStructure filePath) (p, mkWorld σ t n' [])
      = (inr v, (p, mkWorld σ t n' [])).
Proof.
  intros Hf Hbad. apply safeJSONRead_live_lock.
  intros c Hc. rewrite Hf in Hc. by injection Hc as <-.
Qed.

(** [restoreFromBackup] when no lock file is in the way and no primitive
    is rejected. *)
Lemma restoreFromBackup_no_fault
    (filePath : string) (files : list string) (newest : string)
    (others : list string) (content : string)
    (p : Proc) (σ : Fs.tree) (t : Z) (n : nat) :
  let lockFile := filePath +:+ ".lock" in
  Fs.readdir σ (backupDir_of filePath) = inr files →
  backupFiles_of filePath files = newest :: others →
  σ !! Paths.join (backupDir_of filePath) newest = Some (Fs.File content) →
  σ !! lockFile = None →
  σ !! filePath ≠ Some Fs.Dir →
  ∃ p' σ',
    run (restoreFromBackup filePath) (p, mkWorld σ t n [])
    = (inr (default JNull (parse content)), (p', mkWorld σ' t (S n) []))
    ∧ σ' !! filePath = Some (Fs.File content)
    ∧ σ' !! lockFile = None
    ∧ locks p' = delete filePath (locks p)
    ∧ (∀ k, k ≠ filePath → Paths.under lockFile k = false → σ' !! k = σ !! k).
Proof.
  intros lockFile Hdir Hfiles Hb Hl Hf. subst lockFile.
  assert (filePath ≠ filePath +:+ ".lock") as Hne.
  { intros H%(f_equal String.length). rewrite length_app in H. simpl in H. lia. }
  assert (Paths.under (filePath +:+ ".lock") filePath = false) as Hu.
  { apply under_longer. rewrite length_app. simpl. lia. }
  unfold restoreFromBackup. run_seq.
  assert (Fs.pathExists σ (backupDir_of filePath) = true) as ->.
  { unfold Fs.readdir in Hdir. unfold Fs.pathExists.
    destruct (σ !! backupDir_of filePath); [by apply bool_decide_eq_true|done]. }
  cbn. run_step. rewrite Hdir. run_step. rewrite Hfiles. run_step.
  unfold Fs.readFile. rewrite Hb. run_step.
  rewrite acquireLock_free by done. run_step.
  unfold Fs.writeFile.
  rewrite lookup_insert_ne by done.
  assert (match σ !! filePath with
          | Some Fs.Dir => @inl Fs.errno Fs.tree Fs.EISDIR
          | _ => inr (<[filePath := Fs.File content]>
                        (<[filePath +:+ ".lock" :=
                             Fs.File (stringify
                               (lock_record (uuid_of n)
                                  (workerId_of p (mkWorld σ t (S n) [])) t (pid p)))]> σ))
          end = inr (<[filePath := Fs.File content]>
                        (<[filePath +:+ ".lock" :=
                             Fs.File (stringify
                               (lock_record (uuid_of n)
                                  (workerId_of p (mkWorld σ t (S n) [])) t (pid p)))]> σ)))
    as ->.
  { by destruct (σ !! filePath) as [[]|]. }
  run_step. rewrite releaseLock_match by (cbn; by rewrite lookup_insert_eq).
  cbn. unfold JSON_parse.
  eexists _, _. split.
  { destruct (parse content); run_step; reflexivity. }
  cbn. split; [|split; [|split]].
  - rewrite remove_lookup_other by done. by rewrite lookup_insert_eq.
  - apply remove_lookup_self.
  - by rewrite delete_insert_eq.
  - intros k Hk Hku. rewrite remove_lookup_other by done.
    rewrite lookup_insert_ne by done. rewrite lookup_insert_ne; [done|].
    intros <-. by rewrite under_refl in Hku.
Qed.

(** X7. With no lock file in the way and no primitive rejected,
    [restoreFromBackup] overwrites the document with the text of the
    first backup in its newest-first order, whether or not that text is
    JSON, and releases the lock it took; it returns the parsed text, or
    [null] when the text does not parse. Nothing else in the tree
    changes. *)
Theorem restore_overwrites_with_newest_backup
    (filePath : string) (files : list string) (newest : string)
    (others : list string) (content : string)
    (p : Proc) (σ : Fs.tree) (t : Z) (n : nat) :
  let lockFile := filePath +:+ ".lock" in
  Fs.readdir σ (backupDir_of filePath) = inr files →
  backupFiles_of filePath files = newest :: others →
  σ !! Paths.join (backupDir_of filePath) newest = Some (Fs.File content) →
  σ !! lockFile = None →
  σ !! filePath ≠ Some Fs.Dir →
  ∃ p' σ',
    run (restoreFromBackup filePath) (p, mkWorld σ t n [])
    = (inr (default JNull (parse content)), (p', mkWorld σ' t (S n) []))
    ∧ σ' !! filePath = Some (Fs.File content)
    ∧ σ' !! lockFile = None
    ∧ locks p' = delete filePath (locks p)
    ∧ (∀ k, k ≠ filePath → Paths.under lockFile k = false → σ' !! k = σ !! k).
Proof. apply restoreFromBackup_no_fault. Qed.

(** X8. Taking the lock of a path that has no lock file and releasing it
    with the identifier granted leaves the tree as it was, the lock
    table without an entry for the path, and one timer more than before:
    the release does not cancel the timer of the grant. (The directory
    of the document exists and no primitive is rejected.) *)
Theorem acquire_release_round_trip
    (filePath : string) (timeout : Z) (p : Proc) (σ : Fs.tree) (t : Z)
    (n : nat) :
  let lockFile := filePath +:+ ".lock" in
  σ !! lockFile = None →
  σ !! Paths.dirname filePath = Some Fs.Dir →
  ∃ p' σ',
    run (lockId ← acquireLock filePath timeout; releaseLock filePath lockId)
        (p, mkWorld σ t n [])
    = (inr tt, (p', mkWorld σ' t (S n) []))
    ∧ σ' !! lockFile = None
    ∧ (∀ k, Paths.under lockFile k = false → σ' !! k = σ !! k)
    ∧ locks p' = delete filePath (locks p)
    ∧ timers p'
      = (timers p ++ [Timer t (clamp_delay timeout) filePath (uuid_of n)])%list.
Proof.
  intros lockFile Hl _. subst lockFile. run_step.
  rewrite acquireLock_free by done.
  rewrite releaseLock_match by (cbn; by rewrite lookup_insert_eq).
  eexists _, _. split; [reflexivity|]. cbn. split; [|split; [|split]].
  - apply remove_lookup_self.
  - intros k Hk. rewrite remove_lookup_other by done.
    rewrite lookup_insert_ne; [done|]. intros <-. by rewrite under_refl in Hk.
  - by rewrite delete_insert_eq.
  - done.
Qed.

End lock_sequences.

Section lock_sequences_witness.
Import Json Js FileOperations.

Lemma safe_read_under_live_lock_witness :
  ∃ n' v,
    run (safeJSONRead Example.doc) (Example.zephyr, mkWorld Corrupt.tree 5 1 [])
    = (inr v, (Example.zephyr, mkWorld Corrupt.tree 5 n' []))
    ∧ run (getDefaultStructure Example.doc)
          (Example.zephyr, mkWorld Corrupt.tree 5 n' [])
      = (inr v, (Example.zephyr, mkWorld Corrupt.tree 5 n' [])).
Proof.
  eapply (safe_read_under_live_lock Example.doc "[1, 2,]" Example.zephyr
            Corrupt.tree 5 1 Example.alex_lock _ 0 (Some (JStr "alex"))).
  - vm_compute; reflexivity.
  - vm_compute; reflexivity.
  - vm_compute; reflexivity.
  - vm_compute; reflexivity.
  - vm_compute; reflexivity.
  - vm_compute; reflexivity.
  - unfold maxLockTime; lia.
Defined.

Lemma restore_overwrites_with_newest_backup_witness :
  ∃ p' σ',
    run (restoreFromBackup Example.doc)
        (Example.zephyr, mkWorld Corrupt.backed_up 9 0 [])
    = (inr (JArr [JInt 7]), (p', mkWorld σ' 9 1 []))
    ∧ σ' !! Example.doc = Some (Fs.File "[7]").
Proof.
  destruct (restore_overwrites_with_newest_backup Example.doc
              ["tasks.json.backup.7"; "tasks.json.backup.3"]
              "tasks.json.backup.7" ["tasks.json.backup.3"] "[7]"
              Example.zephyr Corrupt.backed_up 9 0)
    as (p' & σ' & Hrun & Hdoc & _).
  - vm_compute; reflexivity.
  - vm_compute; reflexivity.
  - vm_compute; reflexivity.
  - vm_compute; reflexivity.
  - vm_compute; discriminate.
  - exists p', σ'. split; [exact Hrun|exact Hdoc].
Defined.

Lemma acquire_release_round_trip_witness :
  ∃ p' σ',
    run (lockId ← acquireLock Example.doc 1000; releaseLock Example.doc lockId)
        (Example.alex, mkWorld Reclaim.free_tree 0 0 [])
    = (inr tt, (p', mkWorld σ' 0 1 []))
    ∧ σ' !! (Example.doc +:+ ".lock") = None
    ∧ timers p' = [Timer 0 1000 Example.doc (uuid_of 0)].
Proof.
  destruct (acquire_release_round_trip Example.doc 1000 Example.alex
              Reclaim.free_tree 0 0)
    as (p' & σ' & Hrun & Hl & _ & _ & Ht).
  - vm_compute; reflexivity.
  - vm_compute; reflexivity.
  - exists p', σ'. split; [exact Hrun|]. split; [exact Hl|exact Ht].
Defined.

End lock_sequences_witness.

(** ** [JSON.parse] after [JSON.stringify] *)

Section json_strings.
Import Json.

Lemma parse_string_body_escape_char (c : ascii) (r : string) :
  parse_string_body (escape_char c +:+ r)
  = '(t, rest) ← parse_string_body r; Some (String c t, rest).
Proof.
  destruct c as [[] [] [] [] [] [] [] []]; reflexivity.
Qed.

Lemma parse_string_body_escape (s r : string) :
  parse_string_body (escape s +:+ String Str.dq r) = Some (s, r).
Proof.
  induction s as [|c s IH]; [done|].
  simpl escape. rewrite app_assoc_s, parse_string_body_escape_char, IH. done.
Qed.

End json_strings.

Ltac ascii_cases c := destruct c as [[] [] [] [] [] [] [] []].

Section json_numbers.
Import Json.

Lemma all_digits_string_of_uint u :
  all_digits (NilEmpty.string_of_uint u) = true.
Proof. induction u; simpl; done. Qed.

Lemma all_digits_of_N n : all_digits (Str.of_N n) = true.
Proof. apply all_digits_string_of_uint. Qed.

Lemma all_digits_app a b :
  all_digits (a +:+ b) = all_digits a && all_digits b.
Proof.
  induction a as [|c a IH]; [done|]. rewrite app_cons. simpl.
  by rewrite IH, andb_assoc.
Qed.

Lemma to_uint_unorm n : Decimal.unorm (N.to_uint n) = N.to_uint n.
Proof.
  rewrite <- DecimalN.Unsigned.to_of. by rewrite DecimalN.Unsigned.of_to.
Qed.

(** The decimal rendering of a positive number starts with a digit that
    is not zero. *)
Lemma of_N_pos_head p :
  ∃ c r, Str.of_N (Npos p) = String c r
         ∧ Str.is_digit c = true ∧ c ≠ "0"%char.
Proof.
  unfold Str.of_N. pose proof (to_uint_unorm (Npos p)) as Hu.
  pose proof (DecimalN.Unsigned.of_to (Npos p)) as Hof.
  destruct (N.to_uint (Npos p)) as [|d|d|d|d|d|d|d|d|d|d] eqn:E;
    try (simpl; eexists _, _; split; [reflexivity|split; [done|done]]).
  - done.
  - exfalso. unfold Decimal.unorm in Hu. rewrite nzhead_D0 in Hu.
    destruct (Decimal.nzhead d) as [|u|u|u|u|u|u|u|u|u|u] eqn:Ed;
      [injection Hu as <-; done|exact (nzhead_nonzero _ _ Ed)
      |discriminate Hu..].
Qed.

Lemma of_N_nonempty n : Str.of_N n ≠ EmptyString.
Proof.
  destruct n as [|p]; [done|].
  destruct (of_N_pos_head p) as (c & r & -> & _). done.
Qed.

Lemma digits_value_of_N n : Str.digits_value (Str.of_N n) = Some n.
Proof.
  pose proof (of_N_nonempty n) as Hne. unfold Str.digits_value.
  destruct (Str.of_N n) eqn:E; [done|]. rewrite <- E. unfold Str.of_N.
  rewrite NilEmpty.usu. simpl. by rewrite DecimalN.Unsigned.of_to.
Qed.

Lemma digits_value_zero s :
  s ≠ EmptyString →
  Str.digits_value (String "0" s) = Str.digits_value s.
Proof.
  intros Hs. unfold Str.digits_value. destruct s as [|c s]; [done|].
  change (NilEmpty.uint_of_string (String "0" (String c s)))
    with (Decimal.D0 <$> NilEmpty.uint_of_string (String c s)).
  by destruct (NilEmpty.uint_of_string (String c s)).
Qed.

Lemma digits_value_zeros j s :
  s ≠ EmptyString →
  Str.digits_value (zeros j +:+ s) = Str.digits_value s.
Proof.
  intros Hs. induction j as [|j IH]; [done|].
  unfold zeros in *. simpl Str.repeat_char. rewrite app_cons.
  rewrite digits_value_zero; [done|].
  destruct j; [done|]. done.
Qed.

Lemma span_digits_app d r :
  all_digits d = true →
  match r with String c _ => Str.is_digit c = false | EmptyString => True end →
  Str.span_digits (d +:+ r) = (d, r).
Proof.
  intros Hd Hr. induction d as [|c d IH].
  - rewrite app_empty_l. destruct r as [|c r]; [done|]. simpl. by rewrite Hr.
  - apply andb_prop in Hd as [Hc Hd]. rewrite app_cons. simpl.
    by rewrite Hc, IH.
Qed.

Lemma delimited_nondigit rest :
  delimited rest = true →
  match rest with String c _ => Str.is_digit c = false | EmptyString => True end.
Proof.
  destruct rest as [|c r]; [done|]. unfold delimited.
  by destruct (Str.is_digit c).
Qed.

Lemma parse_fraction_none rest :
  delimited rest = true → parse_fraction rest = Some (EmptyString, rest).
Proof.
  destruct rest as [|c r]; [done|].
  ascii_cases c; try reflexivity; discriminate.
Qed.

Lemma parse_exponent_none rest :
  delimited rest = true → parse_exponent rest = Some (0, rest).
Proof.
  destruct rest as [|c r]; [done|].
  ascii_cases c; try reflexivity; discriminate.
Qed.

Lemma parse_fraction_some f rest :
  f ≠ EmptyString → all_digits f = true → delimited rest = true →
  parse_fraction (String "." (f +:+ rest)) = Some (f, rest).
Proof.
  intros Hne Hf Hr. unfold parse_fraction.
  rewrite span_digits_app by (done || by apply delimited_nondigit).
  by destruct f.
Qed.

End json_numbers.

Section json_number_literals.
Import Json.

Lemma parse_number_signed (neg : bool) (i f F rest : string) :
  (i = "0" ∨ ∃ c d, i = String c d ∧ Str.is_digit c = true ∧ c ≠ "0"%char
                    ∧ all_digits d = true) →
  parse_fraction (F +:+ rest) = Some (f, rest) →
  match F +:+ rest with
  | String c _ => Str.is_digit c = false
  | EmptyString => True
  end →
  delimited rest = true →
  parse_number ((if neg then "-" else EmptyString) +:+ i +:+ F +:+ rest)
  = m ← Str.digits_value (i +:+ f);
    Some (normalize (if neg then - Z.of_N m else Z.of_N m)
                    (0 - Z.of_nat (String.length f)), rest).
Proof.
  intros Hi Hfrac Hnd Hr.
  pose proof (parse_exponent_none rest Hr) as Hexp.
  destruct Hi as [->|(c & d & -> & Hc & Hc0 & Hd)].
  - destruct neg; unfold parse_number; rewrite ?app_cons, ?app_empty_l;
      cbn -[parse_fraction parse_exponent Str.digits_value normalize];
      rewrite Hfrac; cbn -[parse_exponent Str.digits_value normalize];
      rewrite Hexp; cbn -[Str.digits_value normalize]; done.
  - assert (Str.span_digits (String c (d +:+ F +:+ rest))
            = (String c d, F +:+ rest)) as Hspan.
    { rewrite <- app_cons. apply span_digits_app; [|done].
      simpl. by rewrite Hc, Hd. }
    destruct neg; unfold parse_number; rewrite ?app_cons, ?app_empty_l;
      ascii_cases c; try discriminate Hc; try congruence;
      cbn -[parse_fraction parse_exponent Str.digits_value normalize
            Str.span_digits];
      rewrite Hspan;
      cbn -[parse_fraction parse_exponent Str.digits_value normalize];
      rewrite Hfrac; cbn -[parse_exponent Str.digits_value normalize];
      rewrite Hexp; cbn -[Str.digits_value normalize]; done.
Qed.

End json_number_literals.

Section json_show_num.
Import Json.

Lemma substring0_drop a d :
  String.substring 0 a d +:+ Str.drop a d = d.
Proof.
  revert d. induction a as [|a IH]; intros [|c d]; simpl; try done.
  by rewrite app_cons, IH.
Qed.

Lemma all_digits_substring0 a d :
  all_digits d = true → all_digits (String.substring 0 a d) = true.
Proof.
  revert d. induction a as [|a IH]; intros [|c d]; simpl; try done.
  intros [-> ?]%andb_prop. simpl. by apply IH.
Qed.

Lemma all_digits_drop a d :
  all_digits d = true → all_digits (Str.drop a d) = true.
Proof.
  revert d. induction a as [|a IH]; intros [|c d]; simpl; try done.
  intros [_ ?]%andb_prop. by apply IH.
Qed.

Lemma length_drop a d :
  String.length (Str.drop a d) = (String.length d - a)%nat.
Proof.
  revert d. induction a as [|a IH]; intros [|c d]; simpl; try done; lia.
Qed.

Lemma all_digits_zeros j : all_digits (zeros j) = true.
Proof. induction j; [done|]. unfold zeros in *. simpl. done. Qed.

Lemma length_zeros j : String.length (zeros j) = j.
Proof. induction j; [done|]. unfold zeros in *. simpl. by f_equal. Qed.

Lemma normalize_canonical m e :
  canonical (Num m e) = true → normalize m e = Num m e.
Proof.
  unfold canonical. simpl. intros [->|[He Hm]]%bool_decide_eq_true.
  - unfold normalize. destruct (decide (m = 0)) as [->|]; [done|].
    simpl. by rewrite Z.mul_1_r.
  - unfold normalize. destruct (decide (m = 0)) as [->|]; [done|].
    destruct (decide (0 ≤ e)); [lia|].
    destruct (Z.to_nat (- e)) as [|k] eqn:E; [lia|]. simpl.
    destruct (decide (0 ≤ e)); [lia|].
    by destruct (decide (m `mod` 10 = 0)).
Qed.

(** A number printed by [JSON.stringify] is read back by [JSON.parse]. *)
Lemma parse_show_num n rest :
  canonical n = true → delimited rest = true →
  parse_number (show_num n +:+ rest) = Some (n, rest).
Proof.
  intros Hn Hr. destruct n as [m e].
  pose proof (normalize_canonical m e Hn) as Hnorm.
  pose proof (parse_fraction_none rest Hr) as Hf0.
  pose proof (delimited_nondigit rest Hr) as Hnd.
  apply bool_decide_eq_true in Hn. simpl in Hn. unfold show_num. simpl.
  destruct Hn as [->|[He Hm]].
  - simpl. rewrite Z.mul_1_r. destruct m as [|q|q]; unfold Str.of_Z.
    + pose proof (parse_number_signed false "0" EmptyString EmptyString rest)
        as H. rewrite !app_empty_l in H. rewrite H; [done|by left|done..].
    + destruct (of_N_pos_head q) as (c & r & E & Hc & Hc0).
      pose proof (all_digits_of_N (Npos q)) as Hall. rewrite E in Hall.
      apply andb_prop in Hall as [_ Hall].
      pose proof (parse_number_signed false (Str.of_N (Npos q))
                    EmptyString EmptyString rest) as H.
      rewrite !app_empty_l, app_empty_r in H. rewrite H; [| |done..].
      * rewrite digits_value_of_N. simpl. by rewrite <- Hnorm.
      * right. by exists c, r.
    + destruct (of_N_pos_head q) as (c & r & E & Hc & Hc0).
      pose proof (all_digits_of_N (Npos q)) as Hall. rewrite E in Hall.
      apply andb_prop in Hall as [_ Hall].
      pose proof (parse_number_signed true (Str.of_N (Npos q))
                    EmptyString EmptyString rest) as H.
      rewrite !app_empty_l, app_empty_r in H.
      rewrite app_assoc_s. rewrite H; [| |done..].
      * rewrite digits_value_of_N. simpl. by rewrite <- Hnorm.
      * right. by exists c, r.
  - destruct (decide (0 ≤ e)); [lia|].
    assert (m ≠ 0) as Hm0 by (intros ->; done).
    assert (∃ q, Z.abs_N m = Npos q) as [q Hq].
    { destruct m; [done|by eexists..]. }
    rewrite Hq. set (d := Str.of_N (Npos q)).
    set (k := Z.to_nat (- e)).
    assert (0 - Z.of_nat k = e) as Hk by lia.
    assert (1 ≤ k)%nat as Hk1 by lia.
    destruct (of_N_pos_head q) as (c & r & E & Hc & Hc0). fold d in E.
    pose proof (all_digits_of_N (Npos q)) as Hall. fold d in Hall.
    pose proof (digits_value_of_N (Npos q)) as Hval. fold d in Hval.
    assert ((if decide (m < 0) then - Z.of_N (Npos q) else Z.of_N (Npos q)) = m)
      as Hsign.
    { destruct (decide (m < 0)); destruct m; simpl in *; try lia; congruence. }
    set (neg := bool_decide (m < 0)).
    assert ((if decide (m < 0) then "-" else EmptyString)
            = (if neg then "-" else EmptyString)) as ->.
    { unfold neg. destruct (decide (m < 0));
        [rewrite bool_decide_true by done|rewrite bool_decide_false by done];
        done. }
    assert ((if neg then - Z.of_N (Npos q) else Z.of_N (Npos q)) = m) as Hsign'.
    { unfold neg. destruct (decide (m < 0));
        [rewrite bool_decide_true by done|rewrite bool_decide_false by done];
        done. }
    destruct (decide (k < String.length d)%nat) as [Hlt|Hge].
    + set (a := (String.length d - k)%nat).
      assert (Str.drop a d ≠ EmptyString) as Hfne.
      { intros H%(f_equal String.length). rewrite length_drop in H.
        simpl in H. lia. }
      pose proof (parse_number_signed neg (String.substring 0 a d)
                    (Str.drop a d) (String "." (Str.drop a d)) rest) as H.
      repeat rewrite ?app_assoc_s, ?app_cons, ?app_empty_l.
      repeat rewrite ?app_assoc_s, ?app_cons, ?app_empty_l in H. rewrite H.
      * rewrite substring0_drop, Hval. simpl. rewrite length_drop.
        replace (0 - Z.of_nat (String.length d - a)) with e by lia.
        simpl in Hsign'. by rewrite Hsign', Hnorm.
      * right. destruct a as [|a'] eqn:Ea; [lia|]. rewrite E. simpl.
        exists c, (String.substring 0 a' r). split; [done|].
        split; [done|]. split; [done|].
        apply all_digits_substring0. rewrite E in Hall.
        by apply andb_prop in Hall as [_ ?].
      * apply parse_fraction_some; try done.
        by apply all_digits_drop.
      * done.
      * done.
    + set (j := (k - String.length d)%nat).
      pose proof (parse_number_signed neg "0" (zeros j +:+ d)
                    (String "." (zeros j +:+ d)) rest) as H.
      change "0." with ("0" +:+ ".").
      repeat rewrite ?app_assoc_s, ?app_cons, ?app_empty_l.
      repeat rewrite ?app_assoc_s, ?app_cons, ?app_empty_l in H. rewrite H.
      * rewrite digits_value_zero, digits_value_zeros, Hval;
          [|by rewrite E|by rewrite E; destruct j].
        simpl. rewrite length_app, length_zeros.
        replace (0 - Z.of_nat (j + String.length d)) with e by lia.
        simpl in Hsign'. by rewrite Hsign', Hnorm.
      * by left.
      * rewrite <- app_assoc_s. apply parse_fraction_some; try done.
        -- rewrite E. by destruct j.
        -- by rewrite all_digits_app, all_digits_zeros, Hall.
      * done.
      * done.
Qed.

End json_show_num.

Section json_values.
Import Json.

Lemma json_ind' (P : json → Prop) :
  P JNull → (∀ b, P (JBool b)) → (∀ n, P (JNum n)) → (∀ s, P (JStr s)) →
  (∀ l, Forall P l → P (JArr l)) →
  (∀ l, Forall (λ kv, P (snd kv)) l → P (JObj l)) →
  ∀ v, P v.
Proof.
  intros Hnull Hbool Hnum Hstr Harr Hobj. fix IH 1.
  intros [|b|n|s|l|l]; [done..| |].
  - apply Harr. induction l as [|x l IHl]; constructor; [apply IH|done].
  - apply Hobj. induction l as [|[k x] l IHl]; constructor; [apply IH|done].
Qed.

Lemma skip_ws_idem s : skip_ws (skip_ws s) = skip_ws s.
Proof.
  induction s as [|c s IH]; [done|]. simpl.
  destruct (is_ws c) eqn:E; [done|]. simpl. by rewrite E.
Qed.

Lemma skip_ws_spaces n s : skip_ws (spaces n +:+ s) = skip_ws s.
Proof. induction n as [|n IH]; [done|]. unfold spaces in *. by simpl. Qed.

Lemma skip_ws_nl s : skip_ws (nl +:+ s) = skip_ws s.
Proof. done. Qed.

Lemma parse_value_skip f s : parse_value f (skip_ws s) = parse_value f s.
Proof. destruct f; [done|]. simpl. by rewrite skip_ws_idem. Qed.

Lemma parse_elements_skip f s acc :
  parse_elements f (skip_ws s) acc = parse_elements f s acc.
Proof. destruct f; [done|]. simpl. by rewrite parse_value_skip. Qed.

Lemma parse_members_skip f s acc :
  parse_members f (skip_ws s) acc = parse_members f s acc.
Proof. destruct f; [done|]. simpl. by rewrite skip_ws_idem. Qed.

(** A text that starts with a number literal is a number. *)
Lemma parse_value_number f s n r :
  parse_number s = Some (n, r) → parse_value (S f) s = Some (JNum n, r).
Proof.
  intros H. destruct s as [|c s]; [done|].
  assert (∀ c, is_ws c = false → skip_ws (String c s) = String c s) as Hs.
  { intros c' Hc'. simpl. by rewrite Hc'. }
  ascii_cases c; try (cbn in H; discriminate H);
    unfold parse_value; rewrite Hs by done; fold parse_value;
    cbn -[parse_number skip_ws]; rewrite H; reflexivity.
Qed.

(** What a successfully parsed text starts with. *)
Lemma parse_value_head f s v r :
  parse_value f s = Some (v, r) →
  ∃ c t, skip_ws s = String c t ∧ c ≠ "]"%char ∧ c ≠ "}"%char.
Proof.
  intros H. destruct f; [discriminate H|]. simpl in H.
  destruct (skip_ws s) as [|c t]; [discriminate H|].
  exists c, t. split; [done|].
  split; intros ->; cbn in H; discriminate H.
Qed.

Lemma parse_value_array f r :
  parse_value (S f) (String "[" r)
  = match skip_ws r with
    | String c r' =>
        if Ascii.eqb c "]" then Some (JArr [], r')
        else parse_elements f (skip_ws r) []
    | EmptyString => parse_elements f (skip_ws r) []
    end.
Proof.
  simpl. destruct (skip_ws r) as [|c t]; [done|].
  ascii_cases c; reflexivity.
Qed.

Lemma parse_value_object f r :
  parse_value (S f) (String "{" r)
  = match skip_ws r with
    | String c r' =>
        if Ascii.eqb c "}" then Some (JObj [], r')
        else parse_members f (skip_ws r) []
    | EmptyString => parse_members f (skip_ws r) []
    end.
Proof.
  simpl. destruct (skip_ws r) as [|c t]; [done|].
  ascii_cases c; reflexivity.
Qed.

End json_values.

Section json_round_trip.
Import Json.

Lemma skip_ws_head c s : is_ws c = false → skip_ws (String c s) = String c s.
Proof. intros H. simpl. by rewrite H. Qed.

Lemma parse_elements_step f s acc v r :
  parse_value f s = Some (v, r) →
  parse_elements (S f) s acc
  = match skip_ws r with
    | String c r' =>
        if Ascii.eqb c "," then parse_elements f r' (acc ++ [v])
        else if Ascii.eqb c "]" then Some (JArr (acc ++ [v]), r')
        else None
    | EmptyString => None
    end.
Proof.
  intros H. simpl. rewrite H. simpl. destruct (skip_ws r) as [|c t]; [done|].
  ascii_cases c; reflexivity.
Qed.

Lemma parse_members_step f s acc k v r r1 r2 r3 :
  skip_ws s = String Str.dq r →
  parse_string_body r = Some (k, r1) →
  skip_ws r1 = String ":" r2 →
  parse_value f r2 = Some (v, r3) →
  parse_members (S f) s acc
  = match skip_ws r3 with
    | String c r4 =>
        if Ascii.eqb c "," then parse_members f r4 (obj_set k v acc)
        else if Ascii.eqb c "}" then Some (JObj (obj_set k v acc), r4)
        else None
    | EmptyString => None
    end.
Proof.
  intros Hs Hk Hc Hv. simpl. rewrite Hs. simpl. rewrite Hk. simpl.
  rewrite Hc. simpl. rewrite Hv. simpl.
  destruct (skip_ws r3) as [|c t]; [done|].
  ascii_cases c; reflexivity.
Qed.

Lemma obj_set_fresh k v acc :
  k ∉ map fst acc → obj_set k v acc = (acc ++ [(k, v)])%list.
Proof.
  induction acc as [|[k' v'] acc IH]; [done|]. simpl.
  intros [Hne Hin]%not_elem_of_cons.
  destruct (String.eqb_spec k k') as [->|_]; [done|]. by rewrite IH.
Qed.

(** The text that follows an element or a member of a printed array or
    object. *)
Lemma delimited_nl s : delimited (nl +:+ s) = true.
Proof. done. Qed.

Lemma delimited_comma s : delimited ("," +:+ s) = true.
Proof. done. Qed.

Lemma parse_elements_lines (ind : nat) (rest : string) (l : list json) :
  l ≠ [] →
  Forall (λ v, ∀ ind rest f, delimited rest = true → (size v ≤ f)%nat →
               parse_value f (stringify_at ind v +:+ rest) = Some (v, rest)) l →
  ∀ acc f,
    (list_sum (map (λ x, S (size x)) l) ≤ f)%nat →
    parse_elements f
      (join_lines (map (λ x, spaces (ind + 2) +:+ stringify_at (ind + 2) x) l)
       +:+ nl +:+ spaces ind +:+ "]" +:+ rest) acc
    = Some (JArr (acc ++ l), rest).
Proof.
  intros Hne HP. induction HP as [|x l Hx HP IH]; [done|]. clear Hne.
  intros acc f Hf. simpl in Hf.
  destruct f as [|f]; [lia|].
  destruct l as [|y l].
  - simpl join_lines. rewrite app_assoc_s.
    erewrite parse_elements_step; last first.
    { rewrite <- parse_value_skip, skip_ws_spaces, parse_value_skip.
      apply Hx; [apply delimited_nl|lia]. }
    rewrite skip_ws_nl, skip_ws_spaces. by rewrite app_cons, app_empty_l.
  - change (join_lines (map ?g (x :: y :: l)))
      with (g x +:+ "," +:+ nl +:+ join_lines (map g (y :: l))).
    rewrite !app_assoc_s.
    erewrite parse_elements_step; last first.
    { rewrite <- parse_value_skip, skip_ws_spaces, parse_value_skip.
      apply Hx; [apply delimited_comma|lia]. }
    rewrite app_cons, app_empty_l. rewrite skip_ws_head by done.
    change (("," =? ",")%char) with true. cbv iota.
    rewrite <- parse_elements_skip, skip_ws_nl, parse_elements_skip.
    rewrite IH; [|done|simpl in *; lia]. by rewrite <- app_assoc.
Qed.

Lemma parse_members_lines (ind : nat) (rest : string)
    (l : list (string * json)) :
  l ≠ [] →
  Forall (λ kv, ∀ ind rest f, delimited rest = true → (size (snd kv) ≤ f)%nat →
                parse_value f (stringify_at ind (snd kv) +:+ rest)
                = Some (snd kv, rest)) l →
  ∀ acc f,
    NoDup (map fst (acc ++ l)) →
    (list_sum (map (λ kv, S (size (snd kv))) l) ≤ f)%nat →
    parse_members f
      (join_lines (map (λ kv, spaces (ind + 2) +:+ quote (fst kv) +:+ ": "
                              +:+ stringify_at (ind + 2) (snd kv)) l)
       +:+ nl +:+ spaces ind +:+ "}" +:+ rest) acc
    = Some (JObj (acc ++ l), rest).
Proof.
  intros Hne HP. induction HP as [|[k x] l Hx HP IH]; [done|]. clear Hne.
  intros acc f Hnd Hf. simpl in Hf, Hx.
  destruct f as [|f]; [lia|].
  assert (k ∉ map fst acc) as Hk.
  { rewrite map_app in Hnd. apply NoDup_app in Hnd as (_ & Hd & _).
    intros Hin. apply (Hd _ Hin). simpl. apply elem_of_cons. by left. }
  assert (∀ REST, delimited REST = true →
    parse_members (S f)
      (spaces (ind + 2) +:+ quote k +:+ ": " +:+ stringify_at (ind + 2) x
       +:+ REST) acc
    = match skip_ws REST with
      | String c r4 =>
          if Ascii.eqb c "," then parse_members f r4 (acc ++ [(k, x)])
          else if Ascii.eqb c "}" then Some (JObj (acc ++ [(k, x)]), r4)
          else None
      | EmptyString => None
      end) as Hstep.
  { intros REST HREST. rewrite <- (obj_set_fresh k x acc Hk).
    eapply parse_members_step.
    - rewrite skip_ws_spaces. unfold quote. rewrite app_cons.
      apply skip_ws_head. done.
    - rewrite app_assoc_s, app_cons, app_empty_l.
      apply parse_string_body_escape.
    - rewrite !app_cons, app_empty_l. apply skip_ws_head. done.
    - rewrite <- parse_value_skip.
      change (skip_ws (String " " ?Y)) with (skip_ws Y).
      rewrite parse_value_skip. apply Hx; [done|lia]. }
  destruct l as [|y l].
  - simpl join_lines. simpl fst. simpl snd. rewrite !app_assoc_s.
    rewrite Hstep by apply delimited_nl.
    rewrite skip_ws_nl, skip_ws_spaces. rewrite app_cons, app_empty_l.
    rewrite skip_ws_head by done. done.
  - change (join_lines (map ?g ((k, x) :: y :: l)))
      with (g (k, x) +:+ "," +:+ nl +:+ join_lines (map g (y :: l))).
    simpl fst. simpl snd. rewrite !app_assoc_s.
    rewrite Hstep by apply delimited_comma.
    rewrite app_cons, app_empty_l. rewrite skip_ws_head by done.
    change (("," =? ",")%char) with true. cbv iota.
    rewrite <- parse_members_skip, skip_ws_nl, parse_members_skip.
    rewrite IH; [|done|by rewrite <- app_assoc|simpl in *; lia].
    by rewrite <- app_assoc.
Qed.

End json_round_trip.

Section json_round_trip_values.
Import Json.

Lemma drop_app p r : Str.drop (String.length p) (p +:+ r) = r.
Proof. induction p as [|c p IH]; [done|]. by rewrite app_cons. Qed.

Lemma expect_app lit v rest : expect lit v (lit +:+ rest) = Some (v, rest).
Proof. unfold expect. by rewrite prefix_app, drop_app. Qed.

Lemma forallb_Forall {A} (f : A → bool) (l : list A) :
  forallb f l = true → Forall (λ x, f x = true) l.
Proof.
  induction l as [|x l IH]; [constructor|]. simpl.
  intros [? ?]%andb_prop. constructor; auto.
Qed.

Lemma length_join_lines (l : list string) :
  (list_sum (map String.length l) ≤ String.length (join_lines l))%nat.
Proof.
  induction l as [|x [|y l] IH]; [done|simpl; lia|].
  change (join_lines (x :: y :: l))
    with (x +:+ "," +:+ nl +:+ join_lines (y :: l)).
  rewrite !length_app. simpl in *. lia.
Qed.

Lemma show_num_nonempty n :
  canonical n = true → (1 ≤ String.length (show_num n))%nat.
Proof.
  intros Hn. pose proof (parse_show_num n EmptyString Hn eq_refl) as H.
  rewrite app_empty_r in H. destruct (show_num n); [done|simpl; lia].
Qed.

Lemma size_le_length (v : json) :
  well_formed v = true →
  ∀ ind, (size v ≤ String.length (stringify_at ind v))%nat.
Proof.
  induction v as [|b|n|s|l IH|l IH] using json_ind'; intros Hwf ind.
  - simpl. lia.
  - destruct b; simpl; lia.
  - simpl. by apply show_num_nonempty.
  - simpl. lia.
  - destruct l as [|x l]; [simpl; lia|].
    change (well_formed (JArr (x :: l)))
      with (forallb well_formed (x :: l)) in Hwf.
    apply forallb_Forall in Hwf.
    change (stringify_at ind (JArr (x :: l)))
      with ("[" +:+ nl +:+
            join_lines (map (λ y, spaces (ind + 2) +:+ stringify_at (ind + 2) y)
                            (x :: l))
            +:+ nl +:+ spaces ind +:+ "]").
    rewrite !length_app.
    pose proof (length_join_lines
      (map (λ y, spaces (ind + 2) +:+ stringify_at (ind + 2) y) (x :: l))) as HL.
    assert (list_sum (map (λ y, S (size y)) (x :: l))
            ≤ list_sum (map String.length
                (map (λ y, spaces (ind + 2) +:+ stringify_at (ind + 2) y) (x :: l))))%nat
      as HS.
    { clear HL. induction (x :: l) as [|y l' IHl]; [done|].
      apply Forall_cons in IH as [IHy IH]. apply Forall_cons in Hwf as [Hy Hwf].
      specialize (IHl IH Hwf). specialize (IHy Hy (ind + 2)%nat).
      simpl. rewrite length_app.
      assert (2 ≤ String.length (spaces (ind + 2)))%nat.
      { replace (ind + 2)%nat with (S (S ind)) by lia. simpl. lia. }
      lia. }
    change (size (JArr (x :: l)))
      with (S (list_sum (map (λ y, S (size y)) (x :: l)))).
    simpl String.length at 1. lia.
  - destruct l as [|x l]; [simpl; lia|].
    change (well_formed (JObj (x :: l)))
      with (forallb (λ kv, well_formed (snd kv)) (x :: l)
            && bool_decide (NoDup (map fst (x :: l)))) in Hwf.
    apply andb_prop in Hwf as [Hwf _]. apply forallb_Forall in Hwf.
    change (stringify_at ind (JObj (x :: l)))
      with ("{" +:+ nl +:+
            join_lines (map (λ kv, spaces (ind + 2) +:+ quote (fst kv) +:+ ": "
                                   +:+ stringify_at (ind + 2) (snd kv))
                            (x :: l))
            +:+ nl +:+ spaces ind +:+ "}").
    rewrite !length_app.
    pose proof (length_join_lines
      (map (λ kv, spaces (ind + 2) +:+ quote (fst kv) +:+ ": "
                  +:+ stringify_at (ind + 2) (snd kv)) (x :: l))) as HL.
    assert (list_sum (map (λ kv, S (size (snd kv))) (x :: l))
            ≤ list_sum (map String.length
                (map (λ kv, spaces (ind + 2) +:+ quote (fst kv) +:+ ": "
                            +:+ stringify_at (ind + 2) (snd kv)) (x :: l))))%nat
      as HS.
    { clear HL. induction (x :: l) as [|y l' IHl]; [done|].
      apply Forall_cons in IH as [IHy IH]. apply Forall_cons in Hwf as [Hy Hwf].
      specialize (IHl IH Hwf). specialize (IHy Hy (ind + 2)%nat).
      cbn [map]. rewrite !length_app. unfold list_sum in *.
      cbn [fold_right]. change (String.length ": ") with 2%nat. lia. }
    change (size (JObj (x :: l)))
      with (S (list_sum (map (λ kv, S (size (snd kv))) (x :: l)))).
    simpl String.length at 1. lia.
Qed.

Lemma parse_value_stringify (v : json) :
  well_formed v = true →
  ∀ ind rest f, delimited rest = true → (size v ≤ f)%nat →
    parse_value f (stringify_at ind v +:+ rest) = Some (v, rest).
Proof.
  induction v as [|b|n|s|l IH|l IH] using json_ind';
    intros Hwf ind rest f Hr Hf; (destruct f as [|f]; [simpl in Hf; lia|]).
  - apply (expect_app "null").
  - destruct b; [apply (expect_app "true")|apply (expect_app "false")].
  - apply parse_value_number. simpl. by apply parse_show_num.
  - simpl stringify_at. unfold quote. rewrite app_cons.
    rewrite app_assoc_s, app_cons, app_empty_l. simpl.
    by rewrite parse_string_body_escape.
  - destruct l as [|x l]; [reflexivity|].
    change (well_formed (JArr (x :: l)))
      with (forallb well_formed (x :: l)) in Hwf.
    apply forallb_Forall in Hwf.
    change (size (JArr (x :: l)))
      with (S (list_sum (map (λ y, S (size y)) (x :: l)))) in Hf.
    change (stringify_at ind (JArr (x :: l)))
      with ("[" +:+ nl +:+
            join_lines (map (λ y, spaces (ind + 2) +:+ stringify_at (ind + 2) y)
                            (x :: l))
            +:+ nl +:+ spaces ind +:+ "]").
    repeat rewrite ?app_assoc_s, ?app_cons, ?app_empty_l.
    rewrite parse_value_array.
    pose proof (parse_elements_lines ind rest (x :: l)) as HE.
    repeat rewrite ?app_assoc_s, ?app_cons, ?app_empty_l in HE.
    specialize (HE ltac:(done)).
    assert (Forall (λ v, ∀ ind rest f, delimited rest = true → (size v ≤ f)%nat →
              parse_value f (stringify_at ind v +:+ rest) = Some (v, rest))
              (x :: l)) as HP.
    { clear -IH Hwf. induction (x :: l) as [|y l' IHl]; [constructor|].
      apply Forall_cons in IH as [IHy IH]. apply Forall_cons in Hwf as [Hy Hwf].
      constructor; [by apply IHy|by apply IHl]. }
    specialize (HE HP [] f ltac:(lia)).
    rewrite <- parse_elements_skip in HE.
    rewrite skip_ws_nl.
    destruct (skip_ws _) as [|c t] eqn:Esk; [done|].
    destruct (Ascii.eqb_spec c "]") as [->|_]; [|done].
    exfalso. destruct f as [|f']; [done|].
    simpl in HE. destruct f' as [|f'']; [discriminate HE|].
    simpl in HE. discriminate HE.
  - destruct l as [|x l]; [reflexivity|].
    change (well_formed (JObj (x :: l)))
      with (forallb (λ kv, well_formed (snd kv)) (x :: l)
            && bool_decide (NoDup (map fst (x :: l)))) in Hwf.
    apply andb_prop in Hwf as [Hwf Hnd]. apply forallb_Forall in Hwf.
    apply bool_decide_eq_true in Hnd.
    change (size (JObj (x :: l)))
      with (S (list_sum (map (λ kv, S (size (snd kv))) (x :: l)))) in Hf.
    change (stringify_at ind (JObj (x :: l)))
      with ("{" +:+ nl +:+
            join_lines (map (λ kv, spaces (ind + 2) +:+ quote (fst kv) +:+ ": "
                                   +:+ stringify_at (ind + 2) (snd kv))
                            (x :: l))
            +:+ nl +:+ spaces ind +:+ "}").
    repeat rewrite ?app_assoc_s, ?app_cons, ?app_empty_l.
    rewrite parse_value_object.
    pose proof (parse_members_lines ind rest (x :: l)) as HE.
    repeat rewrite ?app_assoc_s, ?app_cons, ?app_empty_l in HE.
    specialize (HE ltac:(done)).
    assert (Forall (λ kv, ∀ ind rest f, delimited rest = true →
              (size (snd kv) ≤ f)%nat →
              parse_value f (stringify_at ind (snd kv) +:+ rest)
              = Some (snd kv, rest)) (x :: l)) as HP.
    { clear -IH Hwf. induction (x :: l) as [|y l' IHl]; [constructor|].
      apply Forall_cons in IH as [IHy IH]. apply Forall_cons in Hwf as [Hy Hwf].
      constructor; [by apply IHy|by apply IHl]. }
    specialize (HE HP [] f Hnd ltac:(lia)).
    rewrite <- parse_members_skip in HE.
    rewrite skip_ws_nl.
    destruct (skip_ws _) as [|c t] eqn:Esk; [done|].
    destruct (Ascii.eqb_spec c "}") as [->|_]; [|done].
    exfalso. destruct f as [|f']; [done|].
    simpl in HE. discriminate HE.
Qed.

(** A value [JSON.parse] can produce is read back from its
    [JSON.stringify] text. *)
Lemma parse_stringify (v : json) :
  well_formed v = true → parse (stringify v) = Some v.
Proof.
  intros Hwf. unfold parse, stringify.
  pose proof (parse_value_stringify v Hwf 0 EmptyString
                (2 * String.length (stringify_at 0 v) + 2) eq_refl) as H.
  rewrite app_empty_r in H. rewrite H; [done|].
  pose proof (size_le_length v Hwf 0). lia.
Qed.

End json_round_trip_values.

Section json_parse_well_formed.
Import Json.

Lemma strip_zeros_canonical fuel m e :
  e ≤ 0 → fuel = Z.to_nat (- e) → canonical (strip_zeros fuel m e) = true.
Proof.
  revert m e. induction fuel as [|fuel IH]; intros m e He Hfuel; simpl.
  - apply bool_decide_eq_true. simpl. lia.
  - destruct (decide (0 ≤ e)).
    { apply bool_decide_eq_true. simpl. lia. }
    destruct (decide (m `mod` 10 = 0)).
    + apply IH; lia.
    + apply bool_decide_eq_true. simpl. lia.
Qed.

Lemma normalize_canonical' m e : canonical (normalize m e) = true.
Proof.
  unfold normalize. destruct (decide (m = 0)); [done|].
  destruct (decide (0 ≤ e)); [done|].
  apply strip_zeros_canonical; lia.
Qed.

Lemma parse_number_canonical s n r :
  parse_number s = Some (n, r) → canonical n = true.
Proof.
  unfold parse_number. intros H.
  repeat (case_match; simplify_option_eq); apply normalize_canonical'.
Qed.

End json_parse_well_formed.

Section json_parse_well_formed_values.
Import Json.

(** The shapes of a successful [parse_value]. *)
Lemma parse_value_cases f s v r :
  parse_value (S f) s = Some (v, r) →
  (∃ t, skip_ws s = String "{" t)
  ∨ (∃ t, skip_ws s = String "[" t)
  ∨ v = JNull ∨ (∃ b, v = JBool b) ∨ (∃ x, v = JStr x)
  ∨ (∃ n s', v = JNum n ∧ parse_number s' = Some (n, r)).
Proof.
  intros H. simpl in H. destruct (skip_ws s) as [|c t]; [discriminate H|].
  ascii_cases c;
    lazymatch type of H with
    | expect _ _ _ = _ =>
        unfold expect in H; case_match; simplify_eq; by eauto 10
    | parse_members _ _ _ = _ => left; by exists t
    | parse_elements _ _ _ = _ => right; left; by exists t
    | match skip_ws _ with _ => _ end = _ =>
        first [left; by exists t|right; left; by exists t]
    | _ =>
        first [change (Ascii.eqb _ Str.dq) with true in H
              |change (Ascii.eqb _ Str.dq) with false in H];
        cbv iota in H;
        lazymatch type of H with
        | None = _ => discriminate H
        | (parse_string_body _ ≫= _) = _ =>
            destruct (parse_string_body t) as [[x r']|]; simplify_eq/=;
            do 4 right; left; by eexists
        | (parse_number ?s' ≫= _) = _ =>
            destruct (parse_number s') as [[n r']|] eqn:E; simplify_eq/=;
            do 5 right; by exists n, s'
        end
    end.
Qed.

Lemma obj_set_keys k v acc :
  NoDup (map fst acc) → NoDup (map fst (obj_set k v acc)).
Proof.
  induction acc as [|[k' v'] acc IH]; simpl.
  - intros _. apply NoDup_singleton.
  - intros [Hk' Hnd]%NoDup_cons.
    destruct (String.eqb_spec k k') as [->|Hne]; simpl.
    + by apply NoDup_cons.
    + apply NoDup_cons. split; [|by apply IH].
      intros Hin. apply Hk'. clear -Hin Hne.
      induction acc as [|[k2 v2] acc IH]; simpl in *.
      * apply list_elem_of_singleton in Hin. congruence.
      * destruct (String.eqb_spec k k2) as [->|]; simpl in *; [done|].
        apply elem_of_cons in Hin as [->|Hin]; [by left|].
        right. by apply IH.
Qed.

Lemma obj_set_values k v acc :
  well_formed v = true →
  forallb (λ kv, well_formed (snd kv)) acc = true →
  forallb (λ kv, well_formed (snd kv)) (obj_set k v acc) = true.
Proof.
  intros Hv. induction acc as [|[k' v'] acc IH]; simpl.
  - by rewrite Hv.
  - intros [Hv' Hacc]%andb_prop.
    destruct (String.eqb_spec k k') as [->|Hne]; simpl.
    + by rewrite Hv, Hacc.
    + by rewrite Hv', IH.
Qed.

Lemma obj_set_well_formed k v acc :
  well_formed v = true → well_formed (JObj acc) = true →
  well_formed (JObj (obj_set k v acc)) = true.
Proof.
  intros Hv Hacc.
  change (forallb (λ kv, well_formed (snd kv)) acc
          && bool_decide (NoDup (map fst acc)) = true) in Hacc.
  apply andb_prop in Hacc as [Hvs Hnd%bool_decide_eq_true].
  change (forallb (λ kv, well_formed (snd kv)) (obj_set k v acc)
          && bool_decide (NoDup (map fst (obj_set k v acc))) = true).
  rewrite obj_set_values by done.
  by rewrite bool_decide_true by by apply obj_set_keys.
Qed.

Lemma parse_value_well_formed f :
  (∀ s v r, parse_value f s = Some (v, r) → well_formed v = true)
  ∧ (∀ s acc v r, well_formed (JArr acc) = true →
       parse_elements f s acc = Some (v, r) → well_formed v = true)
  ∧ (∀ s acc v r, well_formed (JObj acc) = true →
       parse_members f s acc = Some (v, r) → well_formed v = true).
Proof.
  induction f as [|f (IHv & IHe & IHm)]; [done|].
  split; [|split].
  - intros s v r H.
    destruct (parse_value_cases f s v r H)
      as [[t E]|[[t E]|[->|[[b ->]|[[x ->]|(n & s' & -> & Hn)]]]]]; try done.
    + rewrite <- parse_value_skip, E, parse_value_object in H.
      destruct (skip_ws t) as [|c t'] eqn:Et;
        [exact (IHm _ [] _ _ eq_refl H)|].
      destruct (Ascii.eqb c "}");
        [by simplify_eq|exact (IHm _ [] _ _ eq_refl H)].
    + rewrite <- parse_value_skip, E, parse_value_array in H.
      destruct (skip_ws t) as [|c t'] eqn:Et;
        [exact (IHe _ [] _ _ eq_refl H)|].
      destruct (Ascii.eqb c "]");
        [by simplify_eq|exact (IHe _ [] _ _ eq_refl H)].
    + simpl. by eapply parse_number_canonical.
  - intros s acc v r Hacc H. simpl in H.
    destruct (parse_value f s) as [[x r1]|] eqn:Ex; [|discriminate H].
    simpl in H. apply IHv in Ex.
    assert (well_formed (JArr (acc ++ [x])) = true) as Hacc'.
    { simpl in *. rewrite forallb_app, Hacc. simpl. by rewrite Ex. }
    destruct (skip_ws r1) as [|c t]; [discriminate H|].
    ascii_cases c; try discriminate H;
      first [exact (IHe _ _ _ _ Hacc' H)|by simplify_eq].
  - intros s acc v r Hacc H. simpl in H.
    destruct (skip_ws s) as [|c t]; [discriminate H|].
    destruct (Ascii.eqb c Str.dq); [|discriminate H].
    destruct (parse_string_body t) as [[k r1]|]; [|discriminate H].
    simpl in H. destruct (skip_ws r1) as [|c1 r2]; [discriminate H|].
    ascii_cases c1; try discriminate H.
    destruct (parse_value f r2) as [[x r3]|] eqn:Ex; [|discriminate H].
    simpl in H. apply IHv in Ex.
    pose proof (obj_set_well_formed k x acc Ex Hacc) as Hacc'.
    destruct (skip_ws r3) as [|c3 t']; [discriminate H|].
    ascii_cases c3; try discriminate H;
      first [exact (IHm _ _ _ _ Hacc' H)|by simplify_eq].
Qed.

(** What [JSON.parse] returns is well formed. *)
Lemma parse_well_formed s v : parse s = Some v → well_formed v = true.
Proof.
  unfold parse. intros H.
  destruct (parse_value _ s) as [[x r]|] eqn:E; [|discriminate H].
  simpl in H. destruct (skip_ws r); [|discriminate H]. simplify_eq.
  by eapply (proj1 (parse_value_well_formed _)).
Qed.

End json_parse_well_formed_values.

(** ** What the lock file says *)

Section lock_records.
Import Json Js FileOperations.

Lemma obj_get_well_formed k l v :
  well_formed (JObj l) = true → obj_get k l = Some v → well_formed v = true.
Proof.
  change (well_formed (JObj l))
    with (forallb (λ kv, well_formed (snd kv)) l
          && bool_decide (NoDup (map fst l))).
  intros [Hl _]%andb_prop. induction l as [|[k' v'] l IH]; [done|].
  simpl in *. apply andb_prop in Hl as [Hv' Hl].
  destruct (String.eqb k k'); [by intros [= <-]|by apply IH].
Qed.

(** The worker identifier of a process is a string of the environment,
    a value read from the configuration file, or the string "unknown":
    a value [JSON.parse] can produce. *)
Lemma getCurrentWorkerId_well_formed st v st' :
  run getCurrentWorkerId st = (inr (Some v), st') → well_formed v = true.
Proof.
  destruct st as [p w]. unfold getCurrentWorkerId. run_seq.
  destruct (env_worker_id p) as [[|c s]|]; run_seq;
    try (by intros [= <- <-]);
    (destruct (Fs.pathExists _ _); run_seq; [|by intros [= <- <-]]);
    rewrite run_call; cbn; (destruct (io w _) as [[e|content] w1]);
    run_seq; try (by intros [= <- <-]);
    unfold JSON_parse; (destruct (parse content) as [config|] eqn:Ep);
    run_seq; try (by intros [= <- <-]);
    unfold prop; (destruct (get config "worker_id") as [[x|]|] eqn:Eg);
    run_seq; try (by intros [= <- <-]);
    intros [= <- <-]; apply parse_well_formed in Ep;
    (destruct config as [| | | | |l]; try discriminate Eg);
    injection Eg as Eg; by eapply obj_get_well_formed.
Qed.

Lemma workerId_of_well_formed p w v :
  workerId_of p w = Some v → well_formed v = true.
Proof.
  unfold workerId_of.
  destruct (run getCurrentWorkerId (p, w)) as [[e|me] st'] eqn:E; [done|].
  simpl. intros ->. by eapply getCurrentWorkerId_well_formed.
Qed.

Lemma lock_record_well_formed lockId me now pid :
  (∀ v, me = Some v → well_formed v = true) →
  well_formed (lock_record lockId me now pid) = true.
Proof.
  intros Hme. destruct me as [v|].
  - unfold lock_record.
    change (well_formed v && true && true = true).
    by rewrite (Hme v eq_refl).
  - done.
Qed.

(** The lock file a grant writes is read back as the record written. *)
Lemma lock_record_read_back lockId p w now pid :
  let me := workerId_of p w in
  let record := lock_record lockId me now pid in
  parse (stringify record) = Some record
  ∧ get record "timestamp" = Some (Some (JInt now))
  ∧ get record "workerId" = Some me.
Proof.
  intros me record. split; [|split].
  - apply parse_stringify, lock_record_well_formed.
    intros v. apply workerId_of_well_formed.
  - subst record. by destruct me.
  - subst record. by destruct me.
Qed.

(** [acquireLock] on a path whose lock file is older than the timeout. *)
Lemma acquireLock_stale (f : string) (timeout : Z) p σ t n
    (content : string) (lockData : json) (ts : Z) :
  σ !! (f +:+ ".lock") = Some (Fs.File content) →
  parse content = Some lockData →
  get lockData "timestamp" = Some (Some (JInt ts)) →
  t - ts > timeout →
  run (acquireLock f timeout) (p, mkWorld σ t n [])
  = (inr (uuid_of n),
     (mkProc (<[f := LockInfo (uuid_of n) (f +:+ ".lock")]> (locks p))
             (timers p ++ [Timer t (clamp_delay timeout) f (uuid_of n)])
             (env_worker_id p) (cwd p) (pid p),
      mkWorld (<[f +:+ ".lock" :=
                   Fs.File (stringify
                     (lock_record (uuid_of n)
                        (workerId_of p (mkWorld (Fs.remove σ (f +:+ ".lock"))
                                                t (S n) []))
                        t (pid p)))]> (Fs.remove σ (f +:+ ".lock")))
              t (S n) [])).
Proof.
  intros Hf Hp Hts Hage. unfold acquireLock. run_seq.
  erewrite check_lock_read;
    [|by rewrite Hf|by eapply readLockFile_parsed].
  rewrite Hts, age_exceeds_int, bool_decide_true by lia.
  rewrite grant_lock_no_fault by (by rewrite remove_lookup_self). done.
Qed.

(** X9. A lock granted at time [t] keeps every process out, the holder
    included, until the timeout the caller passes has gone by since the
    grant or the release timer of the grant has fired, whichever comes
    first. [dt] milliseconds after the grant, on the tree the grant left
    (the process of the holder has not run its timers, or has exited),
    [acquireLock] throws the "locked" error naming the holder and
    changes nothing when [dt] does not exceed the timeout of the call,
    and is granted when it does. Once the holder has run its timers
    the outcome is the same as long as [dt] is below the delay of the
    timer; from then on the lock file is gone and every call is
    granted. (The directory of the document exists, no primitive is
    rejected, and the times and the timeout are integers below 2^53 in
    magnitude.) *)
Theorem granted_lock_excludes_until_timeout
    (filePath : string) (timeout timeout' dt : Z) (p q : Proc) (σ : Fs.tree)
    (t : Z) (n : nat) :
  let lockFile := filePath +:+ ".lock" in
  let granted := snd (run (acquireLock filePath timeout) (p, mkWorld σ t n [])) in
  let unfired := advance dt (snd granted) in
  let fired := snd (fire_timers (fst granted, unfired)) in
  let holder := workerId_of p (mkWorld σ t (S n) []) in
  let is_granted (w : World) :=
    ∃ q' w' me,
      run (acquireLock filePath timeout') (q, w) = (inr (uuid_of (S n)), (q', w'))
      ∧ locks q' !! filePath = Some (LockInfo (uuid_of (S n)) lockFile)
      ∧ fs w' !! lockFile
        = Some (Fs.File (stringify
                  (lock_record (uuid_of (S n)) me (t + dt) (pid q)))) in
  let is_refused (w : World) :=
    run (acquireLock filePath timeout') (q, w)
    = (inl (Locked holder), (q, set_uuid_next (S (S n)) w)) in
  σ !! lockFile = None →
  σ !! Paths.dirname filePath = Some Fs.Dir →
  timers p = [] →
  0 ≤ dt →
  safe_integer t → safe_integer (t + dt) → safe_integer timeout' →
  (dt ≤ timeout' → is_refused unfired)
  ∧ (dt > timeout' → is_granted unfired)
  ∧ (dt < clamp_delay timeout → dt ≤ timeout' → is_refused fired)
  ∧ (clamp_delay timeout ≤ dt ∨ dt > timeout' → is_granted fired).
Proof.
  intros lockFile granted unfired fired holder is_granted is_refused
    Hl _ Ht Hdt _ _ _.
  subst lockFile granted unfired fired holder is_granted is_refused.
  rewrite (acquireLock_free filePath timeout p σ t n) by done.
  cbn [fst snd]. rewrite Ht.
  destruct (lock_record_read_back (uuid_of n) p (mkWorld σ t (S n) []) t (pid p))
    as (Hparse & Hts & Hw).
  set (text := stringify (lock_record (uuid_of n)
                            (workerId_of p (mkWorld σ t (S n) [])) t (pid p))) in *.
  assert (t + dt - t ≤ timeout' →
          run (acquireLock filePath timeout')
              (q, mkWorld (<[filePath +:+ ".lock" := Fs.File text]> σ)
                          (t + dt) (S n) [])
          = (inl (Locked (workerId_of p (mkWorld σ t (S n) []))),
             (q, mkWorld (<[filePath +:+ ".lock" := Fs.File text]> σ)
                         (t + dt) (S (S n)) []))) as Hlive.
  { intros Hage. eapply acquireLock_live; [apply lookup_insert_eq|done..]. }
  assert (t + dt - t > timeout' →
          ∃ q' w' me,
            run (acquireLock filePath timeout')
                (q, mkWorld (<[filePath +:+ ".lock" := Fs.File text]> σ)
                            (t + dt) (S n) [])
            = (inr (uuid_of (S n)), (q', w'))
            ∧ locks q' !! filePath
              = Some (LockInfo (uuid_of (S n)) (filePath +:+ ".lock"))
            ∧ fs w' !! (filePath +:+ ".lock")
              = Some (Fs.File (stringify
                        (lock_record (uuid_of (S n)) me (t + dt) (pid q)))))
    as Hstale.
  { intros Hage. erewrite acquireLock_stale; [|apply lookup_insert_eq|done..].
    eexists _, _, _. split; [reflexivity|]. cbn.
    split; by rewrite lookup_insert_eq. }
  unfold advance, set_clock. cbn.
  split; [|split; [|split]].
  - intros Hage. apply Hlive. lia.
  - intros Hage. apply Hstale. lia.
  - intros Hdelay Hage. unfold fire_timers, set_timers, due. cbn.
    rewrite bool_decide_false by lia. cbn. apply Hlive. lia.
  - intros Hor. unfold fire_timers, set_timers, due. cbn.
    destruct (decide (clamp_delay timeout ≤ dt)) as [Hdelay|Hdelay].
    + rewrite bool_decide_true by lia. cbn. unfold run_callbacks. cbn.
      rewrite releaseLock_match by (cbn; by rewrite lookup_insert_eq).
      cbn. rewrite acquireLock_free by apply remove_lookup_self.
      eexists _, _, _. split; [reflexivity|]. cbn.
      split; by rewrite lookup_insert_eq.
    + rewrite bool_decide_false by lia. cbn. apply Hstale. lia.
Qed.

End lock_records.

(** ** Writing and reading back *)

Section write_read.
Import Json Js FileOperations.

Lemma dataString_of_value (v : json) :
  (∀ s, v ≠ JStr s) → dataString_of (VJson v) = Some (Some (stringify v)).
Proof. intros Hs. destruct v; try done. by destruct (Hs s). Qed.

Lemma attemptJSONRecovery_well_formed content :
  well_formed (attemptJSONRecovery content) = true.
Proof.
  unfold attemptJSONRecovery.
  destruct (parse (repair content)) eqn:E; [|done].
  by eapply parse_well_formed.
Qed.

Lemma lock_not_document (f : string) : f ≠ f +:+ ".lock".
Proof.
  intros H%(f_equal String.length). rewrite length_app in H. simpl in H. lia.
Qed.

Lemma document_not_under_lock (f : string) :
  Paths.under (f +:+ ".lock") f = false.
Proof. apply under_longer. rewrite length_app. simpl. lia. Qed.

(** The state a successful [atomicWrite] of a parsed value leaves. *)
Lemma atomicWrite_value (f : string) (v : json) (lockId : string) p σ t n :
  holds_lock p f lockId = true →
  well_formed v = true → (∀ s, v ≠ JStr s) →
  σ !! (f +:+ temp_suffix t n) = None →
  σ !! f ≠ Some Fs.Dir →
  ∃ σ',
    run (atomicWrite f (VJson v) lockId) (p, mkWorld σ t n [])
    = (inr tt,
       (mkProc (delete f (locks p)) (timers p) (env_worker_id p) (cwd p) (pid p),
        mkWorld σ' t (S n) []))
    ∧ σ' !! f = Some (Fs.File (stringify v))
    ∧ σ' !! (f +:+ ".lock") = None
    ∧ σ' !! (f +:+ temp_suffix t n) = None.
Proof.
  intros Hlock Hwf Hs Htemp Hdir.
  destruct (atomicWrite_no_fault f (VJson v) lockId (stringify v) p σ t n
              Hlock (dataString_of_value v Hs) Htemp Hdir)
    as (σ1 & _ & Hrun).
  { intros _. rewrite parse_stringify by done. by eexists. }
  eexists. split; [exact Hrun|]. split; [|split].
  - rewrite remove_lookup_other by apply document_not_under_lock.
    apply lookup_insert_eq.
  - apply remove_lookup_self.
  - assert (Paths.under (f +:+ ".lock") (f +:+ temp_suffix t n) = false) as Hu.
    { apply under_sibling.
      - destruct (temp_suffix_head t n) as (r & ->). done.
      - destruct (temp_suffix_head t n) as (r & ->). done. }
    rewrite remove_lookup_other by done.
    rewrite lookup_insert_ne, lookup_delete_eq; [done|].
    intros H%(f_equal String.length). rewrite length_app in H.
    pose proof (temp_suffix_length t n). lia.
Qed.

(** X10. What [atomicWrite] stores is what [safeJSONRead] returns: after
    a write of a value [JSON.parse] can produce (other than a string) by
    the holder of the lock, the document reads back as that value, and
    the read changes nothing. The directory of the document exists and
    the path of the document is not itself a directory. *)
Theorem written_value_is_read_back
    (filePath : string) (v : json) (lockId : string)
    (p : Proc) (σ : Fs.tree) (t : Z) (n : nat) :
  holds_lock p filePath lockId = true →
  well_formed v = true →
  (∀ s, v ≠ JStr s) →
  σ !! Paths.dirname filePath = Some Fs.Dir →
  σ !! filePath ≠ Some Fs.Dir →
  σ !! tempFile_of filePath t (uuid_of n) = None →
  ∃ st',
    run (atomicWrite filePath (VJson v) lockId) (p, mkWorld σ t n [])
    = (inr tt, st')
    ∧ run (safeJSONRead filePath) st' = (inr v, st').
Proof.
  intros Hlock Hwf Hs _ Hdir Htemp. rewrite tempFile_of_suffix in Htemp.
  destruct (atomicWrite_value filePath v lockId p σ t n Hlock Hwf Hs Htemp Hdir)
    as (σ' & Hrun & Hdoc & _).
  eexists. split; [exact Hrun|].
  unfold safeJSONRead. run_step. unfold Fs.readFile. rewrite Hdoc. run_step.
  unfold JSON_parse. rewrite parse_stringify by done. by run_step.
Qed.

(** [safeJSONRead] of a document that does not parse and that the
    repair turns into a truthy value, with no lock file in the way and
    no primitive rejected. *)
Lemma safeJSONRead_repairs
    (filePath content : string) (p : Proc) (σ : Fs.tree) (t : Z) (n : nat) :
  let lockFile := filePath +:+ ".lock" in
  let recovered := attemptJSONRecovery content in
  σ !! filePath = Some (Fs.File content) →
  parse content = None →
  truthy recovered = true →
  (∀ s, recovered ≠ JStr s) →
  σ !! lockFile = None →
  σ !! (filePath +:+ temp_suffix t (S n)) = None →
  ∃ σ',
    run (safeJSONRead filePath) (p, mkWorld σ t n [])
    = (inr recovered,
       (mkProc (delete filePath (locks p))
               (timers p ++ [Timer t (clamp_delay maxLockTime) filePath
                               (uuid_of n)])
               (env_worker_id p) (cwd p) (pid p),
        mkWorld σ' t (S (S n)) []))
    ∧ σ' !! filePath = Some (Fs.File (stringify recovered))
    ∧ parse (stringify recovered) = Some recovered
    ∧ σ' !! lockFile = None
    ∧ σ' !! (filePath +:+ temp_suffix t (S n)) = None.
Proof.
  intros lockFile recovered Hf Hbad Htruthy Hs Hl Htemp. subst lockFile.
  pose proof (attemptJSONRecovery_well_formed content) as Hwf.
  fold recovered in Hwf.
  unfold safeJSONRead. run_step.
  unfold Fs.readFile at 1. rewrite Hf. run_step.
  unfold JSON_parse at 1. rewrite Hbad. run_step.
  unfold Fs.readFile at 1. rewrite Hf. run_step.
  fold recovered. rewrite Htruthy. run_step.
  rewrite acquireLock_free by done. rewrite run_bind.
  match goal with
  | |- context [run (atomicWrite _ _ _) (?p1, mkWorld ?σ1 _ _ _)] =>
      destruct (atomicWrite_value filePath recovered (uuid_of n) p1 σ1 t (S n))
        as (σ' & Hrun & Hdoc & Hlock & Htmp)
  end.
  { unfold holds_lock. cbn. rewrite lookup_insert_eq. cbn.
    apply String.eqb_refl. }
  { done. }
  { done. }
  { rewrite lookup_insert_ne; [done|].
    intros H%(inj (String.append filePath)).
    destruct (temp_suffix_head t (S n)) as (r & Hr). rewrite Hr in H.
    discriminate H. }
  { rewrite lookup_insert_ne; [by rewrite Hf|].
    intros H%(f_equal String.length). rewrite length_app in H.
    simpl in H. lia. }
  rewrite Hrun. run_step.
  exists σ'. cbn. rewrite delete_insert_eq.
  split; [reflexivity|]. split; [exact Hdoc|].
  split; [by apply parse_stringify|]. by split.
Qed.

(** X11. A document that does not parse but that the repair turns into
    JSON is rewritten by the read: with no lock file in the way and no
    primitive rejected, [safeJSONRead] returns the repaired value, the
    document afterwards parses to that value, and the lock taken for the
    write is released. *)
Theorem safe_read_repairs_document
    (filePath content : string) (p : Proc) (σ : Fs.tree) (t : Z) (n : nat) :
  let lockFile := filePath +:+ ".lock" in
  let temp := tempFile_of filePath t (uuid_of (S n)) in
  let recovered := attemptJSONRecovery content in
  σ !! filePath = Some (Fs.File content) →
  parse content = None →
  truthy recovered = true →
  (∀ s, recovered ≠ JStr s) →
  σ !! lockFile = None →
  σ !! temp = None →
  ∃ p' σ' text,
    run (safeJSONRead filePath) (p, mkWorld σ t n [])
    = (inr recovered, (p', mkWorld σ' t (S (S n)) []))
    ∧ σ' !! filePath = Some (Fs.File text)
    ∧ parse text = Some recovered
    ∧ σ' !! lockFile = None
    ∧ σ' !! temp = None
    ∧ locks p' = delete filePath (locks p).
Proof.
  intros lockFile temp recovered Hf Hbad Htruthy Hs Hl Htemp.
  subst lockFile temp. rewrite tempFile_of_suffix in *.
  destruct (safeJSONRead_repairs filePath content p σ t n
              Hf Hbad Htruthy Hs Hl Htemp)
    as (σ' & Hrun & Hdoc & Hparse & Hlock & Htmp).
  eexists _, σ', _. split; [exact Hrun|]. by repeat split.
Qed.

End write_read.

Section write_read_witness.
Import Json Js FileOperations.

Lemma granted_lock_excludes_until_timeout_witness :
  run (acquireLock Example.doc 30000)
      (Example.zephyr, advance 1000 (snd (snd Reclaim.first)))
  = (inl (Locked (Some (JStr "alex"))),
     (Example.zephyr,
      set_uuid_next 2 (advance 1000 (snd (snd Reclaim.first))))).
Proof.
  refine (proj1 (granted_lock_excludes_until_timeout Example.doc 30000 30000
                   1000 Example.alex Example.zephyr Reclaim.free_tree
                   0 0 _ _ _ _ _ _ _) _).
  - vm_compute; reflexivity.
  - vm_compute; reflexivity.
  - reflexivity.
  - lia.
  - unfold safe_integer; lia.
  - unfold safe_integer; lia.
  - unfold safe_integer; lia.
  - lia.
Defined.

Lemma written_value_is_read_back_witness :
  ∃ st',
    run (atomicWrite Example.doc (VJson GoodWrite.tasks) (uuid_of 0))
        (HeldLock.holder, mkWorld (fs HeldLock.world) 5 1 [])
    = (inr tt, st')
    ∧ run (safeJSONRead Example.doc) st' = (inr GoodWrite.tasks, st').
Proof.
  apply (written_value_is_read_back Example.doc GoodWrite.tasks (uuid_of 0)
           HeldLock.holder (fs HeldLock.world) 5 1).
  - vm_compute; reflexivity.
  - vm_compute; reflexivity.
  - intros s; discriminate.
  - vm_compute; reflexivity.
  - vm_compute; discriminate.
  - vm_compute; reflexivity.
Defined.

Lemma safe_read_repairs_document_witness :
  ∃ p' σ' text,
    run (safeJSONRead Example.doc)
        (Example.zephyr, mkWorld Corrupt.backed_up 9 0 [])
    = (inr (JArr [JInt 1; JInt 2]), (p', mkWorld σ' 9 2 []))
    ∧ σ' !! Example.doc = Some (Fs.File text)
    ∧ parse text = Some (JArr [JInt 1; JInt 2]).
Proof.
  destruct (safe_read_repairs_document Example.doc "[1, 2,]" Example.zephyr
              Corrupt.backed_up 9 0)
    as (p' & σ' & text & Hrun & Hdoc & Hparse & _).
  - vm_compute; reflexivity.
  - vm_compute; reflexivity.
  - vm_compute; reflexivity.
  - intros s; vm_compute; discriminate.
  - vm_compute; reflexivity.
  - vm_compute; reflexivity.
  - exists p', σ', text. split; [exact Hrun|]. split; [exact Hdoc|exact Hparse].
Defined.

End write_read_witness.

(** ** Backup rotation *)

Section rotation.
Import Json Js FileOperations.

Lemma split_last_spec (k d : string) :
  fst (Paths.split_last k) = Some d →
  k = d +:+ "/" +:+ snd (Paths.split_last k).
Proof.
  revert d. induction k as [|c k IH]; intros d; [done|]. simpl.
  destruct (Paths.split_last k) as [[d'|] b] eqn:E; simpl in *.
  - intros [= <-]. rewrite app_cons. f_equal. by apply IH.
  - destruct (Ascii.eqb_spec c "/") as [->|]; simpl; [|done].
    intros [= <-]. rewrite app_empty_l, app_cons, app_empty_l. f_equal.
    clear IH. revert b E. induction k as [|c k IH]; intros b; simpl.
    + by intros [= <-].
    + destruct (Paths.split_last k) as [[d'|] b'] eqn:E'; [done|].
      destruct (Ascii.eqb c "/"); [done|]. intros [= <-]. f_equal.
      by apply IH.
Qed.

Lemma no_slash_basename (k : string) : no_slash (Paths.basename k) = true.
Proof.
  unfold Paths.basename. induction k as [|c k IH]; [done|]. simpl.
  destruct (Paths.split_last k) as [[d'|] b] eqn:E; simpl in *; [done|].
  destruct (Ascii.eqb c "/") eqn:Ec; simpl; [done|].
  by rewrite IH, Ec.
Qed.

(** An entry of the backup directory is the directory, a slash, and a
    name without a slash. *)
Lemma entry_of_backupDir (f k : string) :
  Paths.dirname k = backupDir_of f →
  k = backupDir_of f +:+ "/" +:+ Paths.basename k.
Proof.
  unfold Paths.dirname. intros H. pose proof (backupDir_length f) as Hlen.
  destruct (fst (Paths.split_last k)) as [d|] eqn:E.
  - destruct d as [|c d].
    + rewrite <- H in Hlen. simpl in Hlen. lia.
    + rewrite <- H. by apply split_last_spec.
  - rewrite <- H in Hlen. simpl in Hlen. lia.
Qed.

Lemma dirname_entry (f x : string) :
  no_slash x = true →
  Paths.dirname (backupDir_of f +:+ "/" +:+ x) = backupDir_of f.
Proof.
  intros Hx. unfold Paths.dirname. rewrite split_last_join by done. simpl.
  pose proof (backupDir_length f).
  destruct (backupDir_of f); [simpl in *; lia|done].
Qed.

Lemma basename_entry (d x : string) :
  no_slash x = true → Paths.basename (d +:+ "/" +:+ x) = x.
Proof. intros Hx. unfold Paths.basename. by rewrite split_last_join. Qed.

(** The names [readdir] lists in the backup directory. *)
Lemma readdir_backupDir (f : string) (σ : Fs.tree) (files : list string) :
  Fs.readdir σ (backupDir_of f) = inr files →
  NoDup files
  ∧ ∀ x, x ∈ files ↔
         no_slash x = true
         ∧ is_Some (σ !! (backupDir_of f +:+ "/" +:+ x)).
Proof.
  unfold Fs.readdir. destruct (σ !! backupDir_of f) as [[]|]; try done.
  intros [= <-]. split.
  - apply NoDup_fmap_2_strong.
    + intros k1 k2 [[H1 _] _]%list_elem_of_filter
        [[H2 _] _]%list_elem_of_filter Hb.
      rewrite (entry_of_backupDir f k1), (entry_of_backupDir f k2) by done.
      by rewrite Hb.
    + apply NoDup_filter, NoDup_fst_map_to_list.
  - intros x. rewrite list_elem_of_fmap. split.
    + intros (k & -> & [[Hd Hne] Hk]%list_elem_of_filter).
      split; [apply no_slash_basename|].
      rewrite <- entry_of_backupDir by done.
      apply list_elem_of_fmap in Hk as ([k' v] & -> & Hkv).
      apply elem_of_map_to_list in Hkv. by eexists.
    + intros [Hx [v Hv]]. exists (backupDir_of f +:+ "/" +:+ x).
      split; [by rewrite basename_entry|].
      apply list_elem_of_filter. split.
      * split; [by apply dirname_entry|].
        intros H%(f_equal String.length). rewrite !length_app in H.
        simpl in H. lia.
      * apply list_elem_of_fmap. exists (backupDir_of f +:+ "/" +:+ x, v).
        split; [done|]. by apply elem_of_map_to_list.
Qed.

End rotation.

Section rotation_cleanup.
Import Json Js FileOperations.

Lemma sort_insert_perm {A} (cmp : A → A → Z) (x : A) (l : list A) :
  Builtin.sort_insert cmp x l ≡ₚ x :: l.
Proof.
  induction l as [|y l IH]; [done|]. simpl.
  destruct (decide (cmp x y ≤ 0)); [done|].
  rewrite IH. apply Permutation_swap.
Qed.

Lemma sort_perm {A} (cmp : A → A → Z) (l : list A) :
  Builtin.sort cmp l ≡ₚ l.
Proof.
  induction l as [|x l IH]; [done|]. unfold Builtin.sort in *. simpl.
  by rewrite sort_insert_perm, IH.
Qed.

Lemma elem_of_backupFiles_of (f : string) (files : list string) (x : string) :
  x ∈ backupFiles_of f files
  ↔ x ∈ files ∧ Str.startsWith x (backup_prefix f) = true.
Proof.
  unfold backupFiles_of. rewrite sort_perm.
  rewrite !list_elem_of_In, filter_In. done.
Qed.

Lemma NoDup_backupFiles_of (f : string) (files : list string) :
  NoDup files → NoDup (backupFiles_of f files).
Proof.
  intros H. unfold backupFiles_of. rewrite sort_perm.
  apply NoDup_ListNoDup, List.NoDup_filter, NoDup_ListNoDup, H.
Qed.

Lemma foldl_remove_absent (g : string → string) (l : list string) σ k :
  σ !! k = None →
  foldl (λ σ x, Fs.remove σ (g x)) σ l !! k = None.
Proof.
  revert σ. induction l as [|x l IH]; intros σ H; [done|]. simpl.
  apply IH. unfold Fs.remove. apply map_lookup_filter_None. by left.
Qed.

Lemma foldl_remove_under (g : string → string) (l : list string) σ k x :
  x ∈ l → Paths.under (g x) k = true →
  foldl (λ σ x, Fs.remove σ (g x)) σ l !! k = None.
Proof.
  revert σ. induction l as [|y l IH]; intros σ Hx Hu.
  - by apply elem_of_nil in Hx.
  - simpl. apply elem_of_cons in Hx as [->|Hx]; [|by apply IH].
    apply foldl_remove_absent. by apply remove_lookup_under.
Qed.

Lemma foldl_remove_other (g : string → string) (l : list string) σ k :
  (∀ x, x ∈ l → Paths.under (g x) k = false) →
  foldl (λ σ x, Fs.remove σ (g x)) σ l !! k = σ !! k.
Proof.
  revert σ. induction l as [|y l IH]; intros σ H; [done|]. simpl.
  rewrite IH by (intros x Hx; apply H; by right).
  apply remove_lookup_other, H. by left.
Qed.

(** [cleanOldBackups] when no primitive is rejected. *)
Lemma cleanOldBackups_no_fault (f : string) p σ t n (files : list string) :
  Fs.readdir σ (backupDir_of f) = inr files →
  run (cleanOldBackups f) (p, mkWorld σ t n [])
  = (inr tt,
     (p, mkWorld (foldl (λ σ x, Fs.remove σ (backupDir_of f +:+ "/" +:+ x)) σ
                    (drop 10 (backupFiles_of f files))) t n [])).
Proof.
  intros Hdir. unfold cleanOldBackups. run_seq.
  assert (Fs.pathExists σ (backupDir_of f) = true) as ->.
  { unfold Fs.readdir in Hdir. unfold Fs.pathExists.
    destruct (σ !! backupDir_of f); [by apply bool_decide_eq_true|done]. }
  cbn. run_step. rewrite Hdir. run_step.
  destruct (remove_loop_frame f (Builtin.slice_from 10 (backupFiles_of f files))
              p σ t n []) as (r & σ' & fl' & Hrun & _ & Hnf).
  destruct (Hnf eq_refl) as (-> & -> & ->). by rewrite Hrun.
Qed.

(** X12. [cleanOldBackups] keeps the first ten backups of the document
    in its newest-first order and removes the others: afterwards the
    backups found in the directory are those ten; with ten backups or
    fewer nothing changes; and every entry that disappears is one of the
    backups beyond the tenth or lies below it. (No primitive is
    rejected.) *)
Theorem cleanup_keeps_first_ten
    (filePath : string) (p : Proc) (σ : Fs.tree) (t : Z) (n : nat)
    (files : list string) :
  let backupDir := backupDir_of filePath in
  let backups := backupFiles_of filePath files in
  Fs.readdir σ backupDir = inr files →
  ∃ σ' files',
    run (cleanOldBackups filePath) (p, mkWorld σ t n [])
    = (inr tt, (p, mkWorld σ' t n []))
    ∧ Fs.readdir σ' backupDir = inr files'
    ∧ backupFiles_of filePath files' ≡ₚ take 10 backups
    ∧ (length backups ≤ 10 → σ' = σ)%nat
    ∧ (∀ k, σ' !! k = σ !! k
            ∨ (σ' !! k = None
               ∧ ∃ x, x ∈ drop 10 backups
                      ∧ Paths.under (backupDir +:+ "/" +:+ x) k = true)).
Proof.
  intros bd B Hdir. subst bd.
  set (g := λ x : string, backupDir_of filePath +:+ "/" +:+ x).
  set (σ' := foldl (λ σ x, Fs.remove σ (g x)) σ (drop 10 B)).
  assert (σ' !! backupDir_of filePath = Some Fs.Dir) as Hbd.
  { unfold σ'. rewrite foldl_remove_other.
    - unfold Fs.readdir in Hdir.
      by destruct (σ !! backupDir_of filePath) as [[]|].
    - intros x _. apply under_longer. unfold g. rewrite !length_app.
      simpl. lia. }
  destruct (readdir_backupDir filePath σ files Hdir) as [Hnd Hin].
  assert (∃ files', Fs.readdir σ' (backupDir_of filePath) = inr files')
    as [files' Hdir'].
  { unfold Fs.readdir. rewrite Hbd. by eexists. }
  destruct (readdir_backupDir filePath σ' files' Hdir') as [Hnd' Hin'].
  exists σ', files'. split; [by apply cleanOldBackups_no_fault|].
  split; [done|]. split; [|split].
  - pose proof (NoDup_backupFiles_of filePath files Hnd) as HndB. fold B in HndB.
    rewrite <- (take_drop 10 B) in HndB.
    apply NoDup_app in HndB as (Htake & Hdisj & Hdrop).
    apply NoDup_Permutation;
      [by apply NoDup_backupFiles_of|done|].
    intros x. rewrite elem_of_backupFiles_of, Hin'. split.
    + intros [[Hx [v Hv]] Hpre].
      change (backupDir_of filePath +:+ "/" +:+ x) with (g x) in Hv.
      assert (x ∈ B) as HB.
      { apply elem_of_backupFiles_of. split; [|done]. apply Hin.
        split; [done|]. unfold σ' in Hv.
        destruct (σ !! g x) eqn:E; [by eexists|].
        by rewrite foldl_remove_absent in Hv. }
      rewrite <- (take_drop 10 B) in HB.
      apply elem_of_app in HB as [HB|HB]; [done|].
      unfold σ' in Hv. rewrite (foldl_remove_under g _ σ (g x) x HB) in Hv;
        [done|apply under_refl].
    + intros Hx.
      assert (x ∈ B) as HB.
      { rewrite <- (take_drop 10 B). apply elem_of_app. by left. }
      apply elem_of_backupFiles_of in HB as [[Hns Hsome]%Hin Hpre].
      split; [|done]. split; [done|].
      change (backupDir_of filePath +:+ "/" +:+ x) with (g x) in *.
      unfold σ'. rewrite foldl_remove_other; [done|].
      intros y Hy. unfold g. rewrite <- !app_assoc_s.
      apply under_sibling.
      * apply String.eqb_neq. intros ->. by apply (Hdisj x).
      * destruct (String.prefix (y +:+ "/") x) eqn:E; [|done].
        apply prefix_iff in E as [r ->].
        rewrite !no_slash_app in Hns. simpl in Hns.
        by rewrite andb_false_r in Hns.
  - intros Hlen. unfold σ'. by rewrite drop_ge.
  - intros k.
    destruct (decide (Exists (λ x, Paths.under (g x) k = true) (drop 10 B)))
      as [Hex|Hno].
    + right. apply Exists_exists in Hex as (x & Hx & Hu).
      split; [by eapply foldl_remove_under|]. by exists x.
    + left. apply foldl_remove_other. intros x Hx.
      destruct (Paths.under (g x) k) eqn:E; [|done].
      destruct Hno. apply Exists_exists. by exists x.
Qed.

End rotation_cleanup.

Section rotation_order.
Import Json Js FileOperations.

Lemma newest_first_timestamps (a b : string) (x y : Z) :
  timestamp_of a = Some x → timestamp_of b = Some y →
  newest_first a b = y - x.
Proof. unfold timestamp_of, newest_first. by intros -> ->. Qed.

(** Insertion with a comparator that orders by a key keeps a list
    ordered by that key. *)
Lemma sort_insert_sorted {A} (cmp : A → A → Z) (key : A → option Z)
    (x : A) (l : list A) :
  (∀ a b u v, key a = Some u → key b = Some v → cmp a b = v - u) →
  is_Some (key x) → Forall (λ a, is_Some (key a)) l →
  StronglySorted (λ a b, ∃ u v, key a = Some u ∧ key b = Some v ∧ v ≤ u) l →
  StronglySorted (λ a b, ∃ u v, key a = Some u ∧ key b = Some v ∧ v ≤ u)
                 (Builtin.sort_insert cmp x l).
Proof.
  intros Hcmp [u Hx] Hl Hs. induction Hs as [|y l Hs IH Hy]; simpl.
  - repeat constructor.
  - apply Forall_cons in Hl as [[v Hv] Hl].
    rewrite (Hcmp x y u v Hx Hv).
    destruct (decide (v - u ≤ 0)).
    + constructor; [by constructor|]. constructor.
      * exists u, v. repeat split; [done..|lia].
      * eapply Forall_impl; [exact Hy|]. simpl.
        intros b (v' & w & Hv' & Hw & Hle). exists u, w.
        repeat split; [done..|]. rewrite Hv in Hv'. injection Hv' as <-. lia.
    + constructor; [by apply IH|].
      rewrite sort_insert_perm. constructor; [|done].
      exists v, u. repeat split; [done..|lia].
Qed.

Lemma sort_sorted {A} (cmp : A → A → Z) (key : A → option Z) (l : list A) :
  (∀ a b u v, key a = Some u → key b = Some v → cmp a b = v - u) →
  Forall (λ a, is_Some (key a)) l →
  StronglySorted (λ a b, ∃ u v, key a = Some u ∧ key b = Some v ∧ v ≤ u)
                 (Builtin.sort cmp l).
Proof.
  intros Hcmp Hl. induction Hl as [|x l Hx Hl IH]; [constructor|].
  change (Builtin.sort cmp (x :: l))
    with (Builtin.sort_insert cmp x (Builtin.sort cmp l)).
  apply sort_insert_sorted; [done..| |done].
  by rewrite sort_perm.
Qed.

(** X13. When every backup of the document has a numeric timestamp in
    its name, the rotation keeps the newest: no backup beyond the tenth
    of [backupFiles] (those [cleanOldBackups] removes) has a later
    timestamp than one among the first ten, and [restoreFromBackup]'s
    choice, the head of the list, has the latest timestamp of all. *)
Theorem kept_backups_are_newest
    (filePath : string) (files : list string) :
  let backups := backupFiles_of filePath files in
  (∀ x, x ∈ backups → is_Some (timestamp_of x)) →
  (∀ a b ta tb,
     a ∈ take 10 backups → b ∈ drop 10 backups →
     timestamp_of a = Some ta → timestamp_of b = Some tb → tb ≤ ta)
  ∧ (∀ newest b tn tb,
       head backups = Some newest → b ∈ backups →
       timestamp_of newest = Some tn → timestamp_of b = Some tb → tb ≤ tn).
Proof.
  intros B Hts.
  assert (StronglySorted
            (λ a b, ∃ u v, timestamp_of a = Some u ∧ timestamp_of b = Some v
                           ∧ v ≤ u) B) as Hs.
  { unfold B, backupFiles_of. apply sort_sorted.
    - intros a b u v. apply newest_first_timestamps.
    - apply Forall_forall. intros x Hx. apply Hts.
      unfold B, backupFiles_of. by rewrite sort_perm. }
  split.
  - intros a b ta tb Ha Hb Hta Htb.
    rewrite <- (take_drop 10 B) in Hs.
    destruct (StronglySorted_app_1_elem_of _ _ _ a b Hs Ha Hb)
      as (u & v & Hu & Hv & Hle).
    congruence.
  - intros newest b tn tb Hhead Hb Htn Htb.
    destruct B as [|x l]; [done|]. injection Hhead as ->.
    apply elem_of_cons in Hb as [->|Hb]; [by simplify_eq; lia|].
    apply StronglySorted_inv in Hs as [_ Hall].
    rewrite Forall_forall in Hall.
    destruct (Hall b Hb) as (u & v & Hu & Hv & Hle). congruence.
Qed.

End rotation_order.

Section rotation_witness.
Import Json Js FileOperations.

Lemma cleanup_keeps_first_ten_witness :
  ∃ σ' files',
    run (cleanOldBackups Example.doc) (Example.alex, mkWorld Rotation.tree 12 0 [])
    = (inr tt, (Example.alex, mkWorld σ' 12 0 []))
    ∧ Fs.readdir σ' (backupDir_of Example.doc) = inr files'
    ∧ length (backupFiles_of Example.doc files') = 10%nat.
Proof.
  destruct (cleanup_keeps_first_ten Example.doc Example.alex Rotation.tree 12 0
              ["tasks.json.backup.7"; "tasks.json.backup.3";
               "tasks.json.backup.5"; "tasks.json.backup.9";
               "tasks.json.backup.11"; "tasks.json.backup.10";
               "tasks.json.backup.1"; "tasks.json.backup.6";
               "tasks.json.backup.2"; "tasks.json.backup.4";
               "tasks.json.backup.8"])
    as (σ' & files' & Hrun & Hdir & Hperm & _).
  - vm_compute; reflexivity.
  - exists σ', files'. split; [exact Hrun|]. split; [exact Hdir|].
    rewrite Hperm. vm_compute; reflexivity.
Defined.

Lemma kept_backups_are_newest_witness :
  head (backupFiles_of Example.doc
          ["tasks.json.backup.7"; "tasks.json.backup.11"])
  = Some "tasks.json.backup.11"
  ∧ timestamp_of "tasks.json.backup.7" = Some 7
  ∧ 7 ≤ 11.
Proof.
  split; [vm_compute; reflexivity|]. split; [vm_compute; reflexivity|].
  refine (proj2 (kept_backups_are_newest Example.doc
                   ["tasks.json.backup.7"; "tasks.json.backup.11"] _)
            "tasks.json.backup.11" "tasks.json.backup.7" 11 7 _ _ _ _).
  - intros x Hx. vm_compute in Hx.
    apply elem_of_cons in Hx as [->|Hx]; [vm_compute; eauto|].
    apply elem_of_cons in Hx as [->|Hx]; [vm_compute; eauto|].
    by apply elem_of_nil in Hx.
  - vm_compute; reflexivity.
  - vm_compute. right. left.
  - vm_compute; reflexivity.
  - vm_compute; reflexivity.
Defined.

End rotation_witness.

Section backup_made.
Import Json Js FileOperations.

(** [createBackup] when no primitive is rejected and the document
    exists. *)
Lemma createBackup_no_fault (f c : string) p σ t n (files : list string) :
  let bd := backupDir_of f in
  let bf := bd +:+ "/" +:+ backup_prefix f +:+ Str.of_Z t in
  σ !! f = Some (Fs.File c) →
  (∀ x, σ !! bd ≠ Some (Fs.File x)) →
  σ !! bf ≠ Some Fs.Dir →
  Fs.readdir (<[bf := Fs.File c]> (<[bd := Fs.Dir]> σ)) bd = inr files →
  run (createBackup f) (p, mkWorld σ t n [])
  = (inr tt,
     (p, mkWorld (foldl (λ σ x, Fs.remove σ (bd +:+ "/" +:+ x))
                    (<[bf := Fs.File c]> (<[bd := Fs.Dir]> σ))
                    (drop 10 (backupFiles_of f files))) t n [])).
Proof.
  intros bd bf Hf Hbd Hbf Hdir. subst bd bf.
  pose proof (backupDir_length f) as Hlen.
  assert (backupDir_of f +:+ "/" +:+ backup_prefix f +:+ Str.of_Z t
          ≠ backupDir_of f) as Hne.
  { intros H%(f_equal String.length). rewrite !length_app in H.
    simpl in H. lia. }
  assert (f ≠ backupDir_of f) as Hfbd.
  { intros H. rewrite <- H in Hbd. by destruct (Hbd c). }
  assert (f ≠ backupDir_of f +:+ "/" +:+ backup_prefix f +:+ Str.of_Z t)
    as Hfbf.
  { intros H. pose proof (not_below_backupDir f EmptyString eq_refl) as Hp.
    rewrite app_empty_r in Hp.
    pose proof (prefix_app (backupDir_of f +:+ "/")
                  (backup_prefix f +:+ Str.of_Z t)) as Hp'.
    rewrite app_assoc_s in Hp'. rewrite <- H in Hp'. congruence. }
  unfold createBackup. run_seq.
  unfold Fs.pathExists. rewrite bool_decide_true by (by rewrite Hf).
  cbn. run_step. rewrite backupDir_join.
  unfold Fs.ensureDir.
  assert (match σ !! backupDir_of f with
          | Some (Fs.File _) => @inl Fs.errno Fs.tree Fs.EEXIST
          | Some Fs.Dir => inr σ
          | None => inr (<[backupDir_of f := Fs.Dir]> σ)
          end = inr (<[backupDir_of f := Fs.Dir]> σ)) as ->.
  { destruct (σ !! backupDir_of f) as [[x|]|] eqn:E; [by destruct (Hbd x)| |done].
    by rewrite insert_id. }
  run_step. unfold Fs.copy.
  rewrite !lookup_insert_ne by done. rewrite Hf.
  assert (match σ !! (backupDir_of f +:+ "/" +:+ backup_prefix f +:+ Str.of_Z t)
          with
          | Some Fs.Dir => @inl Fs.errno Fs.tree Fs.EISDIR
          | _ => inr (<[backupDir_of f +:+ "/" +:+ backup_prefix f +:+ Str.of_Z t
                        := Fs.File c]> (<[backupDir_of f := Fs.Dir]> σ))
          end
          = inr (<[backupDir_of f +:+ "/" +:+ backup_prefix f +:+ Str.of_Z t
                   := Fs.File c]> (<[backupDir_of f := Fs.Dir]> σ))) as ->.
  { destruct (σ !! (backupDir_of f +:+ "/" +:+ backup_prefix f +:+ Str.of_Z t))
      as [[]|] eqn:E; done. }
  run_step. rewrite (cleanOldBackups_no_fault f _ _ _ _ files) by done.
  done.
Qed.

End backup_made.

Section backup_paths.
Import Json Js FileOperations.

Lemma prefix_shorter (p a b : string) :
  String.prefix p (a +:+ b) = true →
  (String.length p ≤ String.length a)%nat →
  String.prefix p a = true.
Proof.
  revert a. induction p as [|c p IH]; intros a; [by destruct a|].
  destruct a as [|c' a]; [simpl; lia|].
  rewrite app_cons, !prefix_cons.
  destruct (Ascii.ascii_dec c c'); [|done].
  intros Hp Hlen. apply IH; [done|simpl in Hlen; lia].
Qed.

Lemma prefix_same_length (p a : string) :
  String.prefix p a = true → String.length p = String.length a → p = a.
Proof.
  intros [r ->]%prefix_iff. rewrite length_app.
  destruct r; [by rewrite app_empty_r|simpl; lia].
Qed.

Lemma app_inj_length (a b s t : string) :
  a +:+ s = b +:+ t → String.length a = String.length b → a = b.
Proof.
  revert b. induction a as [|c a IH]; intros [|c' b]; try done.
  rewrite !app_cons. intros [= -> H] [= Hlen]. f_equal. by apply IH.
Qed.

(** The parent of the backup directory is shorter than the path of the
    document. *)
Lemma backupDir_parent (f d' : string) :
  fst (Paths.split_last (backupDir_of f)) = Some d' →
  (String.length d' < String.length f)%nat.
Proof.
  unfold backupDir_of, Paths.dirname.
  destruct (fst (Paths.split_last f)) as [[|c D]|] eqn:E.
  - pose proof (split_last_spec f _ E) as Hf.
    intros [= <-]. rewrite Hf. rewrite length_app. simpl. lia.
  - pose proof (split_last_spec f _ E) as Hf.
    unfold Paths.join.
    change (String.eqb (String c D) EmptyString) with false. cbn [orb].
    destruct (String.eqb (String c D) ".") eqn:E1; [done|].
    destruct (String.eqb (String c D) "/") eqn:E2.
    + simpl. intros [= <-]. rewrite Hf. simpl. lia.
    + rewrite split_last_join by done. simpl. intros [= <-].
      rewrite Hf. rewrite !length_app. simpl. lia.
  - done.
Qed.

(** No path the store names next to a document is an ancestor of one of
    its backups, unless it is the backup directory itself. *)
Lemma under_backup_entry (g name : string) :
  no_slash name = true →
  Paths.under g (backupDir_of g +:+ "/" +:+ name) = true →
  g = backupDir_of g.
Proof.
  intros Hname [Heq|Hp]%orb_prop.
  - apply String.eqb_eq in Heq.
    pose proof (not_below_backupDir g EmptyString eq_refl) as H.
    rewrite app_empty_r in H. rewrite Heq in H at 2.
    rewrite <- app_assoc_s, prefix_app in H. done.
  - pose proof (split_last_below _ _ Hp) as (d' & Hd' & Hlen).
    rewrite split_last_join in Hd' by done. simpl in Hd'.
    injection Hd' as <-.
    rewrite <- app_assoc_s in Hp.
    apply prefix_shorter in Hp; [|rewrite !length_app; simpl; lia].
    destruct (decide (String.length g = String.length (backupDir_of g)))
      as [Heq|Hne].
    + apply prefix_same_length in Hp; [|rewrite !length_app; simpl; lia].
      by apply app_inj_length in Hp.
    + exfalso. apply prefix_shorter in Hp; [|rewrite !length_app; simpl; lia].
      apply split_last_below in Hp as (d' & Hd' & Hlen').
      apply backupDir_parent in Hd'. lia.
Qed.

Lemma backupDir_app (f s : string) :
  no_slash s = true → backupDir_of (f +:+ s) = backupDir_of f.
Proof.
  intros Hs. unfold backupDir_of, Paths.dirname.
  by rewrite split_last_app.
Qed.

End backup_paths.

Section previous_version.
Import Json Js FileOperations.

(** Adding one backup to the directory adds at most one name to the
    list of backups. *)
Lemma backupFiles_of_insert (f name c : string) (σ : Fs.tree)
    (files files1 : list string) :
  let bd := backupDir_of f in
  Fs.readdir σ bd = inr files →
  Fs.readdir (<[bd +:+ "/" +:+ name := Fs.File c]> σ) bd = inr files1 →
  (length (backupFiles_of f files1) ≤ S (length (backupFiles_of f files)))%nat.
Proof.
  intros bd H0 H1. subst bd.
  destruct (readdir_backupDir f _ _ H0) as [Hnd0 Hin0].
  destruct (readdir_backupDir f _ _ H1) as [Hnd1 Hin1].
  change (S (length (backupFiles_of f files)))
    with (length (name :: backupFiles_of f files)).
  apply submseteq_length, NoDup_submseteq;
    [by apply NoDup_backupFiles_of|].
  intros x [[Hns Hsome]%Hin1 Hpre]%elem_of_backupFiles_of.
  destruct (decide (x = name)) as [->|Hne]; [by left|]. right.
  apply elem_of_backupFiles_of. split; [|done]. apply Hin0. split; [done|].
  rewrite lookup_insert_ne in Hsome; [done|].
  intros H%(inj (String.append (backupDir_of f))).
  by apply (inj (String.append "/")) in H.
Qed.

(** X14. A write keeps the version it replaces: when the document
    exists and fewer than ten backups of it do, a successful
    [atomicWrite] leaves the previous text in the backup named after the
    time of the write, next to the new text in the document. (No
    primitive is rejected.) *)
Theorem write_keeps_previous_version
    (filePath : string) (data : jsval) (lockId text previous : string)
    (files : list string) (p : Proc) (σ : Fs.tree) (t : Z) (n : nat) :
  let backupDir := backupDir_of filePath in
  let backupFile :=
    Paths.join backupDir (backup_prefix filePath +:+ Str.of_Z t) in
  holds_lock p filePath lockId = true →
  dataString_of data = Some (Some text) →
  σ !! tempFile_of filePath t (uuid_of n) = None →
  (Str.endsWith filePath ".json" = true → is_Some (parse text)) →
  σ !! filePath = Some (Fs.File previous) →
  (∀ x, σ !! backupDir ≠ Some (Fs.File x)) →
  σ !! backupFile ≠ Some Fs.Dir →
  Fs.readdir (<[backupDir := Fs.Dir]> σ) backupDir = inr files →
  (length (backupFiles_of filePath files) < 10)%nat →
  ∃ p' σ',
    run (atomicWrite filePath data lockId) (p, mkWorld σ t n [])
    = (inr tt, (p', mkWorld σ' t (S n) []))
    ∧ σ' !! filePath = Some (Fs.File text)
    ∧ σ' !! backupFile = Some (Fs.File previous).
Proof.
  intros bd bf Hlock Hdata Htemp Hjson Hf Hbd Hbf Hdir Hlen. subst bd bf.
  rewrite backupDir_join in *. rewrite tempFile_of_suffix in Htemp.
  set (bd := backupDir_of filePath) in *.
  set (name := backup_prefix filePath +:+ Str.of_Z t) in *.
  assert (no_slash name = true) as Hname.
  { unfold name, backup_prefix. rewrite !no_slash_app.
    by rewrite no_slash_basename, no_slash_of_Z. }
  pose proof (backupDir_length filePath) as Hbdlen. fold bd in Hbdlen.
  assert (bd +:+ "/" +:+ name ≠ bd) as Hne.
  { intros H%(f_equal String.length). rewrite !length_app in H.
    simpl in H. lia. }
  set (σ1 := <[bd +:+ "/" +:+ name := Fs.File previous]> (<[bd := Fs.Dir]> σ)).
  assert (∃ files1, Fs.readdir σ1 bd = inr files1) as [files1 Hdir1].
  { unfold Fs.readdir, σ1. rewrite lookup_insert_ne by done.
    rewrite lookup_insert_eq. by eexists. }
  pose proof (backupFiles_of_insert filePath name previous _ _ _ Hdir Hdir1)
    as Hlen1.
  pose proof (createBackup_no_fault filePath previous p σ t (S n) files1
                Hf Hbd Hbf Hdir1) as Hbackup.
  rewrite drop_ge in Hbackup by (fold bd name in Hlen1 |- *; lia).
  destruct (atomicWrite_no_fault filePath data lockId text p σ t n
              Hlock Hdata Htemp) as (σ1' & Hb' & Hrun);
    [by rewrite Hf|done|].
  rewrite Hbackup in Hb'. injection Hb' as <-.
  eexists _, _. split; [exact Hrun|]. simpl foldl.
  assert (∀ s, no_slash s = true → filePath +:+ s ≠ bd +:+ "/" +:+ name)
    as Hsib.
  { intros s Hs H. pose proof (not_below_backupDir filePath s Hs) as Hp.
    fold bd in Hp. rewrite H, <- app_assoc_s, prefix_app in Hp. done. }
  assert (∀ s, no_slash s = true → filePath +:+ s ≠ bd →
               Paths.under (filePath +:+ s) (bd +:+ "/" +:+ name) = false)
    as Hund.
  { intros s Hs Hnbd.
    destruct (Paths.under _ _) eqn:E; [|done]. destruct Hnbd.
    unfold bd in E. rewrite <- (backupDir_app filePath s Hs) in E.
    apply under_backup_entry in E; [|done].
    by rewrite backupDir_app in E. }
  assert (filePath ≠ bd) as Hfbd.
  { intros H. rewrite <- H in Hbd. by destruct (Hbd previous). }
  split.
  - rewrite remove_lookup_other by apply document_not_under_lock.
    apply lookup_insert_eq.
  - rewrite remove_lookup_other
      by (apply Hund; [done|apply lock_not_backupDir]).
    rewrite lookup_insert_ne.
    2: { pose proof (Hsib EmptyString eq_refl) as H.
         by rewrite app_empty_r in H. }
    rewrite lookup_delete_ne by (apply Hsib, no_slash_temp_suffix).
    rewrite remove_lookup_other.
    2: { pose proof (Hund EmptyString eq_refl) as H.
         rewrite app_empty_r in H. by apply H. }
    rewrite lookup_insert_ne by (apply Hsib, no_slash_temp_suffix).
    apply lookup_insert_eq.
Qed.

End previous_version.

Section previous_version_witness.
Import Json Js FileOperations.

Lemma write_keeps_previous_version_witness :
  ∃ p' σ',
    run (atomicWrite Example.doc (VJson GoodWrite.tasks) (uuid_of 0))
        (HeldLock.holder, mkWorld (fs HeldLock.world) 5 1 [])
    = (inr tt, (p', mkWorld σ' 5 2 []))
    ∧ σ' !! Example.doc = Some (Fs.File (stringify GoodWrite.tasks))
    ∧ σ' !! "data/.backups/tasks.json.backup.5" = Some (Fs.File "[]").
Proof.
  apply (write_keeps_previous_version Example.doc (VJson GoodWrite.tasks)
           (uuid_of 0) (stringify GoodWrite.tasks) "[]" []
           HeldLock.holder (fs HeldLock.world) 5 1).
  - vm_compute; reflexivity.
  - vm_compute; reflexivity.
  - vm_compute; reflexivity.
  - intros _. vm_compute. by eexists.
  - vm_compute; reflexivity.
  - intros x. vm_compute. discriminate.
  - vm_compute. discriminate.
  - vm_compute; reflexivity.
  - vm_compute. lia.
Defined.

End previous_version_witness.

(** ** The release timer *)

Section release_timer.
Import Json Js FileOperations.

(** X15. The timer of a grant releases the lock: once the delay of the
    timer has passed and the process runs its due timers, the lock file
    is gone and the lock table has no entry for the path, without any
    call of [releaseLock] by the holder; before that the timer does
    nothing. The delay is the timeout of the grant when that is between
    1 and 2^31 - 1 milliseconds, and one millisecond otherwise. *)
Theorem granted_lock_is_released_by_timer
    (filePath : string) (timeout dt : Z) (p : Proc) (σ : Fs.tree) (t : Z)
    (n : nat) :
  let lockFile := filePath +:+ ".lock" in
  let granted := snd (run (acquireLock filePath timeout) (p, mkWorld σ t n [])) in
  let later := (fst granted, advance dt (snd granted)) in
  σ !! lockFile = None →
  timers p = [] →
  (dt < clamp_delay timeout → fire_timers later = later)
  ∧ (clamp_delay timeout ≤ dt →
       fs (snd (fire_timers later)) !! lockFile = None
       ∧ locks (fst (fire_timers later)) = delete filePath (locks p)
       ∧ timers (fst (fire_timers later)) = []).
Proof.
  intros lockFile granted later Hl Ht. subst lockFile granted later.
  rewrite acquireLock_free by done. cbn [fst snd]. rewrite Ht.
  unfold fire_timers, advance, set_clock, set_timers. cbn.
  unfold due. cbn. split; intros Hdt.
  - rewrite bool_decide_false by lia. cbn. done.
  - rewrite bool_decide_true by lia. cbn. unfold run_callbacks. cbn.
    rewrite releaseLock_match by (cbn; by rewrite lookup_insert_eq).
    cbn. split; [apply remove_lookup_self|]. split; [|done].
    by rewrite delete_insert_eq.
Qed.

Lemma granted_lock_is_released_by_timer_witness :
  fs (snd (fire_timers
             (fst (snd Reclaim.first), advance 30000 (snd (snd Reclaim.first)))))
    !! (Example.doc +:+ ".lock") = None.
Proof.
  refine (proj1 (proj2 (granted_lock_is_released_by_timer Example.doc 30000
                          30000 Example.alex Reclaim.free_tree 0 0 _ _) _)).
  - vm_compute; reflexivity.
  - vm_compute; reflexivity.
  - vm_compute. discriminate.
Defined.

End release_timer.

(** ** Worker status *)

Arguments FileOperations.updateWorkerStatus : simpl never.
Arguments FileOperations.readWorkerStatus : simpl never.
Arguments FileOperations.workerFile_of : simpl never.
Arguments FileOperations.merged_status : simpl never.

Section worker_status.
Import Json Js FileOperations.

Lemma dirname_shorter (f : string) :
  (2 ≤ String.length f)%nat →
  (String.length (Paths.dirname f) < String.length f)%nat.
Proof.
  intros Hlen. unfold Paths.dirname.
  destruct (fst (Paths.split_last f)) as [[|c d]|] eqn:E; simpl; try lia.
  pose proof (f_equal String.length (split_last_spec f _ E)) as H.
  rewrite !length_app in H. simpl in H. lia.
Qed.

Lemma workerFile_length (dir workerId : string) :
  (2 ≤ String.length (workerFile_of dir workerId))%nat.
Proof.
  unfold workerFile_of.
  pose proof (join_length (Paths.join (Paths.join dir ".aimanager") "data")
                ("worker-" +:+ workerId +:+ ".json")) as H.
  rewrite !length_app in H. simpl in H. lia.
Qed.

(** The default structure depends on the path and the clock only, and
    is a value [JSON.parse] can produce. *)
Lemma getDefaultStructure_value (f : string) (t : Z) :
  ∃ v, well_formed v = true
       ∧ ∀ p w, clock w = t →
           run (getDefaultStructure f) (p, w) = (inr v, (p, w)).
Proof.
  unfold getDefaultStructure.
  repeat match goal with |- context [if ?c then _ else _] => destruct c end;
    (eexists; split; [|intros p w Ht; run_seq; rewrite ?Ht; reflexivity]);
    reflexivity.
Qed.

Lemma obj_get_set k k' v l :
  obj_get k (obj_set k' v l)
  = if String.eqb k k' then Some v else obj_get k l.
Proof.
  induction l as [|[k0 v0] l IH]; simpl.
  - by destruct (String.eqb k k').
  - destruct (String.eqb_spec k' k0) as [->|Hne]; simpl.
    + by destruct (String.eqb k k0).
    + rewrite IH. destruct (String.eqb_spec k k0) as [->|]; [|done].
      destruct (String.eqb_spec k0 k') as [->|]; [done|done].
Qed.

Lemma spread_well_formed v :
  well_formed v = true →
  Forall (λ kv, well_formed (snd kv) = true) (spread v).
Proof.
  destruct v as [| | |s|l|l]; simpl; try by constructor.
  - intros _. apply Forall_forall. intros [k x] Hkx.
    apply elem_of_lookup_imap in Hkx as (i & c & [= -> ->] & _). done.
  - intros Hl%forallb_Forall. apply Forall_forall. intros [k x] Hkx.
    apply elem_of_lookup_imap in Hkx as (i & y & [= -> ->] & Hy).
    rewrite Forall_forall in Hl. apply Hl. by eapply list_elem_of_lookup_2.
  - intros [Hl _]%andb_prop. by apply forallb_Forall in Hl.
Qed.

Lemma assign_well_formed l src :
  well_formed (JObj l) = true →
  Forall (λ kv, well_formed (snd kv) = true) src →
  well_formed (JObj (assign l src)) = true.
Proof.
  intros Hl Hsrc. revert l Hl. unfold assign.
  induction Hsrc as [|[k x] src Hx Hsrc IH]; intros l Hl; [done|].
  simpl. apply IH. by apply obj_set_well_formed.
Qed.

Lemma merged_status_well_formed cur updates workerId now :
  well_formed cur = true → well_formed updates = true →
  well_formed (merged_status cur updates workerId now) = true.
Proof.
  intros Hc Hu. unfold merged_status.
  apply obj_set_well_formed; [done|]. apply obj_set_well_formed; [done|].
  apply assign_well_formed; [|by apply spread_well_formed].
  apply assign_well_formed; [done|by apply spread_well_formed].
Qed.

Lemma merged_status_worker_id cur updates workerId now :
  get (merged_status cur updates workerId now) "worker_id"
  = Some (Some (JStr workerId)).
Proof.
  unfold merged_status, get. by rewrite !obj_get_set.
Qed.

Lemma safeJSONRead_valid (f c : string) (v : json) p σ t n :
  σ !! f = Some (Fs.File c) → parse c = Some v →
  run (safeJSONRead f) (p, mkWorld σ t n []) = (inr v, (p, mkWorld σ t n [])).
Proof.
  intros Hf Hp. unfold safeJSONRead. run_step.
  unfold Fs.readFile. rewrite Hf. run_step.
  unfold JSON_parse. rewrite Hp. by run_step.
Qed.

End worker_status.

Section worker_status_update.
Import Json Js FileOperations.

(** [updateWorkerStatus] when no primitive is rejected: the value it
    merges the updates into, and the state it leaves. *)
Lemma updateWorkerStatus_no_fault
    (workerId : string) (updates : json) p σ t n :
  let f := workerFile_of (cwd p) workerId in
  well_formed updates = true →
  σ !! (f +:+ ".lock") = None →
  (∀ x, σ !! Paths.dirname f ≠ Some (Fs.File x)) →
  σ !! f ≠ Some Fs.Dir →
  (∀ m, σ !! tempFile_of f t (uuid_of m) = None) →
  ∃ cur n1 σ',
    run (updateWorkerStatus workerId updates) (p, mkWorld σ t n [])
    = (inr (merged_status cur updates workerId t),
       (mkProc (delete f (locks p))
               (timers p ++ [Timer t (clamp_delay maxLockTime) f (uuid_of n)])
               (env_worker_id p) (cwd p) (pid p),
        mkWorld σ' t n1 []))
    ∧ σ' !! f = Some (Fs.File (stringify (merged_status cur updates workerId t)))
    ∧ σ' !! (f +:+ ".lock") = None
    ∧ well_formed cur = true
    ∧ match σ !! f with
      | Some (Fs.File c) =>
          match parse c with
          | Some x => cur = x
          | None => fst (run (getDefaultStructure f) (p, mkWorld σ t n [])) = inr cur
          end
      | _ => fst (run (getDefaultStructure f) (p, mkWorld σ t n [])) = inr cur
      end.
Proof.
  intros f Hup Hl Hdir Hf Htemp.
  pose proof (workerFile_length (cwd p) workerId) as Hlen. fold f in Hlen.
  pose proof (dirname_shorter f Hlen) as Hshort.
  set (D := Paths.dirname f) in *.
  assert (∀ s, D ≠ f +:+ s) as HD.
  { intros s H%(f_equal String.length). rewrite length_app in H. lia. }
  set (σ0 := <[D := Fs.Dir]> σ).
  assert (Fs.ensureDir σ D = inr σ0) as Hens.
  { unfold Fs.ensureDir, σ0. destruct (σ !! D) as [[x|]|] eqn:E;
      [by destruct (Hdir x)|by rewrite insert_id|done]. }
  assert (∀ s, σ0 !! (f +:+ s) = σ !! (f +:+ s)) as Hσ0.
  { intros s. unfold σ0. by rewrite lookup_insert_ne. }
  assert (σ0 !! f = σ !! f) as Hσ0f.
  { specialize (Hσ0 EmptyString). by rewrite app_empty_r in Hσ0. }
  destruct (getDefaultStructure_value f t) as (dflt & Hdwf & Hdflt).
  unfold updateWorkerStatus. run_seq. fold f. fold D.
  rewrite run_call. cbn. rewrite Hens. cbn. run_seq.
  rewrite acquireLock_free by (by rewrite Hσ0).
  set (p1 := mkProc _ _ _ _ _).
  set (record := lock_record _ _ _ _).
  set (σ1 := <[f +:+ ".lock" := Fs.File (stringify record)]> σ0).
  assert (σ1 !! f = σ !! f) as Hσ1f.
  { unfold σ1. rewrite lookup_insert_ne by (symmetry; apply lock_not_document).
    done. }
  (* the value read *)
  assert (∃ cur n1,
    run (if Fs.pathExists σ1 f then safeJSONRead f else getDefaultStructure f)
        (p1, mkWorld σ1 t (S n) [])
    = (inr cur, (p1, mkWorld σ1 t n1 []))
    ∧ well_formed cur = true
    ∧ match σ !! f with
      | Some (Fs.File c) =>
          match parse c with
          | Some x => cur = x
          | None => fst (run (getDefaultStructure f) (p, mkWorld σ t n [])) = inr cur
          end
      | _ => fst (run (getDefaultStructure f) (p, mkWorld σ t n [])) = inr cur
      end) as (cur & n1 & Hread & Hcwf & Hcur).
  { unfold Fs.pathExists. rewrite Hσ1f.
    destruct (σ !! f) as [[c|]|] eqn:Ef; [| done |].
    - rewrite bool_decide_true by done.
      destruct (parse c) as [x|] eqn:Ep.
      + exists x, (S n). split; [|split; [by eapply parse_well_formed|done]].
        apply safeJSONRead_valid with c; [by rewrite Hσ1f|done].
      + destruct (lock_record_read_back (uuid_of n) p
                    (mkWorld σ0 t (S n) []) t (pid p)) as (Hrp & Hrts & Hrw).
        destruct (safeJSONRead_live_lock f p1 σ1 t (S n) (stringify record)
                    record t (workerId_of p (mkWorld σ0 t (S n) [])))
          as (n' & v & Hrun & Hv); try done.
        { intros c' Hc'. rewrite Hσ1f in Hc'. by simplify_eq. }
        { unfold σ1. by rewrite lookup_insert_eq. }
        { unfold maxLockTime. lia. }
        exists v, n'. split; [done|].
        rewrite (Hdflt p1 (mkWorld σ1 t n' []) eq_refl) in Hv.
        injection Hv as <-.
        split; [done|]. by rewrite (Hdflt p (mkWorld σ t n []) eq_refl).
    - rewrite bool_decide_false by (by intros [? ?]).
      exists dflt, (S n).
      rewrite (Hdflt p1 (mkWorld σ1 t (S n) []) eq_refl),
        (Hdflt p (mkWorld σ t n []) eq_refl).
      done. }
  run_seq. rewrite Hread. run_seq.
  set (v := merged_status cur updates workerId t).
  assert (well_formed v = true) as Hvwf
    by (by apply merged_status_well_formed).
  destruct (atomicWrite_value f v (uuid_of n) p1 σ1 t n1)
    as (σ' & Hrun & Hdoc & Hlock & _).
  { unfold holds_lock, p1. cbn. rewrite lookup_insert_eq. cbn.
    apply String.eqb_refl. }
  { done. }
  { intros s. done. }
  { rewrite <- tempFile_of_suffix. unfold σ1.
    rewrite lookup_insert_ne.
    - rewrite tempFile_of_suffix, Hσ0, <- tempFile_of_suffix. apply Htemp.
    - rewrite tempFile_of_suffix.
      intros H%(inj (String.append f)).
      destruct (temp_suffix_head t n1) as (r & Hr). rewrite Hr in H.
      discriminate H. }
  { by rewrite Hσ1f. }
  rewrite Hrun. run_seq.
  exists cur, (S n1), σ'. split.
  { unfold p1. cbn. by rewrite delete_insert_eq. }
  done.
Qed.

End worker_status_update.

Section worker_status_theorems.
Import Json Js FileOperations.

Lemma obj_get_assign_fresh k l src :
  k ∉ map fst src → obj_get k (assign l src) = obj_get k l.
Proof.
  unfold assign. revert l. induction src as [|[k' x'] src IH]; intros l Hk;
    [done|].
  simpl in *. apply not_elem_of_cons in Hk as [Hne Hk].
  rewrite IH by done. rewrite obj_get_set.
  by destruct (String.eqb_spec k k').
Qed.

Lemma obj_get_assign k x l src :
  NoDup (map fst src) → (k, x) ∈ src → obj_get k (assign l src) = Some x.
Proof.
  unfold assign. revert l. induction src as [|[k' x'] src IH]; intros l Hnd Hin.
  - by apply elem_of_nil in Hin.
  - simpl in *. apply NoDup_cons in Hnd as [Hk' Hnd].
    apply elem_of_cons in Hin as [[= -> ->]|Hin]; [|by apply IH].
    pose proof (obj_get_assign_fresh k' (obj_set k' x' l) src Hk') as H.
    unfold assign in H. rewrite H, obj_get_set. by rewrite String.eqb_refl.
Qed.

Lemma spread_keys_NoDup v :
  well_formed v = true → NoDup (map fst (spread v)).
Proof.
  assert (∀ {A} (g : nat → A → json) (l : list A),
            NoDup (map fst (imap (λ i x, (Str.of_nat i, g i x)) l))) as Himap.
  { intros A g l. apply NoDup_alt. intros i j k Hi Hj.
    rewrite list_lookup_fmap, list_lookup_imap in Hi, Hj.
    destruct (l !! i); [|done]. destruct (l !! j); [|done].
    simpl in *. apply of_nat_inj. congruence. }
  destruct v as [|b|m|s|l|l]; simpl; try (intros _; apply NoDup_nil_2).
  - intros _. apply (Himap _ (λ _ c, JStr (String c EmptyString))).
  - intros _. apply (Himap _ (λ _ x, x)).
  - by intros [_ ?%bool_decide_eq_true]%andb_prop.
Qed.

(** X16. A status update is read back: when no primitive is rejected,
    [updateWorkerStatus] returns the merged record, [readWorkerStatus]
    then returns that same record without changing anything, the record
    carries the worker's identifier and every binding of the updates
    (other than the two the method sets itself), and the lock the
    update took is released. *)
Theorem status_update_is_read_back
    (workerId : string) (updates : json)
    (p : Proc) (σ : Fs.tree) (t : Z) (n : nat) :
  let workerFile := workerFile_of (cwd p) workerId in
  well_formed updates = true →
  σ !! (workerFile +:+ ".lock") = None →
  (∀ x, σ !! Paths.dirname workerFile ≠ Some (Fs.File x)) →
  σ !! workerFile ≠ Some Fs.Dir →
  (∀ m, σ !! tempFile_of workerFile t (uuid_of m) = None) →
  ∃ v st',
    run (updateWorkerStatus workerId updates) (p, mkWorld σ t n [])
    = (inr v, st')
    ∧ run (readWorkerStatus workerId) st' = (inr v, st')
    ∧ get v "worker_id" = Some (Some (JStr workerId))
    ∧ (∀ k x, (k, x) ∈ spread updates →
              k ≠ "worker_id" → k ≠ "last_update" →
              get v k = Some (Some x))
    ∧ fs (snd st') !! (workerFile +:+ ".lock") = None
    ∧ locks (fst st') = delete workerFile (locks p).
Proof.
  intros f Hup Hl Hdir Hf Htemp.
  destruct (updateWorkerStatus_no_fault workerId updates p σ t n
              Hup Hl Hdir Hf Htemp)
    as (cur & n1 & σ' & Hrun & Hdoc & Hlock & Hcwf & _).
  fold f in Hrun, Hdoc, Hlock.
  eexists _, _. split; [exact Hrun|]. split; [|split; [|split; [|done]]].
  - unfold readWorkerStatus. run_seq. cbn [cwd]. fold f.
    unfold Fs.pathExists. rewrite bool_decide_true by (by rewrite Hdoc).
    cbn. apply safeJSONRead_valid with
      (stringify (merged_status cur updates workerId t)); [done|].
    by apply parse_stringify, merged_status_well_formed.
  - apply merged_status_worker_id.
  - intros k x Hin Hk1 Hk2. unfold merged_status, get.
    rewrite !obj_get_set.
    destruct (String.eqb_spec k "last_update"); [done|].
    destruct (String.eqb_spec k "worker_id"); [done|].
    f_equal. apply obj_get_assign; [|done].
    by apply spread_keys_NoDup.
Qed.

(** X17. The update of a worker file whose text does not parse starts
    from the default structure: the read inside the update runs under
    the update's own lock, so neither the repair nor the backups are
    used, and the file is overwritten with the defaults merged with the
    updates. (No primitive is rejected.) *)
Theorem status_update_of_corrupt_file_starts_from_defaults
    (workerId : string) (updates : json) (content : string)
    (p : Proc) (σ : Fs.tree) (t : Z) (n : nat) :
  let workerFile := workerFile_of (cwd p) workerId in
  well_formed updates = true →
  σ !! workerFile = Some (Fs.File content) →
  parse content = None →
  σ !! (workerFile +:+ ".lock") = None →
  (∀ x, σ !! Paths.dirname workerFile ≠ Some (Fs.File x)) →
  (∀ m, σ !! tempFile_of workerFile t (uuid_of m) = None) →
  ∃ defaults st',
    run (getDefaultStructure workerFile) (p, mkWorld σ t n [])
    = (inr defaults, (p, mkWorld σ t n []))
    ∧ run (updateWorkerStatus workerId updates) (p, mkWorld σ t n [])
      = (inr (merged_status defaults updates workerId t), st')
    ∧ fs (snd st') !! workerFile
      = Some (Fs.File (stringify (merged_status defaults updates workerId t))).
Proof.
  intros f Hup Hf Hbad Hl Hdir Htemp. subst f.
  destruct (updateWorkerStatus_no_fault workerId updates p σ t n
              Hup Hl Hdir) as (cur & n1 & σ' & Hrun & Hdoc & _ & _ & Hcur);
    [by rewrite Hf|done|].
  rewrite Hf, Hbad in Hcur.
  destruct (getDefaultStructure_value (workerFile_of (cwd p) workerId) t)
    as (dflt & _ & Hdflt).
  rewrite (Hdflt p (mkWorld σ t n []) eq_refl) in Hcur |- *.
  injection Hcur as <-.
  eexists _, _. split; [reflexivity|]. split; [exact Hrun|exact Hdoc].
Qed.

End worker_status_theorems.

Section worker_status_witness.
Import Json Js FileOperations.

Lemma status_update_is_read_back_witness :
  ∃ v st',
    run (updateWorkerStatus "alex" Status.busy) (Example.alex, mkWorld ∅ 5 0 [])
    = (inr v, st')
    ∧ run (readWorkerStatus "alex") st' = (inr v, st')
    ∧ get v "status" = Some (Some (JStr "busy")).
Proof.
  destruct (status_update_is_read_back "alex" Status.busy Example.alex ∅ 5 0)
    as (v & st' & Hrun & Hread & _ & Hk & _).
  - vm_compute; reflexivity.
  - vm_compute; reflexivity.
  - intros x. vm_compute. discriminate.
  - vm_compute. discriminate.
  - intros m. apply lookup_empty.
  - exists v, st'. split; [exact Hrun|]. split; [exact Hread|].
    apply Hk; [vm_compute; left|discriminate|discriminate].
Defined.

Lemma status_update_of_corrupt_file_starts_from_defaults_witness :
  ∃ defaults st',
    run (getDefaultStructure Status.file) (Example.alex, mkWorld Status.torn 5 0 [])
    = (inr defaults, (Example.alex, mkWorld Status.torn 5 0 []))
    ∧ run (updateWorkerStatus "alex" Status.busy)
          (Example.alex, mkWorld Status.torn 5 0 [])
      = (inr (merged_status defaults Status.busy "alex" 5), st').
Proof.
  destruct (status_update_of_corrupt_file_starts_from_defaults "alex"
              Status.busy "{ status: " Example.alex Status.torn 5 0)
    as (d & st' & Hd & Hrun & _).
  - vm_compute; reflexivity.
  - vm_compute; reflexivity.
  - vm_compute; reflexivity.
  - vm_compute; reflexivity.
  - intros x. vm_compute. discriminate.
  - intros m. apply lookup_singleton_ne.
    intros H%(f_equal String.length).
    rewrite tempFile_of_suffix, length_app in H.
    pose proof (temp_suffix_length 5 m) as Hm.
    set (k := String.length (temp_suffix 5 m)) in *.
    vm_compute in H. lia.
  - exists d, st'. split; [exact Hd|exact Hrun].
Defined.

End worker_status_witness.

(** ** All or nothing *)

Section all_or_nothing.
Import Json Js FileOperations.

Lemma call_WriteFile_returned f d p σ t n fl st' :
  run (call (WriteFile f d)) (p, mkWorld σ t n fl) = (inr tt, st') →
  ∃ fl', st' = (p, mkWorld (<[f := Fs.File d]> σ) t n fl').
Proof.
  rewrite run_call. cbn. unfold io. cbn.
  destruct fl as [|[] fl]; cbn; try done;
    unfold Fs.writeFile; destruct (σ !! f) as [[]|]; cbn; try done;
    intros [= <-]; by eexists.
Qed.

Lemma run_Move src dst p σ t n fl :
  run (call (Move src dst)) (p, mkWorld σ t n fl)
  = match fl with
    | true :: l => (inl (IOError Fs.EIO), (p, mkWorld σ t n l))
    | _ =>
        match Fs.move_clear σ src dst with
        | inl e => (inl (IOError e), (p, mkWorld σ t n (tail fl)))
        | inr σ1 =>
            match tail fl with
            | true :: l => (inl (IOError Fs.EIO), (p, mkWorld σ1 t n l))
            | l =>
                match Fs.rename σ1 src dst with
                | inl e => (inl (IOError e), (p, mkWorld σ1 t n (tail l)))
                | inr σ2 => (inr tt, (p, mkWorld σ2 t n (tail l)))
                end
            end
        end
    end.
Proof.
  rewrite run_call. cbn. unfold io. cbn.
  destruct fl as [|[] [|[] fl]]; cbn; try done;
    destruct (Fs.move_clear σ src dst); cbn; try done;
    by destruct (Fs.rename _ src dst).
Qed.

Lemma call_Move_returned src dst p σ t n fl st' :
  run (call (Move src dst)) (p, mkWorld σ t n fl) = (inr tt, st') →
  ∃ c fl', σ !! src = Some (Fs.File c)
           ∧ st' = (p, mkWorld (<[dst := Fs.File c]>
                                  (delete src (Fs.remove σ dst))) t n fl').
Proof.
  rewrite run_Move.
  assert (∀ σ1 σ2, Fs.move_clear σ src dst = inr σ1 →
                   Fs.rename σ1 src dst = inr σ2 →
                   ∃ c, σ !! src = Some (Fs.File c)
                        ∧ σ2 = <[dst := Fs.File c]>
                                 (delete src (Fs.remove σ dst))) as Hboth.
  { intros σ1 σ2 ->%move_clear_inr. unfold Fs.rename.
    destruct (Fs.remove σ dst !! src) as [[c|]|] eqn:Es; try done.
    rewrite remove_lookup_self. intros [= <-]. exists c. split; [|done].
    unfold Fs.remove in Es. by apply map_lookup_filter_Some in Es as [Es _]. }
  destruct fl as [|[] fl]; try done;
    destruct (Fs.move_clear σ src dst) as [?|σ1] eqn:E1; try done; cbn.
  - destruct (Fs.rename σ1 src dst) as [?|σ2] eqn:E2; [done|].
    intros [= <-]. destruct (Hboth _ _ eq_refl E2) as (c & ? & ->).
    by eexists _, _.
  - destruct fl as [|[] fl]; try done;
      (destruct (Fs.rename σ1 src dst) as [?|σ2] eqn:E2; [done|]);
      intros [= <-]; destruct (Hboth _ _ eq_refl E2) as (c & ? & ->);
      by eexists _, _.
Qed.

(** [releaseLock] leaves alone what is not at or below the lock file. *)
Lemma releaseLock_frame (f lockId : string) p σ t n fl :
  ∃ p' σ' fl',
    run (releaseLock f lockId) (p, mkWorld σ t n fl)
    = (inr tt, (p', mkWorld σ' t n fl'))
    ∧ ∀ k, Paths.under (f +:+ ".lock") k = false → σ' !! k = σ !! k.
Proof.
  unfold releaseLock. run_seq.
  destruct (locks p !! f) as [info|]; run_seq; [|by eexists _, _, _].
  destruct (String.eqb _ _); run_seq; [|by eexists _, _, _].
  rewrite run_call. cbn. unfold io. cbn.
  destruct fl as [|[] fl]; cbn; run_seq; eexists _, _, _;
    (split; [reflexivity|]); intros k Hk; cbn;
    by rewrite ?remove_lookup_other.
Qed.

(** The [try] block of [atomicWrite]: when it returns, the document
    holds the text. *)
Lemma commit_returned (f s : string) (ds : option string) p σ t n fl st' :
  no_slash s = true → (1 ≤ String.length s)%nat →
  run (commit f (f +:+ s) ds) (p, mkWorld σ t n fl) = (inr tt, st') →
  ∃ d σ' fl',
    ds = Some d ∧ st' = (p, mkWorld σ' t n fl')
    ∧ σ' !! f = Some (Fs.File d).
Proof.
  intros Hs Hlen. unfold commit. run_seq.
  destruct (createBackup_frame f p σ t n fl)
    as (σ1 & fl1 & -> & _ & _ & _).
  run_seq. destruct ds as [d|]; run_seq; [|done].
  destruct (run (call (WriteFile _ _)) _) as [[e|[]] st2] eqn:E1; [done|].
  apply call_WriteFile_returned in E1 as (fl2 & ->).
  assert (∀ σ2 fl3 st3,
    σ2 !! (f +:+ s) = Some (Fs.File d) →
    run (call (Move (f +:+ s) f)) (p, mkWorld σ2 t n fl3) = (inr tt, st3) →
    ∃ d0 σ' fl',
      Some d = Some d0 ∧ st3 = (p, mkWorld σ' t n fl')
      ∧ σ' !! f = Some (Fs.File d0)) as Hmove.
  { intros σ2 fl3 st3 Ht (c & fl' & Hc & ->)%call_Move_returned.
    rewrite Ht in Hc. injection Hc as <-.
    eexists _, _, _. split; [done|]. split; [done|].
    apply lookup_insert_eq. }
  destruct (Str.endsWith f ".json"); run_seq.
  - destruct (call_frame (ReadFile (f +:+ s)) p
                (<[f +:+ s := Fs.File d]> σ1) t n fl2 eq_refl eq_refl)
      as (r & σ2 & fl3 & -> & _ & Hk).
    destruct r as [e|c]; run_seq; [done|].
    unfold JSON_parse. destruct (parse c); run_seq; [|done].
    apply Hmove. rewrite Hk by (cbn; tauto). apply lookup_insert_eq.
  - apply Hmove. apply lookup_insert_eq.
Qed.

(** X18. A write never leaves a torn document, whichever primitives
    are rejected: when [atomicWrite] returns, the document holds exactly
    the text of the data; when it throws, the document is as it was
    before the call or, if the move of the temp file over it was
    rejected, is gone. *)
Theorem write_never_tears_document
    (filePath : string) (data : jsval) (lockId : string)
    (p : Proc) (σ : Fs.tree) (t : Z) (n : nat) (fl : list bool) :
  let st := (p, mkWorld σ t n fl) in
  let temp := tempFile_of filePath t (uuid_of n) in
  ∃ r st',
    run (atomicWrite filePath data lockId) st = (r, st')
    ∧ match r with
      | inl _ =>
          (fs (snd st') !! filePath = σ !! filePath
           ∨ fs (snd st') !! filePath = None)
          ∧ ((CMove temp filePath, false)
               ∉ fs_log (atomicWrite filePath data lockId) st →
             fs (snd st') !! filePath = σ !! filePath)
      | inr _ =>
          ∃ text, dataString_of data = Some (Some text)
                  ∧ fs (snd st') !! filePath = Some (Fs.File text)
      end.
Proof.
  intros st temp. subst st temp.
  destruct (atomicWrite_cases filePath data lockId p σ t n fl)
    as [[_ Hrun]|[(_ & _ & Hrun)|(ds & _ & Hds & Hrun & Hlog)]].
  - eexists _, _. split; [exact Hrun|]. cbn. auto.
  - eexists _, _. split; [exact Hrun|]. cbn. auto.
  - rewrite Hrun, Hlog. rewrite tempFile_of_suffix. unfold guarded_write.
    destruct (guarded_write_outcome filePath ds lockId p σ t (S n) n fl)
      as (r & p' & σ' & fl' & Hg & Hfail).
    destruct r as [e|[]].
    { eexists _, _. split; [exact Hg|].
      destruct (Hfail e eq_refl) as (H1 & H2 & _). by split. }
    eexists _, _. split; [exact Hg|].
    revert Hg. rewrite run_try_finally, run_try_catch.
    destruct (commit_outcome filePath (temp_suffix t n) ds p σ t (S n) fl)
      as (r & σ1 & fl1 & Hc & _ & _);
      [apply no_slash_temp_suffix
      |pose proof (temp_suffix_length t n); lia|].
    rewrite Hc. destruct r as [e|[]].
    + destruct (cleanup_spec (filePath +:+ temp_suffix t n) e p σ1 t (S n) fl1)
        as (σ2 & fl2 & -> & _).
      destruct (releaseLock_frame filePath lockId p σ2 t (S n) fl2)
        as (p2 & σ3 & fl3 & -> & _).
      done.
    + apply commit_returned in Hc as (d & σ1' & fl1' & -> & [= <- <-] & Hdoc);
        [|apply no_slash_temp_suffix
         |pose proof (temp_suffix_length t n); lia].
      destruct (releaseLock_frame filePath lockId p σ1 t (S n) fl1)
        as (p2 & σ2 & fl2 & -> & Hk).
      intros [= <- <- <-]. exists d. split; [done|].
      cbn. rewrite Hk by apply document_not_under_lock. done.
Qed.

End all_or_nothing.

(** ** Locks in step *)

Section racing_locks.
Import Json Js FileOperations.

(** [acquireLock] is its test followed by its grant. *)
Lemma acquireLock_tested_grant (f : string) (timeout : Z) st :
  run (acquireLock f timeout) st
  = match run (tested (f +:+ ".lock") timeout) st with
    | (inl e, st') => (inl e, st')
    | (inr lockId, st') =>
        run (grant_lock f (f +:+ ".lock") lockId timeout) st'
    end.
Proof.
  unfold acquireLock, tested. destruct st as [p w]. run_seq.
  destruct (run (check_lock _ _) _) as [[e|[]] st']; by run_seq.
Qed.

(** X19. The lock does not exclude two processes that test the lock
    file before either has written it: on a path without a lock file
    both calls of [acquireLock] are granted, each process's lock table
    then holds the path under its own identifier, so that both pass the
    lock check of [atomicWrite], and the lock file names the second
    process only. (The directory of the document exists and no
    primitive is rejected.) *)
Theorem racing_acquires_are_both_granted
    (filePath : string) (timeout : Z) (p q : Proc) (σ : Fs.tree) (t : Z)
    (n : nat) :
  let lockFile := filePath +:+ ".lock" in
  σ !! lockFile = None →
  σ !! Paths.dirname filePath = Some Fs.Dir →
  ∃ p' q' σ' me,
    racing_acquires filePath timeout p q (mkWorld σ t n [])
    = (inr (uuid_of n), inr (uuid_of (S n)),
       (p', q', mkWorld σ' t (S (S n)) []))
    ∧ uuid_of n ≠ uuid_of (S n)
    ∧ holds_lock p' filePath (uuid_of n) = true
    ∧ holds_lock q' filePath (uuid_of (S n)) = true
    ∧ σ' !! lockFile
      = Some (Fs.File (stringify (lock_record (uuid_of (S n)) me t (pid q)))).
Proof.
  intros lockFile Hl _. subst lockFile.
  unfold racing_acquires, tested. run_seq.
  rewrite check_lock_absent by done. run_seq.
  rewrite check_lock_absent by done. run_seq.
  rewrite grant_lock_no_fault by (by rewrite Hl).
  rewrite grant_lock_no_fault by (by rewrite lookup_insert_eq).
  eexists _, _, _, _. split; [reflexivity|].
  split; [intros H%uuid_of_inj; lia|].
  unfold holds_lock. cbn. rewrite !lookup_insert_eq. cbn.
  by rewrite !String.eqb_refl.
Qed.

Lemma racing_acquires_are_both_granted_witness :
  ∃ p' q' σ' me,
    racing_acquires Example.doc 30000 Example.alex Example.zephyr
      (mkWorld Reclaim.free_tree 0 0 [])
    = (inr (uuid_of 0), inr (uuid_of 1), (p', q', mkWorld σ' 0 2 []))
    ∧ uuid_of 0 ≠ uuid_of 1
    ∧ holds_lock p' Example.doc (uuid_of 0) = true
    ∧ holds_lock q' Example.doc (uuid_of 1) = true
    ∧ σ' !! (Example.doc +:+ ".lock")
      = Some (Fs.File (stringify (lock_record (uuid_of 1) me 0 4002))).
Proof.
  apply (racing_acquires_are_both_granted Example.doc 30000 Example.alex
           Example.zephyr Reclaim.free_tree 0 0).
  - vm_compute; reflexivity.
  - vm_compute; reflexivity.
Defined.

End racing_locks.

(** ** What locking touches *)

Arguments TaskCommands.writeTasksFile : simpl never.
Arguments TaskCommands.stamped : simpl never.

Ltac footprint :=
  repeat first
    [ apply avoids_JSON_parse
    | apply avoids_prop
    | apply avoids_bind; [|intros ?]
    | apply avoids_try_catch; [|intros ?]
    | apply avoids_try_finally
    | apply avoids_for_each; intros ?
    | apply avoids_call; reflexivity
    | apply avoids_call; cbn; by rewrite String.eqb_refl
    | apply avoids_ret
    | apply avoids_throw
    | assumption
    | match goal with
      | |- avoids _ (match ?x with _ => _ end) => destruct x
      | |- avoids _ (if ?x then _ else _) => destruct x
      end ].

Section lock_footprint.
Import Json Js FileOperations.

Lemma exec_beside {X} (path k : string) (o : op X) st :
  writes_beside path X o = false →
  Paths.under path k = false →
  fs (snd (snd (exec o st))) !! k = fs (snd st) !! k.
Proof.
  intros Ho Hk. destruct st as [p [σ t n fl]].
  assert (k ≠ path) as Hne.
  { intros ->. by rewrite under_refl in Hk. }
  destruct o; try done; cbn in *; unfold io; cbn;
    destruct fl as [|[] fl]; cbn; try done.
  all: try match goal with |- context [Fs.readFile ?s ?f] =>
         by destruct (Fs.readFile s f) end.
  all: try match goal with |- context [Fs.readdir ?s ?f] =>
         by destruct (Fs.readdir s f) end.
  all: apply negb_false_iff, String.eqb_eq in Ho as ->.
  all: try (unfold Fs.writeFile; destruct (σ !! path) as [[]|]; cbn;
            by rewrite ?lookup_insert_ne).
  all: by rewrite remove_lookup_other.
Qed.

Lemma beside_run {A} (path k : string) (m : prog A) st :
  avoids (writes_beside path) m →
  Paths.under path k = false →
  fs (snd (snd (run m st))) !! k = fs (snd st) !! k.
Proof.
  intros Hm Hk.
  apply (avoids_run (writes_beside path) (λ st, fs (snd st) !! k)); [|done].
  intros X o st0 Ho. by apply exec_beside with path.
Qed.

Lemma beside_getCurrentWorkerId path :
  avoids (writes_beside path) getCurrentWorkerId.
Proof. unfold getCurrentWorkerId. footprint. Qed.

Lemma beside_releaseLock f lockId :
  avoids (writes_beside (f +:+ ".lock")) (releaseLock f lockId).
Proof.
  unfold releaseLock. footprint.
Qed.

Lemma beside_acquireLock f timeout :
  avoids (writes_beside (f +:+ ".lock")) (acquireLock f timeout).
Proof.
  unfold acquireLock, check_lock, grant_lock, readLockFile.
  pose proof (beside_getCurrentWorkerId (f +:+ ".lock")) as Hme.
  footprint.
Qed.

(** X20. Locking touches nothing but the lock file: whatever the tree
    holds and whichever primitives are rejected, [acquireLock] and
    [releaseLock] leave every entry that is not the lock file or below
    it as it was, the document in particular. *)
Theorem locking_touches_only_the_lock_file
    (filePath : string) (timeout : Z) (lockId : string) (st : state)
    (k : string) :
  Paths.under (filePath +:+ ".lock") k = false →
  fs (snd (snd (run (acquireLock filePath timeout) st))) !! k
  = fs (snd st) !! k
  ∧ fs (snd (snd (run (releaseLock filePath lockId) st))) !! k
    = fs (snd st) !! k.
Proof.
  intros Hk. split; apply beside_run with (filePath +:+ ".lock");
    auto using beside_acquireLock, beside_releaseLock.
Qed.

Lemma locking_touches_only_the_lock_file_witness :
  fs (snd (snd (run (acquireLock Example.doc 1000)
                    (Example.zephyr, mkWorld Example.locked_tree 5000 1 [true]))))
    !! Example.doc
  = Some (Fs.File "[]").
Proof.
  refine (proj1 (locking_touches_only_the_lock_file Example.doc 1000
                   EmptyString
                   (Example.zephyr, mkWorld Example.locked_tree 5000 1 [true])
                   Example.doc _)).
  vm_compute; reflexivity.
Defined.

End lock_footprint.

Section tasks_file.
Import Json Js FileOperations TaskCommands.

Lemma stamped_well_formed data now :
  well_formed data = true → well_formed (stamped data now) = true.
Proof.
  intros Hd. unfold stamped. apply obj_set_well_formed; [done|].
  apply assign_well_formed; [done|by apply spread_well_formed].
Qed.

(** X21. The task list written is the task list read: with no lock file
    in the way and no primitive rejected, when the directory of the
    tasks file exists and its path is not a directory, [writeTasksFile]
    stores the data with its [last_updated] member set to the time of
    the call, every other member as given, and releases the lock;
    reading the file then returns that record. *)
Theorem tasks_write_is_read_back
    (tasksFile : string) (data : json)
    (p : Proc) (σ : Fs.tree) (t : Z) (n : nat) :
  let lockFile := tasksFile +:+ ".lock" in
  let record := stamped data t in
  well_formed data = true →
  σ !! Paths.dirname tasksFile = Some Fs.Dir →
  σ !! tasksFile ≠ Some Fs.Dir →
  σ !! lockFile = None →
  σ !! tempFile_of tasksFile t (uuid_of (S n)) = None →
  ∃ st',
    run (writeTasksFile tasksFile data) (p, mkWorld σ t n []) = (inr tt, st')
    ∧ run (safeJSONRead tasksFile) st' = (inr record, st')
    ∧ get record "last_updated" = Some (Some (JStr (Builtin.toISOString t)))
    ∧ (∀ k x, (k, x) ∈ spread data → k ≠ "last_updated" →
              get record k = Some (Some x))
    ∧ fs (snd st') !! lockFile = None
    ∧ locks (fst st') = delete tasksFile (locks p).
Proof.
  intros lockFile record Hwf _ Hdir Hl Htemp. subst lockFile record.
  rewrite tempFile_of_suffix in Htemp.
  pose proof (stamped_well_formed data t Hwf) as Hswf.
  unfold writeTasksFile. run_seq.
  rewrite acquireLock_free by done. run_seq.
  match goal with
  | |- context [run (atomicWrite _ _ _) (?p1, mkWorld ?σ1 _ _ _)] =>
      destruct (atomicWrite_value tasksFile (stamped data t) (uuid_of n)
                  p1 σ1 t (S n))
        as (σ' & Hrun & Hdoc & Hlock & _)
  end.
  { unfold holds_lock. cbn. rewrite lookup_insert_eq. cbn.
    apply String.eqb_refl. }
  { done. }
  { intros s. done. }
  { rewrite lookup_insert_ne; [done|].
    intros H%(inj (String.append tasksFile)).
    destruct (temp_suffix_head t (S n)) as (r & Hr). rewrite Hr in H.
    discriminate H. }
  { rewrite lookup_insert_ne; [done|].
    intros H%(f_equal String.length). rewrite length_app in H.
    simpl in H. lia. }
  rewrite Hrun. run_seq.
  eexists. split; [reflexivity|]. split; [|split; [|split; [|split]]].
  - apply safeJSONRead_valid with (stringify (stamped data t)); [done|].
    by apply parse_stringify.
  - unfold stamped, get. rewrite obj_get_set. by rewrite String.eqb_refl.
  - intros k x Hin Hk. unfold stamped, get. rewrite obj_get_set.
    destruct (String.eqb_spec k "last_updated"); [done|].
    f_equal. apply obj_get_assign; [|done]. by apply spread_keys_NoDup.
  - done.
  - cbn. by rewrite delete_insert_eq.
Qed.

Lemma tasks_write_is_read_back_witness :
  ∃ st',
    run (writeTasksFile Example.doc GoodWrite.tasks)
        (Example.alex, mkWorld Reclaim.free_tree 5 0 [])
    = (inr tt, st')
    ∧ run (safeJSONRead Example.doc) st'
      = (inr (stamped GoodWrite.tasks 5), st').
Proof.
  destruct (tasks_write_is_read_back Example.doc GoodWrite.tasks Example.alex
              Reclaim.free_tree 5 0) as (st' & Hrun & Hread & _).
  - vm_compute; reflexivity.
  - vm_compute; reflexivity.
  - vm_compute; discriminate.
  - vm_compute; reflexivity.
  - vm_compute; reflexivity.
  - exists st'. split; [exact Hrun|exact Hread].
Defined.

End tasks_file.

(** ** The default status of a worker *)

Section default_status.
Import Json Js FileOperations.

Lemma basename_join (a b : string) :
  no_slash b = true → Paths.basename (Paths.join a b) = b.
Proof.
  intros Hb. unfold Paths.join.
  destruct (_ || _).
  - unfold Paths.basename. by rewrite split_last_no_slash.
  - destruct (String.eqb a "/").
    + apply (basename_entry EmptyString b Hb).
    + by apply basename_entry.
Qed.

Lemma replace_first_head (p r s : string) :
  String.prefix p s = true →
  Str.replace_first p r s = r +:+ Str.drop (String.length p) s.
Proof.
  intros H. destruct s as [|c s]; [by destruct p|].
  cbn [Str.replace_first]. by rewrite H.
Qed.

(** [.json] does not overlap itself: an occurrence at the head of
    [s ++ ".json"] lies in [s], unless [s] is empty. *)
Lemma json_suffix_no_overlap (s : string) :
  String.prefix ".json" (s +:+ ".json") = true →
  s = EmptyString ∨ String.prefix ".json" s = true.
Proof.
  destruct s as [|c1 [|c2 [|c3 [|c4 [|c5 s]]]]]; [by left|..];
    rewrite ?app_cons, ?app_empty_l, ?prefix_cons;
    repeat (destruct (Ascii.ascii_dec _ _); try done);
    intros _; right; subst; by destruct s.
Qed.

Lemma replace_first_suffix (w : string) :
  Str.find ".json" w = None →
  Str.replace_first ".json" EmptyString (w +:+ ".json") = w.
Proof.
  induction w as [|c w IH]; [done|].
  intros Hfind. cbn [Str.find] in Hfind.
  destruct (String.prefix ".json" (String c w)) eqn:Hp; [done|].
  destruct (Str.find ".json" w) eqn:Hw; [done|].
  rewrite app_cons. cbn [Str.replace_first].
  destruct (String.prefix ".json" (String c (w +:+ ".json"))) eqn:Hp'.
  - rewrite <- app_cons in Hp'.
    apply json_suffix_no_overlap in Hp' as [?|Hp']; [done|congruence].
  - f_equal. by apply IH.
Qed.

(** X22. A worker without a status file reads as the default record
    under its own identifier: [readWorkerStatus] changes nothing and
    returns a record whose [worker_id] is the identifier asked for, as
    long as the identifier has no slash and does not contain [.json],
    and whose [status] is [ready]. No primitive it calls can reject. *)
Theorem default_status_names_the_worker
    (workerId : string) (p : Proc) (w : World) :
  no_slash workerId = true →
  Str.find ".json" workerId = None →
  fs w !! workerFile_of (cwd p) workerId = None →
  ∃ v, run (readWorkerStatus workerId) (p, w) = (inr v, (p, w))
       ∧ get v "worker_id" = Some (Some (JStr workerId))
       ∧ get v "status" = Some (Some (JStr "ready")).
Proof.
  intros Hns Hfind Hf. unfold readWorkerStatus. run_seq.
  unfold Fs.pathExists. rewrite bool_decide_false by (rewrite Hf; by intros [? ?]).
  cbn. unfold getDefaultStructure, workerFile_of.
  rewrite basename_join
    by (rewrite !no_slash_app; by rewrite Hns).
  unfold Str.startsWith. rewrite prefix_app. run_seq.
  eexists. split; [reflexivity|]. split; [|done].
  unfold get. cbn [obj_get]. rewrite String.eqb_refl. do 3 f_equal.
  rewrite (replace_first_head "worker-") by apply prefix_app.
  rewrite drop_app, app_empty_l. by apply replace_first_suffix.
Qed.

Lemma default_status_names_the_worker_witness :
  ∃ v, run (readWorkerStatus "zephyr") (Example.zephyr, mkWorld ∅ 7 0 [])
       = (inr v, (Example.zephyr, mkWorld ∅ 7 0 []))
       ∧ get v "worker_id" = Some (Some (JStr "zephyr"))
       ∧ get v "status" = Some (Some (JStr "ready")).
Proof.
  apply (default_status_names_the_worker "zephyr" Example.zephyr
           (mkWorld ∅ 7 0 [])).
  - vm_compute; reflexivity.
  - vm_compute; reflexivity.
  - vm_compute; reflexivity.
Defined.

End default_status.

(** ** Confinement *)

Section confinement.
Import Json Js FileOperations.

Lemma prefix_trans (a b c : string) :
  String.prefix a b = true → String.prefix b c = true →
  String.prefix a c = true.
Proof.
  intros [r ->]%prefix_iff [r' ->]%prefix_iff.
  rewrite app_assoc_s. apply prefix_app.
Qed.

Lemma prefix_under (a g k : string) :
  String.prefix a g = true → Paths.under g k = true →
  String.prefix a k = true.
Proof.
  intros Hag [->%String.eqb_eq|Hgk]%orb_prop; [done|].
  eapply prefix_trans; [exact Hag|].
  eapply prefix_trans; [|exact Hgk]. apply prefix_app.
Qed.

Lemma under_trans (a g k : string) :
  Paths.under a g = true → Paths.under g k = true → Paths.under a k = true.
Proof.
  intros [->%String.eqb_eq|Hag]%orb_prop Hgk; [done|].
  unfold Paths.under. apply orb_true_intro. right.
  by eapply prefix_under.
Qed.

Lemma region_closed (f g k : string) :
  region f g = true → Paths.under g k = true → region f k = true.
Proof.
  unfold region. intros H Hgk.
  apply orb_prop in H as [H|H];
    [apply orb_prop in H as [H|H]; [apply orb_prop in H as [H|H]|]|].
  - by rewrite (under_trans _ _ _ H Hgk).
  - rewrite (under_trans _ _ _ H Hgk). by rewrite orb_true_r.
  - rewrite (prefix_under _ _ _ H Hgk). by rewrite !orb_true_r.
  - rewrite (under_trans _ _ _ H Hgk). by rewrite !orb_true_r.
Qed.

Lemma region_document f : region f f = true.
Proof. unfold region. by rewrite under_refl. Qed.

Lemma region_lock f : region f (f +:+ ".lock") = true.
Proof. unfold region. by rewrite (under_refl (f +:+ ".lock")), orb_true_r. Qed.

Lemma region_temp f now uuid : region f (tempFile_of f now uuid) = true.
Proof.
  unfold region, tempFile_of.
  rewrite <- (app_assoc_s f ".tmp."), prefix_app. by rewrite !orb_true_r.
Qed.

Lemma region_backupDir f : region f (backupDir_of f) = true.
Proof. unfold region. by rewrite (under_refl (backupDir_of f)), !orb_true_r. Qed.

Lemma region_backup f x : region f (Paths.join (backupDir_of f) x) = true.
Proof.
  unfold region. rewrite backupDir_join.
  assert (Paths.under (backupDir_of f) (backupDir_of f +:+ "/" +:+ x) = true)
    as ->; [|by rewrite !orb_true_r].
  unfold Paths.under. rewrite <- app_assoc_s, prefix_app.
  by rewrite orb_true_r.
Qed.

Lemma exec_outside {X} (f k : string) (o : op X) st :
  writes_outside f X o = false →
  region f k = false →
  fs (snd (snd (exec o st))) !! k = fs (snd st) !! k.
Proof.
  intros Ho Hk. destruct st as [p [σ t n fl]].
  assert (∀ g, region f g = true → k ≠ g) as Hne.
  { intros g Hg ->. congruence. }
  assert (∀ g, region f g = true → Paths.under g k = false) as Hun.
  { intros g Hg. destruct (Paths.under g k) eqn:E; [|done].
    rewrite (region_closed f g k Hg E) in Hk. done. }
  destruct o; try done.
  all: try match goal with |- context [exec (Move ?a ?b) _] =>
         rewrite <- run_call;
         destruct (call_frame (Move a b) p σ t n fl eq_refl eq_refl)
           as (r & σ' & fl' & -> & _ & Hk');
         cbn in Ho; apply negb_false_iff, andb_prop in Ho as [Hsrc Hdst];
         cbn; apply Hk'; cbn; intros [->|Hu];
         [by apply (Hne a)|by rewrite (Hun b) in Hu]
       end.
  all: cbn in *; unfold io; cbn;
    destruct fl as [|[] fl]; cbn; try done.
  all: try match goal with |- context [Fs.readFile ?s ?f] =>
         by destruct (Fs.readFile s f) end.
  all: try match goal with |- context [Fs.readdir ?s ?f] =>
         by destruct (Fs.readdir s f) end.
  all: try (apply negb_false_iff, andb_prop in Ho as [Hsrc Hdst]).
  all: try apply negb_false_iff in Ho.
  all: try match goal with |- context [Fs.writeFile ?s ?g ?d] =>
         unfold Fs.writeFile; destruct (s !! g) as [[]|]; cbn;
         by rewrite ?lookup_insert_ne by (symmetry; by apply Hne) end.
  all: try match goal with |- context [Fs.remove ?s ?g] =>
         cbn; by rewrite remove_lookup_other by (by apply Hun) end.
  all: try match goal with |- context [Fs.copy ?s ?a ?b] =>
         unfold Fs.copy; destruct (s !! a) as [[]|]; cbn; try done;
         destruct (s !! b) as [[]|]; cbn;
         by rewrite ?lookup_insert_ne by (symmetry; by apply Hne) end.
  all: match goal with |- context [Fs.ensureDir ?s ?g] =>
         unfold Fs.ensureDir; destruct (s !! g) as [[]|]; cbn;
         by rewrite ?lookup_insert_ne by (symmetry; by apply Hne) end.
Qed.

Lemma outside_run {A} (f k : string) (m : prog A) st :
  avoids (writes_outside f) m →
  region f k = false →
  fs (snd (snd (run m st))) !! k = fs (snd st) !! k.
Proof.
  intros Hm Hk.
  apply (avoids_run (writes_outside f) (λ st, fs (snd st) !! k)); [|done].
  intros X o st0 Ho. by apply exec_outside with f.
Qed.

End confinement.

Ltac confined :=
  repeat first
    [ assumption
    | match goal with H : ∀ _, _ |- avoids _ _ => apply H end
    | progress cbv zeta
    | apply avoids_JSON_parse
    | apply avoids_prop
    | apply avoids_bind; [|intros ?]
    | apply avoids_try_catch; [|intros ?]
    | apply avoids_try_finally
    | apply avoids_for_each; intros ?
    | apply avoids_call; reflexivity
    | apply avoids_call; cbn;
      rewrite ?region_document, ?region_lock, ?region_temp,
        ?region_backupDir, ?region_backup; reflexivity
    | apply avoids_ret
    | apply avoids_throw
    | match goal with
      | |- avoids _ (match ?x with _ => _ end) => destruct x
      | |- avoids _ (if ?x then _ else _) => destruct x
      end ].

Section confinement_theorem.
Import Json Js FileOperations.

Lemma outside_getCurrentWorkerId f :
  avoids (writes_outside f) getCurrentWorkerId.
Proof. unfold getCurrentWorkerId. confined. Qed.

Lemma outside_releaseLock f lockId :
  avoids (writes_outside f) (releaseLock f lockId).
Proof. unfold releaseLock. confined. Qed.

Lemma outside_acquireLock f timeout :
  avoids (writes_outside f) (acquireLock f timeout).
Proof.
  unfold acquireLock, check_lock, grant_lock, readLockFile.
  pose proof (outside_getCurrentWorkerId f). confined.
Qed.

Lemma outside_cleanOldBackups f : avoids (writes_outside f) (cleanOldBackups f).
Proof. unfold cleanOldBackups. confined. Qed.

Lemma outside_createBackup f : avoids (writes_outside f) (createBackup f).
Proof.
  unfold createBackup. pose proof (outside_cleanOldBackups f). confined.
Qed.

Lemma outside_atomicWrite f data lockId :
  avoids (writes_outside f) (atomicWrite f data lockId).
Proof.
  unfold atomicWrite, commit, cleanup.
  pose proof (outside_createBackup f). pose proof (outside_releaseLock f lockId).
  confined.
Qed.

Lemma outside_restoreFromBackup f :
  avoids (writes_outside f) (restoreFromBackup f).
Proof.
  unfold restoreFromBackup.
  pose proof (outside_acquireLock f maxLockTime).
  pose proof (λ id, outside_releaseLock f id) as Hrel.
  confined.
Qed.

Lemma outside_getDefaultStructure f :
  avoids (writes_outside f) (getDefaultStructure f).
Proof. unfold getDefaultStructure. confined. Qed.

Lemma outside_safeJSONRead f : avoids (writes_outside f) (safeJSONRead f).
Proof.
  unfold safeJSONRead.
  pose proof (outside_acquireLock f maxLockTime).
  pose proof (outside_restoreFromBackup f).
  pose proof (outside_getDefaultStructure f).
  pose proof (λ v id, outside_atomicWrite f (VJson v) id) as Hw.
  confined.
Qed.

End confinement_theorem.

Section confinement_statement.
Import Json Js FileOperations.

(** X23. The operations on a document are confined to it: whatever the
    tree holds and whichever primitives are rejected, taking and
    releasing the lock, writing, reading (with its repair and restore)
    and the backup rotation leave every entry unchanged that is not the
    document or below it, its lock file, one of its temp files, or the
    backup directory next to it. *)
Theorem operations_are_confined
    (filePath : string) (data : jsval) (lockId : string) (timeout : Z)
    (st : state) (k : string) :
  region filePath k = false →
  fs (snd (snd (run (acquireLock filePath timeout) st))) !! k = fs (snd st) !! k
  ∧ fs (snd (snd (run (releaseLock filePath lockId) st))) !! k = fs (snd st) !! k
  ∧ fs (snd (snd (run (atomicWrite filePath data lockId) st))) !! k
    = fs (snd st) !! k
  ∧ fs (snd (snd (run (safeJSONRead filePath) st))) !! k = fs (snd st) !! k
  ∧ fs (snd (snd (run (restoreFromBackup filePath) st))) !! k = fs (snd st) !! k
  ∧ fs (snd (snd (run (createBackup filePath) st))) !! k = fs (snd st) !! k
  ∧ fs (snd (snd (run (cleanOldBackups filePath) st))) !! k = fs (snd st) !! k.
Proof.
  intros Hk. repeat split; apply outside_run with filePath;
    auto using outside_acquireLock, outside_releaseLock, outside_atomicWrite,
      outside_safeJSONRead, outside_restoreFromBackup, outside_createBackup,
      outside_cleanOldBackups.
Qed.

Lemma operations_are_confined_witness :
  fs (snd (snd (run (safeJSONRead Example.doc)
                    (Example.zephyr,
                     mkWorld (<["data/notes.json" := Fs.File "{}"]> Corrupt.backed_up)
                             9 0 [false; true]))))
    !! "data/notes.json"
  = Some (Fs.File "{}").
Proof.
  refine (proj1 (proj2 (proj2 (proj2
            (operations_are_confined Example.doc VUndefined EmptyString 0
               (Example.zephyr,
                mkWorld (<["data/notes.json" := Fs.File "{}"]> Corrupt.backed_up)
                        9 0 [false; true])
               "data/notes.json" _))))).
  vm_compute; reflexivity.
Defined.

End confinement_statement.

(** ** Backup names *)

Section backup_names.
Import Json Js FileOperations.

Lemma find_none_prefix (sep s : string) :
  Str.find sep s = None → String.prefix sep s = false.
Proof.
  destruct s as [|c s]; cbn [Str.find].
  - by destruct (String.prefix sep EmptyString).
  - by destruct (String.prefix sep (String c s)).
Qed.

Lemma split_go_skip (sep : string) (x s cur : string) :
  Str.split_go sep (String.length x) cur (x +:+ s)
  = match s with
    | EmptyString => [cur]
    | _ => Str.split_go sep 0 cur s
    end.
Proof.
  induction x as [|c x IH].
  - rewrite app_empty_l. by destruct s.
  - rewrite app_cons. simpl. exact IH.
Qed.

(** A text with no occurrence of the separator is one piece. *)
Lemma split_go_none (sep s cur : string) :
  Str.find sep s = None → sep ≠ EmptyString →
  Str.split_go sep 0 cur s = [cur +:+ s].
Proof.
  intros Hfind Hsep. revert cur Hfind.
  induction s as [|c s IH]; intros cur Hfind.
  - by rewrite app_empty_r.
  - pose proof (find_none_prefix _ _ Hfind) as Hp.
    cbn [Str.split_go Str.find] in Hfind |- *.
    rewrite Hp in Hfind |- *.
    destruct (Str.find sep s) eqn:E; [done|].
    rewrite IH by done. by rewrite app_assoc_s.
Qed.

(** The pieces of a text whose first occurrence of the separator is
    after [a]. *)
Lemma split_go_first (sep a s cur : string) :
  Str.find sep (a +:+ sep +:+ s) = Some (String.length a) →
  sep ≠ EmptyString →
  Str.split_go sep 0 cur (a +:+ sep +:+ s)
  = (cur +:+ a)
      :: match s with
         | EmptyString => [EmptyString]
         | _ => Str.split_go sep 0 EmptyString s
         end.
Proof.
  intros Hfind Hsep. revert cur Hfind.
  induction a as [|c a IH]; intros cur Hfind.
  - rewrite app_empty_l, app_empty_r.
    destruct sep as [|c sep]; [done|]. rewrite app_cons.
    cbn [Str.split_go]. rewrite <- app_cons, prefix_app.
    cbn [String.length]. rewrite Nat.sub_succ, Nat.sub_0_r.
    by rewrite split_go_skip.
  - rewrite app_cons in Hfind |- *.
    cbn [Str.split_go Str.find String.length] in Hfind |- *.
    destruct (String.prefix sep (String c (a +:+ sep +:+ s))); [done|].
    destruct (Str.find sep (a +:+ sep +:+ s)) as [i|] eqn:E; [|done].
    simpl in Hfind. injection Hfind as ->.
    rewrite IH by done. by rewrite app_assoc_s.
Qed.

End backup_names.

Section backup_timestamps.
Import Json Js FileOperations.

Lemma find_prefix (p s : string) :
  String.prefix p s = true → Str.find p s = Some 0%nat.
Proof. intros H. destruct s; cbn [Str.find]; by rewrite H. Qed.

Lemma find_app (sep a s : string) :
  Str.find sep (a +:+ sep) = Some (String.length a) →
  Str.find sep (a +:+ sep +:+ s) = Some (String.length a).
Proof.
  induction a as [|c a IH].
  - intros _. rewrite !app_empty_l. apply find_prefix, prefix_app.
  - rewrite !app_cons. cbn [Str.find String.length].
    destruct (String.prefix sep (String c (a +:+ sep))) eqn:Hp; [done|].
    destruct (Str.find sep (a +:+ sep)) as [i|] eqn:E; [|done].
    destruct (String.prefix sep (String c (a +:+ sep +:+ s))) eqn:Hp';
      intros [= ->].
    + exfalso. rewrite <- app_cons, <- app_assoc_s in Hp'.
      apply prefix_shorter in Hp'; [rewrite app_cons in Hp'; congruence|].
      rewrite length_app. lia.
    + by rewrite IH.
Qed.

Lemma find_digits (d : string) :
  all_digits d = true → Str.find ".backup." d = None.
Proof.
  induction d as [|c d IH]; [done|]. simpl all_digits.
  intros [Hc Hd]%andb_prop. cbn [Str.find]. rewrite prefix_cons.
  destruct (Ascii.ascii_dec "." c) as [<-|_]; [done|].
  by rewrite IH.
Qed.

Lemma all_digits_of_Z (z : Z) : 0 ≤ z → all_digits (Str.of_Z z) = true.
Proof.
  destruct z as [|q|q]; [done| |lia]. intros _. apply all_digits_of_N.
Qed.

Lemma skip_space_digit (c : ascii) (r : string) :
  Str.is_digit c = true → Str.skip_space (String c r) = String c r.
Proof.
  intros Hc. cbn [Str.skip_space].
  replace (Str.is_space c) with false; [done|].
  revert Hc. by ascii_cases c.
Qed.

Lemma parseInt_of_Z (z : Z) : 0 ≤ z → Builtin.parseInt (Str.of_Z z) = Some z.
Proof.
  destruct z as [|q|q]; [done| |lia]. intros _. unfold Str.of_Z.
  destruct (of_N_pos_head q) as (c & r & E & Hc & Hc0).
  pose proof (all_digits_of_N (Npos q)) as Hall.
  pose proof (digits_value_of_N (Npos q)) as Hval.
  pose proof (span_digits_app (Str.of_N (Npos q)) EmptyString Hall I) as Hspan.
  rewrite app_empty_r in Hspan.
  rewrite E in Hval, Hspan |- *. clear E Hall.
  unfold Builtin.parseInt. rewrite skip_space_digit by done.
  assert (Builtin.parseInt_unsigned (String c r) = Some (Npos q)) as Hu.
  { unfold Builtin.parseInt_unsigned.
    replace (match String c r with
             | String "0" (String "x" r0) | String "0" (String "X" r0) =>
                 Builtin.hex_prefix None r0
             | _ => Str.digits_value (Str.span_digits (String c r)).1
             end) with (Str.digits_value (Str.span_digits (String c r)).1).
    - by rewrite Hspan.
    - clear -Hc Hc0. revert Hc Hc0. ascii_cases c; try done. }
  clear Hval Hspan. revert Hu Hc Hc0.
  ascii_cases c; intros Hu Hc Hc0; try discriminate Hc; try congruence;
    cbv beta iota; by rewrite Hu.
Qed.

(** The timestamp the rotation reads in the name [createBackup] gives
    a backup is the time of the backup, when the first [.backup.] of
    the name is the one [createBackup] put there. *)
Lemma timestamp_of_backup_name (f : string) (ts : Z) :
  0 ≤ ts →
  Str.find ".backup." (Paths.basename f +:+ ".backup.")
  = Some (String.length (Paths.basename f)) →
  timestamp_of (backup_prefix f +:+ Str.of_Z ts) = Some ts.
Proof.
  intros Hts Hfind. unfold timestamp_of, backup_prefix, Str.split.
  rewrite app_assoc_s.
  rewrite split_go_first by (by apply find_app || done).
  assert (Str.of_Z ts ≠ EmptyString) as Hne.
  { destruct ts as [|q|q]; [done|apply of_N_nonempty|lia]. }
  destruct (Str.of_Z ts) as [|c r] eqn:E; [done|]. rewrite <- E.
  rewrite split_go_none
    by first [by apply find_digits, all_digits_of_Z | done].
  simpl. rewrite app_empty_l. by apply parseInt_of_Z.
Qed.

End backup_timestamps.

Section restore_latest.
Import Json Js FileOperations.

(** The backup named after the latest time comes first in the order
    the code sorts backups in, when every other backup carries an earlier
    time. *)
Lemma backupFiles_of_latest (f : string) (ts : Z) (files : list string) :
  let latest := backup_prefix f +:+ Str.of_Z ts in
  0 ≤ ts →
  Str.find ".backup." (backup_prefix f)
  = Some (String.length (Paths.basename f)) →
  latest ∈ files →
  (∀ x, x ∈ files → Str.startsWith x (backup_prefix f) = true →
        x ≠ latest → ∃ u, timestamp_of x = Some u ∧ u < ts) →
  ∃ others, backupFiles_of f files = latest :: others.
Proof.
  intros latest Hts Hname Hlatest Hothers.
  pose proof (timestamp_of_backup_name f ts Hts Hname) as Hkey.
  fold latest in Hkey.
  assert (latest ∈ backupFiles_of f files) as Hmem.
  { apply elem_of_backupFiles_of. split; [done|apply prefix_app]. }
  assert (StronglySorted
            (λ a b, ∃ u v, timestamp_of a = Some u ∧ timestamp_of b = Some v
                           ∧ v ≤ u) (backupFiles_of f files)) as Hs.
  { unfold backupFiles_of. apply sort_sorted.
    - intros a b u v. apply newest_first_timestamps.
    - apply Forall_forall. intros x [Hx Hpre]%list_elem_of_In%filter_In.
      apply list_elem_of_In in Hx.
      destruct (decide (x = latest)) as [->|Hne]; [by eexists|].
      destruct (Hothers x Hx Hpre Hne) as (u & -> & _). by eexists. }
  destruct (backupFiles_of f files) as [|newest others] eqn:HB.
  { by apply elem_of_nil in Hmem. }
  exists others. f_equal.
  destruct (decide (newest = latest)) as [|Hne]; [done|]. exfalso.
  assert (newest ∈ backupFiles_of f files) as Hnew by (rewrite HB; left).
  apply elem_of_backupFiles_of in Hnew as [Hnew Hpre].
  destruct (Hothers newest Hnew Hpre Hne) as (u & Hu & Hlt).
  apply elem_of_cons in Hmem as [->|Hmem]; [done|].
  apply StronglySorted_inv in Hs as [_ Hall].
  rewrite Forall_forall in Hall.
  destruct (Hall latest Hmem) as (u' & v' & Hu' & Hv' & Hle).
  rewrite Hu in Hu'. rewrite Hkey in Hv'. simplify_eq. lia.
Qed.

Lemma no_slash_backup_name (f : string) (ts : Z) :
  no_slash (backup_prefix f +:+ Str.of_Z ts) = true.
Proof.
  unfold backup_prefix.
  by rewrite !no_slash_app, no_slash_basename, no_slash_of_Z.
Qed.

(** X24. [restoreFromBackup] restores the latest backup: when the
    backup directory holds the backup [createBackup] names for time
    [ts], and every other backup of the document there carries a number
    below [ts] after its [.backup.], the document is overwritten with
    the text of that backup. The file name of the document must not
    itself contain [.backup.], since the timestamp is read after the
    first one. The time [ts] is below 2^53, as the times [Date.now]
    gives are: the comparator of the code then orders [ts] after every
    smaller number as it does here, where numbers are exact. *)
Theorem restore_takes_the_latest_backup
    (filePath content : string) (ts : Z) (files : list string)
    (p : Proc) (σ : Fs.tree) (t : Z) (n : nat) :
  let backupDir := backupDir_of filePath in
  let latest := backup_prefix filePath +:+ Str.of_Z ts in
  0 ≤ ts → safe_integer ts →
  Str.find ".backup." (backup_prefix filePath)
  = Some (String.length (Paths.basename filePath)) →
  Fs.readdir σ backupDir = inr files →
  σ !! Paths.join backupDir latest = Some (Fs.File content) →
  (∀ x, x ∈ files → Str.startsWith x (backup_prefix filePath) = true →
        x ≠ latest → ∃ u, timestamp_of x = Some u ∧ u < ts) →
  σ !! (filePath +:+ ".lock") = None →
  σ !! filePath ≠ Some Fs.Dir →
  ∃ p' σ',
    run (restoreFromBackup filePath) (p, mkWorld σ t n [])
    = (inr (default JNull (parse content)), (p', mkWorld σ' t (S n) []))
    ∧ σ' !! filePath = Some (Fs.File content).
Proof.
  intros bd latest Hts _ Hname Hdir Hlatest Hothers Hl Hf.
  destruct (readdir_backupDir filePath σ files Hdir) as [Hnd Hin].
  assert (latest ∈ files) as Hmem.
  { apply Hin. split; [apply no_slash_backup_name|].
    unfold bd in Hlatest. rewrite backupDir_join in Hlatest. by eexists. }
  destruct (backupFiles_of_latest filePath ts files Hts Hname Hmem Hothers)
    as [others HB].
  destruct (restoreFromBackup_no_fault filePath files latest others content
              p σ t n Hdir HB Hlatest Hl Hf)
    as (p' & σ' & Hrun & Hdoc & _).
  by exists p', σ'.
Qed.

End restore_latest.

Section restore_latest_witness.
Import Json Js FileOperations.

Lemma restore_takes_the_latest_backup_witness :
  ∃ p' σ',
    run (restoreFromBackup Example.doc)
        (Example.zephyr, mkWorld Corrupt.three_backups 20 0 [])
    = (inr (JArr [JInt 11]), (p', mkWorld σ' 20 1 []))
    ∧ σ' !! Example.doc = Some (Fs.File "[11]").
Proof.
  apply (restore_takes_the_latest_backup Example.doc "[11]" 11
           ["tasks.json.backup.7"; "tasks.json.backup.3";
            "tasks.json.backup.11"]
           Example.zephyr Corrupt.three_backups 20 0).
  - lia.
  - unfold safe_integer; lia.
  - vm_compute; reflexivity.
  - vm_compute; reflexivity.
  - vm_compute; reflexivity.
  - intros x Hx _ Hne.
    apply elem_of_cons in Hx as [->|Hx];
      [exists 7; split; [vm_compute; reflexivity|lia]|].
    apply elem_of_cons in Hx as [->|Hx];
      [exists 3; split; [vm_compute; reflexivity|lia]|].
    apply elem_of_cons in Hx as [->|Hx]; [by destruct Hne|].
    by apply elem_of_nil in Hx.
  - vm_compute; reflexivity.
  - vm_compute; discriminate.
Defined.

End restore_latest_witness.

Section undo.
Import Json Js FileOperations.

Lemma sibling_ne_backup (f s x : string) :
  no_slash s = true → f +:+ s ≠ backupDir_of f +:+ "/" +:+ x.
Proof.
  intros Hs H. pose proof (not_below_backupDir f s Hs) as Hp.
  rewrite H, <- app_assoc_s, prefix_app in Hp. done.
Qed.

Lemma sibling_not_over_backup (f s x : string) :
  no_slash s = true → no_slash x = true → f +:+ s ≠ backupDir_of f →
  Paths.under (f +:+ s) (backupDir_of f +:+ "/" +:+ x) = false.
Proof.
  intros Hs Hx Hne. destruct (Paths.under _ _) eqn:E; [|done]. destruct Hne.
  rewrite <- (backupDir_app f s Hs) in E.
  apply under_backup_entry in E; [|done].
  by rewrite backupDir_app in E.
Qed.

Lemma sibling_not_over_backupDir (f s : string) :
  no_slash s = true → f +:+ s ≠ backupDir_of f →
  Paths.under (f +:+ s) (backupDir_of f) = false.
Proof.
  intros Hs Hne. unfold Paths.under. apply orb_false_intro.
  - by apply String.eqb_neq.
  - destruct (String.prefix _ _) eqn:E; [|done].
    apply split_last_below in E as (d' & Hd' & Hlen).
    apply backupDir_parent in Hd'. rewrite length_app in Hlen. lia.
Qed.

Lemma temp_not_backupDir (f : string) (t : Z) (n : nat) :
  f +:+ temp_suffix t n ≠ backupDir_of f.
Proof.
  intros Heq. pose proof (basename_backupDir f) as Hb. rewrite <- Heq in Hb.
  unfold Paths.basename in Hb.
  rewrite split_last_app in Hb by apply no_slash_temp_suffix.
  cbn [snd] in Hb. apply (f_equal String.length) in Hb.
  rewrite length_app in Hb.
  change (String.length ".backups") with 8%nat in Hb.
  pose proof (temp_suffix_length t n). lia.
Qed.

Lemma backup_entries_apart (d x y : string) :
  no_slash x = true → y ≠ x →
  Paths.under (d +:+ "/" +:+ y) (d +:+ "/" +:+ x) = false.
Proof.
  intros Hns Hne. rewrite <- !app_assoc_s. apply under_sibling.
  - by apply String.eqb_neq.
  - destruct (String.prefix (y +:+ "/") x) eqn:E; [|done].
    apply prefix_iff in E as [r ->].
    rewrite !no_slash_app in Hns. simpl in Hns.
    by rewrite andb_false_r in Hns.
Qed.

Lemma backup_entry_inj (d x y : string) :
  d +:+ "/" +:+ x = d +:+ "/" +:+ y → x = y.
Proof.
  intros H%(inj (String.append d)). by apply (inj (String.append "/")) in H.
Qed.

(** X25. A write is undone by a restore: after a successful
    [atomicWrite] at time [t] of a document that existed,
    [restoreFromBackup] puts the text the write replaced back in the
    document, however many backups there were, when every other backup
    of the document carries a time before [t]. (No primitive is
    rejected; the file name of the document does not contain
    [.backup.].) *)
Theorem write_is_undone_by_restore
    (filePath : string) (data : jsval) (lockId text previous : string)
    (files : list string) (p : Proc) (σ : Fs.tree) (t : Z) (n : nat) :
  let backupDir := backupDir_of filePath in
  let latest := backup_prefix filePath +:+ Str.of_Z t in
  holds_lock p filePath lockId = true →
  dataString_of data = Some (Some text) →
  σ !! tempFile_of filePath t (uuid_of n) = None →
  (Str.endsWith filePath ".json" = true → is_Some (parse text)) →
  σ !! filePath = Some (Fs.File previous) →
  (∀ x, σ !! backupDir ≠ Some (Fs.File x)) →
  σ !! Paths.join backupDir latest ≠ Some Fs.Dir →
  0 ≤ t →
  Str.find ".backup." (backup_prefix filePath)
  = Some (String.length (Paths.basename filePath)) →
  Fs.readdir (<[backupDir := Fs.Dir]> σ) backupDir = inr files →
  (∀ x, x ∈ files → Str.startsWith x (backup_prefix filePath) = true →
        x ≠ latest → ∃ u, timestamp_of x = Some u ∧ u < t) →
  ∃ p' σ',
    run (atomicWrite filePath data lockId;; restoreFromBackup filePath)
        (p, mkWorld σ t n [])
    = (inr (default JNull (parse previous)), (p', mkWorld σ' t (S (S n)) []))
    ∧ σ' !! filePath = Some (Fs.File previous).
Proof.
  intros bd name Hlock Hdata Htemp Hjson Hf Hbd Hbf Hts Hfind Hdir Hothers.
  subst bd. rewrite backupDir_join in *. rewrite tempFile_of_suffix in Htemp.
  set (bd := backupDir_of filePath) in *.
  set (g := λ x : string, bd +:+ "/" +:+ x).
  pose proof (no_slash_backup_name filePath t) as Hname. fold name in Hname.
  pose proof (backupDir_length filePath) as Hbdlen. fold bd in Hbdlen.
  assert (∀ x, g x ≠ bd) as Hne.
  { intros x H%(f_equal String.length). unfold g in H.
    rewrite !length_app in H. simpl in H. lia. }
  assert (filePath ≠ bd) as Hfbd.
  { intros H. rewrite <- H in Hbd. by destruct (Hbd previous). }
  (* the tree after the backup is made *)
  set (σ1 := <[g name := Fs.File previous]> (<[bd := Fs.Dir]> σ)).
  assert (∃ files1, Fs.readdir σ1 bd = inr files1) as [files1 Hdir1].
  { unfold Fs.readdir, σ1. rewrite lookup_insert_ne by done.
    rewrite lookup_insert_eq. by eexists. }
  destruct (readdir_backupDir filePath _ _ Hdir) as [Hnd0 Hin0].
  destruct (readdir_backupDir filePath _ _ Hdir1) as [Hnd1 Hin1].
  fold bd in Hin0, Hin1.
  assert (∀ x, no_slash x = true → is_Some (σ1 !! g x) →
               Str.startsWith x (backup_prefix filePath) = true → x ≠ name →
               ∃ u, timestamp_of x = Some u ∧ u < t) as Hold.
  { intros x Hx Hsome Hpre Hxn. apply Hothers; [|done..].
    apply Hin0. split; [done|]. unfold σ1 in Hsome.
    rewrite lookup_insert_ne in Hsome; [done|].
    intros H. by apply backup_entry_inj in H. }
  assert (name ∈ files1) as Hmem1.
  { apply Hin1. split; [done|]. unfold σ1.
    change (bd +:+ "/" +:+ name) with (g name). by rewrite lookup_insert_eq. }
  destruct (backupFiles_of_latest filePath t files1 Hts Hfind Hmem1)
    as [others1 HB1].
  { intros x [Hx Hsome]%Hin1 Hpre Hxn. by apply Hold. }
  pose proof (NoDup_backupFiles_of filePath files1 Hnd1) as HndB.
  rewrite HB1 in HndB. apply NoDup_cons in HndB as [Hfresh _].
  pose proof (createBackup_no_fault filePath previous p σ t (S n) files1
                Hf Hbd Hbf Hdir1) as Hbackup.
  rewrite HB1 in Hbackup.
  set (gone := drop 10 (name :: others1)).
  assert (∀ y, y ∈ gone → y ≠ name) as Hgone.
  { intros y Hy ->. apply Hfresh. unfold gone in Hy. simpl in Hy.
    by apply (subseteq_drop 9 others1). }
  set (σ1' := foldl (λ σ x, Fs.remove σ (g x)) σ1 gone).
  change (run (createBackup filePath) (p, mkWorld σ t (S n) [])
          = (inr tt, (p, mkWorld σ1' t (S n) []))) in Hbackup.
  assert (σ1' !! bd = Some Fs.Dir) as Hbd1.
  { unfold σ1'. rewrite (foldl_remove_other g).
    - unfold σ1. rewrite lookup_insert_ne by done. apply lookup_insert_eq.
    - intros x _. apply under_longer. unfold g. rewrite !length_app.
      simpl. lia. }
  assert (σ1' !! g name = Some (Fs.File previous)) as Hbf1.
  { unfold σ1'. rewrite (foldl_remove_other g).
    - unfold σ1. apply lookup_insert_eq.
    - intros y Hy. apply backup_entries_apart; [done|by apply Hgone]. }
  assert (∀ k, is_Some (σ1' !! k) → is_Some (σ1 !! k)) as Hsub.
  { intros k Hk. destruct (σ1 !! k) eqn:E; [by eexists|].
    unfold σ1' in Hk. rewrite (foldl_remove_absent g) in Hk by done.
    by destruct Hk. }
  (* the tree after the write *)
  destruct (atomicWrite_no_fault filePath data lockId text p σ t n
              Hlock Hdata Htemp) as (σ1'' & Hb' & Hrun);
    [by rewrite Hf|done|].
  rewrite Hbackup in Hb'. injection Hb' as <-.
  rewrite run_bind, Hrun. clear Hrun Hbackup.
  set (temp := filePath +:+ temp_suffix t n).
  set (σ2 := Fs.remove
               (<[filePath := Fs.File text]>
                  (delete temp (Fs.remove (<[temp := Fs.File text]> σ1') filePath)))
               (filePath +:+ ".lock")).
  assert (∀ k, Paths.under (filePath +:+ ".lock") k = false → k ≠ filePath →
               k ≠ temp → Paths.under filePath k = false →
               σ2 !! k = σ1' !! k) as Hsame.
  { intros k H1 H2 H3 H4. unfold σ2.
    rewrite remove_lookup_other by done.
    rewrite lookup_insert_ne by done. rewrite lookup_delete_ne by done.
    rewrite remove_lookup_other by done. by rewrite lookup_insert_ne. }
  assert (∀ x, no_slash x = true → σ2 !! g x = σ1' !! g x) as Hentry.
  { intros x Hx. apply Hsame.
    - apply sibling_not_over_backup; [done..|apply lock_not_backupDir].
    - pose proof (sibling_ne_backup filePath EmptyString x eq_refl) as H.
      rewrite app_empty_r in H. intros Heq. exact (H (eq_sym Heq)).
    - intros Heq.
      exact (sibling_ne_backup filePath (temp_suffix t n) x
               (no_slash_temp_suffix t n) (eq_sym Heq)).
    - pose proof (sibling_not_over_backup filePath EmptyString x eq_refl Hx)
        as H. rewrite app_empty_r in H. by apply H. }
  assert (σ2 !! bd = Some Fs.Dir) as Hbd2.
  { rewrite Hsame; [done|..].
    - apply sibling_not_over_backupDir; [done|apply lock_not_backupDir].
    - done.
    - intros Heq. exact (temp_not_backupDir filePath t n (eq_sym Heq)).
    - pose proof (sibling_not_over_backupDir filePath EmptyString eq_refl)
        as H. rewrite app_empty_r in H. by apply H. }
  assert (∃ files2, Fs.readdir σ2 bd = inr files2) as [files2 Hdir2].
  { unfold Fs.readdir. rewrite Hbd2. by eexists. }
  destruct (readdir_backupDir filePath _ _ Hdir2) as [Hnd2 Hin2].
  fold bd in Hin2.
  assert (name ∈ files2) as Hmem2.
  { apply Hin2. split; [done|]. fold (g name).
    rewrite Hentry by done. by rewrite Hbf1. }
  destruct (backupFiles_of_latest filePath t files2 Hts Hfind Hmem2)
    as [others2 HB2].
  { intros x [Hx Hsome]%Hin2 Hpre Hxn. apply Hold; [done| |done..].
    apply Hsub. fold (g x) in Hsome. by rewrite Hentry in Hsome. }
  destruct (restoreFromBackup_no_fault filePath files2 name others2 previous
              (mkProc (delete filePath (locks p)) (timers p) (env_worker_id p)
                      (cwd p) (pid p))
              σ2 t (S n) Hdir2 HB2)
    as (p' & σ' & Hrun & Hdoc & _).
  - rewrite backupDir_join. fold bd. fold (g name).
    rewrite Hentry by done. exact Hbf1.
  - apply remove_lookup_self.
  - unfold σ2. rewrite remove_lookup_other by apply document_not_under_lock.
    by rewrite lookup_insert_eq.
  - by exists p', σ'.
Qed.

End undo.

Section undo_witness.
Import Json Js FileOperations.

Lemma write_is_undone_by_restore_witness :
  ∃ p' σ',
    run (atomicWrite Example.doc (VJson GoodWrite.tasks) (uuid_of 0);;
         restoreFromBackup Example.doc)
        (HeldLock.holder, mkWorld Undo.tree 20 1 [])
    = (inr (JArr [JInt 5]), (p', mkWorld σ' 20 3 []))
    ∧ σ' !! Example.doc = Some (Fs.File "[5]").
Proof.
  apply (write_is_undone_by_restore Example.doc (VJson GoodWrite.tasks)
           (uuid_of 0) (stringify GoodWrite.tasks) "[5]"
           ["tasks.json.backup.7"; "tasks.json.backup.3";
            "tasks.json.backup.11"]
           HeldLock.holder Undo.tree 20 1).
  - vm_compute; reflexivity.
  - vm_compute; reflexivity.
  - vm_compute; reflexivity.
  - intros _. vm_compute. by eexists.
  - vm_compute; reflexivity.
  - intros x. vm_compute. discriminate.
  - vm_compute. discriminate.
  - lia.
  - vm_compute; reflexivity.
  - vm_compute; reflexivity.
  - intros x Hx _ _.
    apply elem_of_cons in Hx as [->|Hx];
      [exists 7; split; [vm_compute; reflexivity|lia]|].
    apply elem_of_cons in Hx as [->|Hx];
      [exists 3; split; [vm_compute; reflexivity|lia]|].
    apply elem_of_cons in Hx as [->|Hx];
      [exists 11; split; [vm_compute; reflexivity|lia]|].
    by apply elem_of_nil in Hx.
Defined.

End undo_witness.

(** ** Reading a document with a trailing comma *)

Section trailing_comma.
Import Json Js FileOperations.



End trailing_comma.

Section trailing_comma_witness.
Import Json Js FileOperations.


End trailing_comma_witness.

(** ** Reading a document that cannot be repaired *)

Section irreparable.
Import Json Js FileOperations.



End irreparable.

Section irreparable_witness.
Import Json Js FileOperations.


End irreparable_witness.

(** ** How the lock is granted *)

Section check_then_write.
Import Json Js FileOperations.

(** The calls [acquireLock] makes on a path without a lock file: the
    test of the lock file, the calls of [getCurrentWorkerId], and the
    write of the lock file. *)
Lemma acquireLock_log (f : string) (timeout : Z) p σ t n :
  σ !! (f +:+ ".lock") = None →
  fs_log (acquireLock f timeout) (p, mkWorld σ t n [])
  = (CPathExists (f +:+ ".lock"), true)
    :: fs_log getCurrentWorkerId (p, mkWorld σ t (S n) [])
    ++ [(CWriteFile (f +:+ ".lock")
           (stringify (lock_record (uuid_of n)
                         (workerId_of p (mkWorld σ t (S n) [])) t (pid p))),
         true)].
Proof.
  intros Hl. unfold acquireLock.
  rewrite fs_log_bind, fs_log_call. run_step.
  rewrite fs_log_bind. rewrite check_lock_absent by done.
  unfold check_lock at 1. rewrite fs_log_bind, fs_log_call. run_step.
  unfold Fs.pathExists. rewrite bool_decide_false by (rewrite Hl; by intros [? ?]).
  cbn. unfold grant_lock. rewrite fs_log_bind.
  rewrite getCurrentWorkerId_no_fault. f_equal. f_equal.
  repeat (rewrite fs_log_bind, fs_log_call; run_step).
  unfold Fs.writeFile. rewrite Hl. by run_step.
Qed.

(** C3, as stated, fails: [acquireLock] tests the lock file with
    [pathExists] and writes it with a separate [writeFile]; when alex
    and zephyr both test before either writes, both are granted and
    both hold the lock of the document, at time 0, with the default
    timeout. *)
Lemma acquire_tests_then_writes_and_races :
  fs_log (acquireLock Example.doc maxLockTime)
         (Example.alex, mkWorld Reclaim.free_tree 0 0 [])
  = [(CPathExists (Example.doc +:+ ".lock"), true);
     (CWriteFile (Example.doc +:+ ".lock") Example.alex_lock, true)]
  ∧ fst Race.raced = (inr (uuid_of 0), inr (uuid_of 1))
  ∧ uuid_of 0 ≠ uuid_of 1
  ∧ holds_lock (fst (fst (snd Race.raced))) Example.doc (uuid_of 0) = true
  ∧ holds_lock (snd (fst (snd Race.raced))) Example.doc (uuid_of 1) = true.
Proof. vm_compute. repeat split; done. Qed.

(** C3, amended. On a path without a lock file (in a directory that
    exists, no primitive rejected) [acquireLock] grants with a test of
    the lock file followed by a separate write of it: these are the
    first and the last call of its log, with the calls of
    [getCurrentWorkerId] between them, and no primitive that creates the
    file only if it is absent is used. When two processes both test
    before either writes, both are granted, both hold the path in their
    lock tables, and the lock file names the second only. When the
    second call comes after the first has returned, at a time at which
    the lock is not older than the timeout of the call and the release
    timer of the grant is not due, it is refused with the name of the
    holder. *)
Theorem acquire_checks_then_writes
    (filePath : string) (timeout timeout' dt : Z) (p q : Proc)
    (σ : Fs.tree) (t : Z) (n : nat) :
  let lockFile := filePath +:+ ".lock" in
  let w := mkWorld σ t n [] in
  let holder := workerId_of p (mkWorld σ t (S n) []) in
  let text := stringify (lock_record (uuid_of n) holder t (pid p)) in
  let later := advance dt (snd (snd (run (acquireLock filePath timeout) (p, w)))) in
  σ !! lockFile = None →
  σ !! Paths.dirname filePath = Some Fs.Dir →
  fs_log (acquireLock filePath timeout) (p, w)
  = (CPathExists lockFile, true)
    :: fs_log getCurrentWorkerId (p, mkWorld σ t (S n) [])
    ++ [(CWriteFile lockFile text, true)]
  ∧ (∃ p' q' σ' me,
       racing_acquires filePath timeout p q w
       = (inr (uuid_of n), inr (uuid_of (S n)),
          (p', q', mkWorld σ' t (S (S n)) []))
       ∧ uuid_of n ≠ uuid_of (S n)
       ∧ holds_lock p' filePath (uuid_of n) = true
       ∧ holds_lock q' filePath (uuid_of (S n)) = true
       ∧ σ' !! lockFile
         = Some (Fs.File (stringify
                   (lock_record (uuid_of (S n)) me t (pid q)))))
  ∧ (0 ≤ dt → dt < clamp_delay timeout → dt ≤ timeout' →
     safe_integer t → safe_integer (t + dt) → safe_integer timeout' →
     run (acquireLock filePath timeout') (q, later)
     = (inl (Locked holder), (q, set_uuid_next (S (S n)) later))).
Proof.
  intros lockFile w holder text later Hl _.
  subst lockFile w holder text later.
  split; [by apply acquireLock_log|]. split.
  - unfold racing_acquires, tested. run_seq.
    rewrite check_lock_absent by done. run_seq.
    rewrite check_lock_absent by done. run_seq.
    rewrite grant_lock_no_fault by (by rewrite Hl).
    rewrite grant_lock_no_fault by (by rewrite lookup_insert_eq).
    eexists _, _, _, _. split; [reflexivity|].
    split; [intros H%uuid_of_inj; lia|].
    unfold holds_lock. cbn. rewrite !lookup_insert_eq. cbn.
    by rewrite !String.eqb_refl.
  - intros Hdt _ Hage _ _ _.
    rewrite (acquireLock_free filePath timeout p σ t n) by done.
    cbn [fst snd].
    destruct (lock_record_read_back (uuid_of n) p (mkWorld σ t (S n) []) t
                (pid p)) as (Hparse & Hts & Hw).
    unfold advance, set_clock, set_uuid_next. cbn.
    eapply acquireLock_live; [apply lookup_insert_eq|done..|lia].
Qed.

End check_then_write.

Section check_then_write_witness.
Import Json Js FileOperations.

Lemma acquire_checks_then_writes_witness :
  fs_log (acquireLock Example.doc 30000)
         (Example.alex, mkWorld Reclaim.free_tree 0 0 [])
  = (CPathExists (Example.doc +:+ ".lock"), true)
    :: fs_log getCurrentWorkerId (Example.alex, mkWorld Reclaim.free_tree 0 1 [])
    ++ [(CWriteFile (Example.doc +:+ ".lock")
           (stringify (lock_record (uuid_of 0)
                         (workerId_of Example.alex
                            (mkWorld Reclaim.free_tree 0 1 []))
                         0 4001)), true)]
  ∧ run (acquireLock Example.doc 30000)
        (Example.zephyr, advance 1000 (snd (snd Reclaim.first)))
    = (inl (Locked (Some (JStr "alex"))),
       (Example.zephyr,
        set_uuid_next 2 (advance 1000 (snd (snd Reclaim.first))))).
Proof.
  destruct (acquire_checks_then_writes Example.doc 30000 30000 1000
              Example.alex Example.zephyr Reclaim.free_tree 0 0)
    as (Hlog & _ & Hseq).
  - vm_compute; reflexivity.
  - vm_compute; reflexivity.
  - split; [exact Hlog|]. apply Hseq.
    + lia.
    + vm_compute; reflexivity.
    + lia.
    + unfold safe_integer; lia.
    + unfold safe_integer; lia.
    + unfold safe_integer; lia.
Defined.

End check_then_write_witness.
